(** * KZG membership proofs: field arithmetic, dense polynomials, quotients

    A shallow embedding of the Go packages [galois] (arithmetic modulo the
    field order), [polynomial] (dense coefficient slices) and of
    [getQuotient] from the [kzg] command, followed by the properties of the
    specification that were checked against them.

    Modelling conventions.
    - [*big.Int] values are integers [Z]; a [nil] pointer is [None] where a
      function can produce one ([ModInverse], [Exp]).  Coefficient pointers
      stored in a polynomial are never [nil].
    - A [Polynomial] ([[]*big.Int]) is a [list Z]; index 0 is the constant
      coefficient.  No operation of the package mutates a [big.Int] that is
      shared with an argument, so values are copied freely.
    - A run-time panic (index out of range, [makeslice] with a negative
      length, nil dereference, division by zero inside [math/big]) is the
      outcome [Panic]; an [error] return value is the outcome [Err].
    - Go's [int] and [uint64] are unbounded here: slice lengths never come
      close to the machine limits.
    - The unbounded [for] loop of [Polynomial.Div] takes a fuel argument that
      counts iterations; [None] means that the fuel ran out.  The loop of
      [Field.RootOfUnity] consumes one draw of the random source per
      iteration and recurses on the remaining draws. *)

From Stdlib Require Import ZArith Lia Znumtheory Zcong.
From stdpp Require Import base numbers list.

Local Open Scope Z_scope.

(** ** Outcomes of a Go call *)

Inductive panic : Type :=
| IndexOutOfRange
| MakesliceLenOutOfRange
| NilDereference
| DivisionByZero
| RandIntNonPositive.

Inductive error : Type :=
| ErrOddRoot (n : Z)
| ErrRandInt
| ErrLenMismatch (lenP lenXs : nat)
| ErrRestNotZero (r : list Z).

Inductive outcome (A : Type) : Type :=
| Ok (a : A)
| Err (e : error)
| Panic (x : panic).

Arguments Ok {A} a.
Arguments Err {A} e.
Arguments Panic {A} x.

Definition obind {A B : Type} (m : outcome A) (k : A -> outcome B) : outcome B :=
  match m with
  | Ok a => k a
  | Err e => Err e
  | Panic x => Panic x
  end.

Notation "'let*' x ':=' m 'in' k" := (obind m (fun x => k))
  (at level 10, x pattern, m at level 100, k at level 200).

(** [l[i]] as an r-value: out of range is a panic. *)
Definition index {A : Type} (l : list A) (i : nat) : outcome A :=
  match l !! i with
  | Some a => Ok a
  | None => Panic IndexOutOfRange
  end.

(** [l[i] = v]: out of range is a panic. *)
Definition store {A : Type} (l : list A) (i : nat) (v : A) : outcome (list A) :=
  if bool_decide (i < length l)%nat then Ok (<[i := v]> l) else Panic IndexOutOfRange.

(** ** Package galois *)

Module galois.

(** [type Field big.Int]: the field is its order. *)
Record Field : Type := NewField { Order : Z }.

(** [big.Int.Mod]: Euclidean modulus, a division-by-zero panic for a zero
    modulus. *)
Definition bigMod (x m : Z) : outcome Z :=
  if m =? 0 then Panic DivisionByZero else Ok (x mod Z.abs m).

(** [big.Int.ModInverse g n]: [nil] when [g] and [n] are not relatively
    prime, otherwise the inverse in [[0, |n|)]; a zero modulus panics. *)
Definition bigModInverse (g n : Z) : outcome (option Z) :=
  if n =? 0 then Panic DivisionByZero
  else if Z.gcd g (Z.abs n) =? 1 then Ok (Some (Z.invmod g (Z.abs n)))
  else Ok None.

(** [big.Int.Exp x y m]: [x^y mod |m|]; for [m = 0] the plain power (1
    when [y <= 0]); for [y < 0] the power of the inverse, [nil] when there
    is none. *)
Definition bigExp (x y m : Z) : option Z :=
  if m =? 0 then Some (if y <=? 0 then 1 else x ^ y)
  else if y <? 0 then
    if Z.gcd x (Z.abs m) =? 1
    then Some (Z.invmod x (Z.abs m) ^ (- y) mod Z.abs m)
    else None
  else Some (x ^ y mod Z.abs m).

Definition Add (f : Field) (x y : Z) : outcome Z := bigMod (x + y) (Order f).

Definition Sub (f : Field) (x y : Z) : outcome Z := bigMod (x - y) (Order f).

(** [Mod] overwrites its argument with the residue; nothing in the packages
    modelled here calls it. *)
Definition Mod (f : Field) (x : Z) : outcome Z := bigMod x (Order f).

Definition Exp (f : Field) (x y : Z) : option Z := bigExp x y (Order f).

Definition Mul (f : Field) (x y : Z) : outcome Z := bigMod (x * y) (Order f).

Definition MultInverse (f : Field) (x : Z) : outcome (option Z) :=
  bigModInverse x (Order f).

(** [new(big.Int).Mul(x, f.MultInverse(y))] dereferences the result of
    [MultInverse] without a nil check. *)
Definition Div (f : Field) (x y : Z) : outcome Z :=
  let* inv := MultInverse f y in
  match inv with
  | None => Panic NilDereference
  | Some i => bigMod (x * i) (Order f)
  end.

(** The random source: the successive results of [rand.Int] on it, [None]
    for a read error.  An exhausted source reports an error (end of
    input). *)
Definition Reader : Type := list (option Z).

(** [rand.Int(r, max)] panics when [max <= 0]. *)
Definition Random (f : Field) (r : Reader) : outcome (Z * Reader) :=
  if Order f <=? 0 then Panic RandIntNonPositive
  else match r with
       | Some x :: r' => Ok (x, r')
       | None :: _ => Err ErrRandInt
       | [] => Err ErrRandInt
       end.

(** The [for] loop of [RootOfUnity]; one draw per iteration.  On an
    exhausted source [Random] does not return a value, so the loop ends
    there with its error (or panic). *)
Fixpoint RootOfUnity_loop (f : Field) (qSub1OverN halfN : Z) (primitive : bool)
    (r : Reader) : outcome (option Z * Reader) :=
  match r with
  | [] => let* xr := Random f [] in Ok (Exp f (fst xr) qSub1OverN, snd xr)
  | d :: r' =>
      let* xr := Random f (d :: r') in
      let root := Exp f (fst xr) qSub1OverN in
      if negb primitive then Ok (root, r')
      else match root with
           | None => Panic NilDereference
           | Some rt =>
               match Exp f rt halfN with
               | None => Panic NilDereference
               | Some h =>
                   if negb (h =? 1) then Ok (root, r')
                   else RootOfUnity_loop f qSub1OverN halfN primitive r'
               end
           end
  end.

(** [n] is a [uint64]: [0 <= n].  [DivMod] panics on [n = 0]; for [n > 0]
    its Euclidean quotient and modulus are [/] and [mod]. *)
Definition RootOfUnity (f : Field) (r : Reader) (n : Z) (primitive : bool)
    : outcome (option Z * Reader) :=
  if n mod 2 =? 1 then Err (ErrOddRoot n)
  else
    let bigN := n in
    let qSub1 := Order f - 1 in
    if bigN =? 0 then Panic DivisionByZero
    else
      let qSub1OverN := qSub1 / bigN in
      let rem := qSub1 mod bigN in
      if rem =? 0 then Ok (Some 1, r)
      else
        let halfN := Z.shiftr bigN 1 in
        RootOfUnity_loop f qSub1OverN halfN primitive r.

End galois.

(** ** Package polynomial *)

Module polynomial.

(** [type Polynomial []*big.Int] *)
Abbreviation Polynomial := (list Z).

(** A read at an index that the surrounding code keeps in range. *)
Definition coef (p : Polynomial) (i : nat) : Z := default 0 (p !! i).

(** [make(Polynomial, maxDegree+1)] panics for a negative length. *)
Definition NewZeroPolynomial (maxDegree : Z) : outcome Polynomial :=
  if maxDegree + 1 <? 0 then Panic MakesliceLenOutOfRange
  else Ok (replicate (Z.to_nat (maxDegree + 1)) 0).

Definition NewPolynomial (cs : list Z) : Polynomial := cs.

(** The slice literal is copied into a fresh slice of the same length. *)
Definition NewPolynomialFromCoefficients (cs : list Z) : Polynomial := cs.

Definition ZeroPolynomial : Polynomial := NewPolynomialFromCoefficients [0].
Definition OnePolynomial : Polynomial := NewPolynomialFromCoefficients [1].

(** [for d := len(p)-1; d >= 1; d-- { if p[d] != 0 { return d } }; return 0] *)
Fixpoint Degree_from (p : Polynomial) (d : nat) : nat :=
  match d with
  | O => O
  | S d' => if coef p d =? 0 then Degree_from p d' else d
  end.

Definition Degree (p : Polynomial) : nat := Degree_from p (length p - 1).

(** [xs[i] = f.Mul(xs[i-1], x)] for [i = 1 .. n-1]. *)
Fixpoint ComputePowers_loop (f : galois.Field) (x prev : Z) (k : nat)
    : outcome (list Z) :=
  match k with
  | O => Ok []
  | S k' =>
      let* v := galois.Mul f prev x in
      let* rest := ComputePowers_loop f x v k' in
      Ok (v :: rest)
  end.

Definition ComputePowers (x : Z) (n : Z) (f : galois.Field) : outcome (list Z) :=
  if n <? 0 then Panic MakesliceLenOutOfRange
  else if n =? 0 then Ok []
  else
    let* rest := ComputePowers_loop f x 1 (Z.to_nat n - 1) in
    Ok (1 :: rest).

(** The body of the Horner loop runs for [i = len(p)-1] down to [1]. *)
Fixpoint Evaluate_loop (p : Polynomial) (x : Z) (f : galois.Field) (i : nat) (y : Z)
    : outcome Z :=
  match i with
  | O => Ok y
  | S i' =>
      let* c := index p i in
      let* y1 := galois.Add f y c in
      let* y2 := galois.Mul f y1 x in
      Evaluate_loop p x f i' y2
  end.

Definition Evaluate (p : Polynomial) (x : Z) (f : galois.Field) : outcome Z :=
  let* y := Evaluate_loop p x f (length p - 1) 0 in
  let* c := index p 0 in
  galois.Add f y c.

(** The [GroupElement] interface; receivers are overwritten with the
    result, which the functional signature returns. *)
Class GroupElement (G : Type) : Type := {
  gSet : G -> G;
  gAdd : G -> G -> G;
  gScalarMult : G -> Z -> G;
  gScalarBaseMult : Z -> G
}.

Fixpoint EvaluateOnPowers_loop {G : Type} `{GroupElement G}
    (p : Polynomial) (i : nat) (xPowers : list G) (y : G) : outcome G :=
  match xPowers with
  | [] => Ok y
  | x :: xs =>
      let* c := index p i in
      let tmp := gScalarMult x c in
      EvaluateOnPowers_loop p (S i) xs (gAdd y tmp)
  end.

Definition EvaluateOnPowers {G : Type} `{GroupElement G}
    (p : Polynomial) (xPowers : list G) : outcome G :=
  if negb (length p =? length xPowers)%nat
  then Err (ErrLenMismatch (length p) (length xPowers))
  else EvaluateOnPowers_loop p 0 xPowers (gScalarBaseMult 0).

(** [clone[i].Set(c)] for every index of [p]. *)
Fixpoint Clone_loop (i : nat) (cs : list Z) (clone : Polynomial) : outcome Polynomial :=
  match cs with
  | [] => Ok clone
  | c :: cs' =>
      let* _ := index clone i in
      let* clone' := store clone i c in
      Clone_loop (S i) cs' clone'
  end.

Definition Clone (p : Polynomial) : outcome Polynomial :=
  let* clone := NewZeroPolynomial (Z.of_nat (Degree p)) in
  Clone_loop 0 p clone.

(** [prod[i+j] = f.Add(prod[i+j], f.Mul(a, b))] for every [j, b] of [m]. *)
Fixpoint Mul_inner (f : galois.Field) (a : Z) (i j : nat) (m : list Z)
    (prod : Polynomial) : outcome Polynomial :=
  match m with
  | [] => Ok prod
  | b :: m' =>
      let* c := index prod (i + j) in
      let* ab := galois.Mul f a b in
      let* s := galois.Add f c ab in
      let* prod' := store prod (i + j) s in
      Mul_inner f a i (S j) m' prod'
  end.

Fixpoint Mul_outer (f : galois.Field) (i : nat) (p : list Z) (m : Polynomial)
    (prod : Polynomial) : outcome Polynomial :=
  match p with
  | [] => Ok prod
  | a :: p' =>
      let* prod' := Mul_inner f a i 0 m prod in
      Mul_outer f (S i) p' m prod'
  end.

Definition Mul (p m : Polynomial) (f : galois.Field) : outcome Polynomial :=
  let* prod := NewZeroPolynomial (Z.of_nat (Degree p) + Z.of_nat (Degree m)) in
  Mul_outer f 0 p m prod.

(** [result[i] = f.Add(result[i], v)] for every [i, v] of [vs]. *)
Fixpoint Add_loop (f : galois.Field) (i : nat) (vs : list Z) (result : Polynomial)
    : outcome Polynomial :=
  match vs with
  | [] => Ok result
  | v :: vs' =>
      let* c := index result i in
      let* s := galois.Add f c v in
      let* result' := store result i s in
      Add_loop f (S i) vs' result'
  end.

Definition Add (p x : Polynomial) (f : galois.Field) : outcome Polynomial :=
  let* result :=
    if (Degree x <? Degree p)%nat
    then NewZeroPolynomial (Z.of_nat (Degree p))
    else NewZeroPolynomial (Z.of_nat (Degree x)) in
  let* result1 := Add_loop f 0 p result in
  Add_loop f 0 x result1.

Definition Sub (p x : Polynomial) (f : galois.Field) : outcome Polynomial :=
  let* nx := Mul x (NewPolynomialFromCoefficients [-1]) f in
  Add p nx f.

(** [for i := 0; i <= p.Degree(); i++ { if p[i] != x[i] { return false } }] *)
Fixpoint Eq_loop (p x : Polynomial) (i : nat) (n : nat) : outcome bool :=
  match n with
  | O => Ok true
  | S n' =>
      let* a := index p i in
      let* b := index x i in
      if negb (a =? b) then Ok false else Eq_loop p x (S i) n'
  end.

Definition Eq (p x : Polynomial) : outcome bool :=
  if negb (Degree p =? Degree x)%nat then Ok false
  else Eq_loop p x 0 (S (Degree p)).

(** One iteration of the loop of [Div]: the new quotient, the new
    numerator and whether the [break] was taken. *)
Definition Div_body (p divisor : Polynomial) (f : galois.Field)
    (quotient numerator : Polynomial) : outcome (Polynomial * Polynomial * bool) :=
  let ip := Degree numerator in
  let id := Degree divisor in
  let* nc := index numerator ip in
  let* dc := index divisor id in
  let* c := galois.Div f nc dc in
  let* quotient' := store quotient (ip - id) c in
  let* dq := Mul divisor quotient' f in
  let* numerator' := Sub p dq f in
  if negb (Degree numerator' =? 0)%nat then Ok (quotient', numerator', false)
  else
    let* n0 := index numerator' 0 in
    Ok (quotient', numerator', n0 =? 0).

Fixpoint Div_loop (fuel : nat) (p divisor : Polynomial) (f : galois.Field)
    (quotient numerator : Polynomial) : option (outcome (Polynomial * Polynomial)) :=
  if (Degree numerator <? Degree divisor)%nat then Some (Ok (quotient, numerator))
  else
    match fuel with
    | O => None
    | S fuel' =>
        match Div_body p divisor f quotient numerator with
        | Ok (quotient', numerator', true) => Some (Ok (quotient', numerator'))
        | Ok (quotient', numerator', false) =>
            Div_loop fuel' p divisor f quotient' numerator'
        | Err e => Some (Err e)
        | Panic x => Some (Panic x)
        end
    end.

Definition Div (fuel : nat) (p divisor : Polynomial) (f : galois.Field)
    : option (outcome (Polynomial * Polynomial)) :=
  match Clone p with
  | Ok numerator =>
      match NewZeroPolynomial (Z.of_nat (Degree numerator) - Z.of_nat (Degree divisor)) with
      | Ok quotient => Div_loop fuel p divisor f quotient numerator
      | Err e => Some (Err e)
      | Panic x => Some (Panic x)
      end
  | Err e => Some (Err e)
  | Panic x => Some (Panic x)
  end.

End polynomial.

(** ** Command kzg *)

Module kzg.

(** [p.Add([-y]).Div([-x, 1])]; the remainder must be [Eq] to the zero
    polynomial. *)
Definition getQuotient (fuel : nat) (p : polynomial.Polynomial) (x y : Z)
    (f : galois.Field) : option (outcome polynomial.Polynomial) :=
  match polynomial.Add p (polynomial.NewPolynomial [- y]) f with
  | Ok py =>
      match polynomial.Div fuel py (polynomial.NewPolynomial [- x; 1]) f with
      | Some (Ok (q, r)) =>
          Some (let* isZero := polynomial.Eq r polynomial.ZeroPolynomial in
                if negb isZero then Err (ErrRestNotZero r) else Ok q)
      | Some (Err e) => Some (Err e)
      | Some (Panic x) => Some (Panic x)
      | None => None
      end
  | Err e => Some (Err e)
  | Panic x => Some (Panic x)
  end.

End kzg.

(** ** Type FieldElement of package galois *)

Module FieldElement.

(** A pointer is an index into the store of its target type, [None] the nil
    pointer. *)
Definition ptr : Type := option nat.

(** [type FieldElement struct { x *big.Int; Field *Field }] *)
Record FieldElement : Type := mkFieldElement { x : ptr; Field : option galois.Field }.

(** The heap: the [big.Int] cells and the [FieldElement] structs allocated
    so far.  Cells that no struct can reach (the temporaries of
    [Field.Order]) are left out. *)
Record heap : Type := Heap { ints : list Z; elems : list FieldElement }.

(** [*p]: a nil pointer panics.  An index beyond the store, which no Go
    program can hold, is treated alike. *)
Definition deref {A : Type} (l : list A) (p : ptr) : outcome A :=
  match p with
  | Some i => match l !! i with
              | Some a => Ok a
              | None => Panic NilDereference
              end
  | None => Panic NilDereference
  end.

(** [&FieldElement{x, f}]: a new struct that holds the pointer [x] itself,
    not a copy of the integer. *)
Definition NewFieldElement (x0 : ptr) (f : option galois.Field) (h : heap)
    : ptr * heap :=
  (Some (length (elems h)), Heap (ints h) (elems h ++ [mkFieldElement x0 f])).

(** [e.x.Set(a.x)]: the integer that [e.x] points to is overwritten with
    the value of the integer of [a].  ([Set] is a reserved word.) *)
Definition Set_ (e a : ptr) (h : heap) : outcome heap :=
  let* ev := deref (elems h) e in
  let* av := deref (elems h) a in
  let* v := deref (ints h) (x av) in
  let* _ := deref (ints h) (x ev) in
  match x ev with
  | Some i => Ok (Heap (<[i := v]> (ints h)) (elems h))
  | None => Panic NilDereference
  end.

(** [e.x = e.Field.Add(a.x, b.x)]: the sum is a new integer, and the field
    [x] of the struct [e] is pointed at it. *)
Definition Add (e a b : ptr) (h : heap) : outcome heap :=
  let* ev := deref (elems h) e in
  let* av := deref (elems h) a in
  let* bv := deref (elems h) b in
  let* va := deref (ints h) (x av) in
  let* vb := deref (ints h) (x bv) in
  match Field ev, e with
  | Some f, Some i =>
      let* s := galois.Add f va vb in
      Ok (Heap (ints h ++ [s])
               (<[i := mkFieldElement (Some (length (ints h))) (Field ev)]> (elems h)))
  | _, _ => Panic NilDereference
  end.

(** [e.x = e.Field.Mul(a.x, scalar)] *)
Definition Mul (e a : ptr) (scalar : ptr) (h : heap) : outcome heap :=
  let* ev := deref (elems h) e in
  let* av := deref (elems h) a in
  let* va := deref (ints h) (x av) in
  let* vs := deref (ints h) scalar in
  match Field ev, e with
  | Some f, Some i =>
      let* s := galois.Mul f va vs in
      Ok (Heap (ints h ++ [s])
               (<[i := mkFieldElement (Some (length (ints h))) (Field ev)]> (elems h)))
  | _, _ => Panic NilDereference
  end.

(** [e.x.Set(bigZero)] *)
Definition SetInfinity (e : ptr) (h : heap) : outcome heap :=
  let* ev := deref (elems h) e in
  let* _ := deref (ints h) (x ev) in
  match x ev with
  | Some i => Ok (Heap (<[i := 0]> (ints h)) (elems h))
  | None => Panic NilDereference
  end.

End FieldElement.

(** * Vocabulary of the verification *)

Import polynomial.

(** The fields of the test vectors and of the examples. *)
Definition f2 : galois.Field := galois.NewField 2.
Definition f7 : galois.Field := galois.NewField 7.
Definition f10 : galois.Field := galois.NewField 10.
Definition f15 : galois.Field := galois.NewField 15.
Definition f100 : galois.Field := galois.NewField 100.
Definition fbig : galois.Field := galois.NewField 100000000000000000.

(** [bn256.Order], the field of the [kzg] command. *)
Definition fbn256 : galois.Field :=
  galois.NewField
    21888242871839275222246405745257275088548364400416034343698204186575808495617.

(** Finite sums [g 0 + ... + g (n-1)]. *)
Fixpoint sumn (n : nat) (g : nat -> Z) : Z :=
  match n with
  | O => 0
  | S n' => sumn n' g + g n'
  end.

(** The slice of length [L] whose entry [k] is [g k] reduced modulo [o]. *)
Definition tab (o : Z) (L : nat) (g : nat -> Z) : list Z :=
  (fun k => g k mod o) <$> seq 0 L.

(** A slice is stored canonically when it has exactly [Degree + 1] slots:
    it is not empty and, unless it has a single slot, its last slot is not
    zero. *)
Definition canonical (p : Polynomial) : Prop := length p = S (Degree p).

(** Every slot holds a field element: an integer of [[0, order)]. *)
Definition reduced (f : galois.Field) (p : list Z) : Prop :=
  Forall (fun c => 0 <= c < galois.Order f) p.

(** Every slot is zero. *)
Definition zero_poly (p : list Z) : Prop := Forall (fun c => c = 0) p.

(** The coefficient of the product: [conv p m k] is the sum of
    [p[i] * m[k-i]] over the slots [i] of [p]. *)
Definition cterm (p m : list Z) (k i : nat) : Z :=
  if decide (i <= k)%nat then coef p i * coef m (k - i) else 0.

Definition conv (p m : list Z) (k : nat) : Z := sumn (length p) (cterm p m k).

(** Every slot is its own residue modulo [o]. *)
Definition reduced_slots (o : Z) (r : list Z) : Prop :=
  forall k, coef r k mod o = coef r k.

(** Congruence modulo the order, as a setoid that sums, differences and
    products respect. *)
Definition cong (o a b : Z) : Prop := a mod o = b mod o.

#[local] Instance cong_equiv o : Equivalence (cong o) := Zdiv.eqm_setoid o.
#[local] Instance cong_add o : Proper (cong o ==> cong o ==> cong o) Z.add :=
  Zdiv.Zplus_eqm o.
#[local] Instance cong_sub o : Proper (cong o ==> cong o ==> cong o) Z.sub :=
  Zdiv.Zminus_eqm o.
#[local] Instance cong_mul o : Proper (cong o ==> cong o ==> cong o) Z.mul :=
  Zdiv.Zmult_eqm o.
#[local] Instance cong_opp o : Proper (cong o ==> cong o) Z.opp := Zdiv.Zopp_eqm o.

(** The integer value of the slice at [x], before reduction. *)
Definition epoly (p : list Z) (x : Z) : Z :=
  sumn (length p) (fun i => coef p i * x ^ Z.of_nat i).

(** The state at the head of the loop of [Div]: the numerator is
    [p - d * quotient], the quotient is still zero at and below the slot
    that the next iteration writes, and it is canonical once a slot has been
    written. *)
Definition div_inv (f : galois.Field) (p d q n : list Z) : Prop :=
  length q = S (Degree p - Degree d) /\ length n = S (Degree p) /\
  (forall k, coef n k = (coef p k - conv d q k) mod galois.Order f) /\
  (forall j, (j + Degree d <= Degree n)%nat -> coef q j = 0) /\
  (Degree n = Degree p \/ canonical q).

(** The state that [Div] returns. *)
Definition div_post (f : galois.Field) (p d q r : list Z) : Prop :=
  length q = S (Degree p - Degree d) /\ canonical q /\ length r = S (Degree p) /\
  (forall k, coef r k = (coef p k - conv d q k) mod galois.Order f) /\
  ((Degree r < Degree d)%nat \/ forall k, coef r k = 0).

(** [p - y] for [y] the value of [p] at [z], as [getQuotient] computes it. *)
Definition shifted_poly (f : galois.Field) (p : list Z) (z : Z) : list Z :=
  tab (galois.Order f) (S (Degree p))
      (fun k => coef p k + coef [- (epoly p z mod galois.Order f)] k).

(** The laws of the group behind a [GroupElement]: on the multiples of the
    base point, [Add] adds the scalars and [ScalarMult] multiplies them; the
    scalars are field elements, that is, the order of the base point divides
    the order of the field and a scalar counts modulo that order. *)
Record GroupLaws (f : galois.Field) (G : Type) `{GroupElement G} : Prop := {
  law_add : forall a b : Z,
    gAdd (gScalarBaseMult a) (gScalarBaseMult b) = gScalarBaseMult (a + b);
  law_scalar : forall a k : Z,
    gScalarMult (gScalarBaseMult a) k = gScalarBaseMult (a * k);
  law_order : forall a : Z,
    gScalarBaseMult (a mod galois.Order f) = gScalarBaseMult a
}.

(** The integers modulo 7 under addition, with base point 1. *)
Definition Z7_group : GroupElement Z := {|
  gSet := fun a => a;
  gAdd := fun a b => (a + b) mod 7;
  gScalarMult := fun a k => (a * k) mod 7;
  gScalarBaseMult := fun k => k mod 7
|}.

(** Three field elements over the field of order 7: the first two share the
    integer 5, the third holds the integer 3. *)
Definition shared_heap : FieldElement.heap :=
  FieldElement.Heap [5; 3]
    [FieldElement.mkFieldElement (Some 0%nat) (Some f7);
     FieldElement.mkFieldElement (Some 0%nat) (Some f7);
     FieldElement.mkFieldElement (Some 1%nat) (Some f7)].

(** The integer a field element currently holds: [*e.x]. *)
Definition value (h : FieldElement.heap) (e : FieldElement.ptr) : outcome Z :=
  let* ev := FieldElement.deref (FieldElement.elems h) e in
  FieldElement.deref (FieldElement.ints h) (FieldElement.x ev).

(** The call does not hand an error value to its caller. *)
Definition no_err {A : Type} (m : outcome A) : Prop := forall e, m <> Err e.

(** * Verification *)

(** ** The test vectors of the repository *)

Example TestMul_vectors :
  Mul [1; 1; 1] [1; 1] f2 = Ok [1; 0; 0; 1] /\
  Mul [0; 1; 2] [10; 2; 0; 3] fbig = Ok [0; 10; 22; 4; 3; 6] /\
  Mul [1; 2; 3] [-1] f10 = Ok [9; 8; 7].
Proof. repeat split; reflexivity. Qed.

(** The second difference has three slots, all zero; the test compares it
    to [[0]] with [Eq], which stops at the degree. *)
Example TestSub_vectors :
  Sub [0; 1; 2] [0; 1] f100 = Ok [0; 0; 2] /\
  Sub [0; 1; 2] [0; 1; 2] f100 = Ok [0; 0; 0] /\
  Eq [0; 0; 0] [0] = Ok true /\
  Sub [0; 1] [0; 2] f100 = Ok [0; 99].
Proof. repeat split; reflexivity. Qed.

Example TestDiv_vectors :
  Div 2 [0; 1337] [0; 1337] fbig = Some (Ok ([1], [0; 0])) /\
  Div 3 [0; 0; 42] [0; 1] fbig = Some (Ok ([0; 42], [0; 0; 0])) /\
  Div 4 [1; 0; 0; 1] [1; 1] f100 = Some (Ok ([1; 99; 1], [0; 0; 0; 0])) /\
  Div 3 [1; 0; 1] [1; 1] f100 = Some (Ok ([99; 1], [2; 0; 0])) /\
  Div 3 [6; 4; 5] [1; 2] f7 = Some (Ok ([6; 6], [0; 0; 0])) /\
  Div 3 [6; 4; 5] [1] f7 = Some (Ok ([6; 4; 5], [0; 0; 0])) /\
  Div 1 [2] [2] f7 = Some (Ok ([1], [0])).
Proof. repeat split; reflexivity. Qed.

Example TestEvaluate_vectors :
  Evaluate [0; 1; 2] 1 f100 = Ok 3 /\
  Evaluate [0; 1; 2] 1 f2 = Ok 1 /\
  Evaluate [0; 2; 3] 2 f10 = Ok 6.
Proof. repeat split; reflexivity. Qed.

(** The run of [main]: the hidden set [{1, 2}] gives [p = (v-1)(v-2)], its
    value at [z = 5] is 12 and the quotient of [p - 12] by [v - 5] is
    [v + 2]. *)
Example main_scenario :
  exists p1 p,
    Mul OnePolynomial [-1; 1] fbn256 = Ok p1 /\
    Mul p1 [-2; 1] fbn256 = Ok p /\
    Evaluate p 5 fbn256 = Ok 12 /\
    kzg.getQuotient 3 p 5 12 fbn256 = Some (Ok [2; 1]).
Proof. eexists. eexists. repeat split; vm_compute; reflexivity. Qed.

(** Inputs on which the operations leave their contract. *)
Example Div_lead_not_invertible :
  Div 3 [1; 0; 1] [1; 3] f15 = Some (Panic NilDereference).
Proof. reflexivity. Qed.

Example Div_dividend_with_trailing_zero :
  Div 3 [1; 0] [1] f7 = Some (Panic IndexOutOfRange).
Proof. reflexivity. Qed.

Example Div_dividend_not_reduced :
  Div 3 [8] [1] f7 = Some (Ok ([1], [0])) /\
  Mul [1] [1] f7 = Ok [1] /\ Add [1] [0] f7 = Ok [1].
Proof. repeat split; reflexivity. Qed.

Example Mul_operand_not_reduced :
  Mul [1; 7] [1] f7 = Ok [1; 0] /\ Degree [1; 0] = O /\ Degree [1; 7] = 1%nat.
Proof. repeat split; reflexivity. Qed.

Example getQuotient_constant :
  kzg.getQuotient 1 [3] 5 3 f7 = Some (Ok []).
Proof. reflexivity. Qed.

Example getQuotient_wrong_value :
  kzg.getQuotient 3 [2; 4; 1] 5 4 f7 = Some (Err (ErrRestNotZero [1; 0; 0])).
Proof. reflexivity. Qed.

(** ** Finite sums *)

Lemma sumn_ext n g h : (forall i, (i < n)%nat -> g i = h i) -> sumn n g = sumn n h.
Proof.
  induction n as [|n IH]; intros E; simpl; [reflexivity|].
  rewrite IH by (intros; apply E; lia). rewrite E by lia. reflexivity.
Qed.

Lemma sumn_zero n g : (forall i, (i < n)%nat -> g i = 0) -> sumn n g = 0.
Proof.
  induction n as [|n IH]; intros E; simpl; [reflexivity|].
  rewrite IH by (intros; apply E; lia). rewrite E by lia. reflexivity.
Qed.

Lemma sumn_add n g h : sumn n (fun i => g i + h i) = sumn n g + sumn n h.
Proof. induction n as [|n IH]; simpl; [reflexivity|]. rewrite IH. ring. Qed.

Lemma sumn_scal n c g : sumn n (fun i => c * g i) = c * sumn n g.
Proof. induction n as [|n IH]; simpl; [ring|]. rewrite IH. ring. Qed.

Lemma sumn_more n n' g :
  (n <= n')%nat -> (forall i, (n <= i < n')%nat -> g i = 0) -> sumn n' g = sumn n g.
Proof.
  induction n' as [|n' IH]; intros Hle Hz.
  - replace n with O by lia. reflexivity.
  - destruct (decide (n = S n')) as [->|Hne]; [reflexivity|].
    simpl. rewrite IH by (try intros; try apply Hz; lia). rewrite Hz by lia. ring.
Qed.

Lemma sumn_single n j v :
  sumn n (fun i => if decide (i = j) then v else 0) = if decide (j < n)%nat then v else 0.
Proof.
  induction n as [|n IH]; simpl.
  - destruct (decide (j < 0)%nat); [lia|reflexivity].
  - rewrite IH. repeat case_decide; try lia.
Qed.

Lemma sumn_swap n m (g : nat -> nat -> Z) :
  sumn n (fun i => sumn m (fun j => g i j)) = sumn m (fun j => sumn n (fun i => g i j)).
Proof.
  induction n as [|n IH]; simpl.
  - symmetry. apply sumn_zero. reflexivity.
  - rewrite IH, <- sumn_add. reflexivity.
Qed.

Lemma sumn_shift1 n g : sumn (S n) g = g O + sumn n (fun i => g (S i)).
Proof. induction n as [|n IH]; [simpl; ring|]. simpl in *. rewrite IH. ring. Qed.

Lemma sumn_rev n g : sumn n g = sumn n (fun i => g (n - 1 - i)%nat).
Proof.
  revert g. induction n as [|n IH]; intros g; [reflexivity|].
  rewrite sumn_shift1. rewrite (IH (fun i => g (S i))).
  cbn [sumn]. replace (S n - 1 - n)%nat with O by lia.
  rewrite Z.add_comm. f_equal.
  apply sumn_ext. intros i Hi. f_equal. lia.
Qed.

(** The terms at and above [i], re-indexed from 0. *)
Lemma sumn_shift n i g :
  (i <= n)%nat ->
  sumn n (fun k => if decide (i <= k)%nat then g (k - i)%nat else 0) = sumn (n - i) g.
Proof.
  induction n as [|n IH]; intros Hi.
  - reflexivity.
  - destruct (decide (i = S n)) as [->|Hne].
    + replace (S n - S n)%nat with O by lia. apply sumn_zero.
      intros k Hk. case_decide; [lia|reflexivity].
    + replace (S n - i)%nat with (S (n - i)) by lia. simpl.
      rewrite IH by lia. case_decide; [reflexivity|lia].
Qed.

(** ** Slices: reads, writes and tabulated contents *)

Lemma coef_lookup (p : list Z) (i : nat) c : p !! i = Some c -> coef p i = c.
Proof. unfold coef. intros ->. reflexivity. Qed.

Lemma coef_ge (p : list Z) (i : nat) : (length p <= i)%nat -> coef p i = 0.
Proof. intros H. unfold coef. rewrite lookup_ge_None_2 by lia. reflexivity. Qed.

Lemma lookup_coef (p : list Z) (i : nat) : (i < length p)%nat -> p !! i = Some (coef p i).
Proof.
  intros H. destruct (lookup_lt_is_Some_2 p i H) as [c Hc].
  rewrite Hc. f_equal. symmetry. apply coef_lookup, Hc.
Qed.

Lemma index_lt (p : list Z) (i : nat) : (i < length p)%nat -> index p i = Ok (coef p i).
Proof. intros H. unfold index. rewrite lookup_coef by lia. reflexivity. Qed.

Lemma index_ge {A} (p : list A) (i : nat) : (length p <= i)%nat -> index p i = Panic IndexOutOfRange.
Proof. intros H. unfold index. rewrite lookup_ge_None_2 by lia. reflexivity. Qed.

Lemma store_lt {A} (p : list A) (i : nat) v : (i < length p)%nat -> store p i v = Ok (<[i := v]> p).
Proof. intros H. unfold store. rewrite bool_decide_eq_true_2 by lia. reflexivity. Qed.

Lemma store_ge {A} (p : list A) (i : nat) v :
  (length p <= i)%nat -> store p i v = Panic IndexOutOfRange.
Proof. intros H. unfold store. rewrite bool_decide_eq_false_2 by lia. reflexivity. Qed.

Lemma coef_insert (p : list Z) (i : nat) v (k : nat) :
  (i < length p)%nat -> coef (<[i := v]> p) k = if decide (k = i) then v else coef p k.
Proof.
  intros H. unfold coef. case_decide as E.
  - subst k. rewrite list_lookup_insert_eq by lia. reflexivity.
  - rewrite list_lookup_insert_ne by congruence. reflexivity.
Qed.

Lemma coef_cons_0 a (p : list Z) : coef (a :: p) 0 = a.
Proof. reflexivity. Qed.

Lemma coef_cons_S a (p : list Z) (i : nat) : coef (a :: p) (S i) = coef p i.
Proof. reflexivity. Qed.

Lemma coef_replicate n k : coef (replicate n 0) k = 0.
Proof.
  unfold coef. destruct (decide (k < n)%nat).
  - rewrite lookup_replicate_2 by lia. reflexivity.
  - rewrite lookup_ge_None_2; [reflexivity|]. rewrite length_replicate. lia.
Qed.

Lemma coef_ext (a b : list Z) :
  length a = length b -> (forall k, (k < length a)%nat -> coef a k = coef b k) -> a = b.
Proof.
  intros Hl Hc. apply list_eq. intros k.
  destruct (decide (k < length a)%nat) as [Hk|Hk].
  - rewrite !lookup_coef by lia. f_equal. apply Hc, Hk.
  - rewrite !lookup_ge_None_2 by lia. reflexivity.
Qed.

Lemma length_tab o L g : length (tab o L g) = L.
Proof. unfold tab. rewrite length_fmap, length_seq. reflexivity. Qed.

Lemma coef_tab o L g k : coef (tab o L g) k = if decide (k < L)%nat then g k mod o else 0.
Proof.
  unfold coef, tab. rewrite list_lookup_fmap. case_decide as Hk.
  - rewrite lookup_seq_lt by lia. reflexivity.
  - rewrite lookup_seq_ge by lia. reflexivity.
Qed.

Lemma tab_ext o L g h :
  (forall k, (k < L)%nat -> g k mod o = h k mod o) -> tab o L g = tab o L h.
Proof.
  intros E. apply coef_ext; rewrite !length_tab; [reflexivity|].
  intros k Hk. rewrite !coef_tab. case_decide; [apply E; lia|reflexivity].
Qed.

(** ** Degree *)

Lemma Degree_from_le p d : (Degree_from p d <= d)%nat.
Proof. induction d as [|d IH]; simpl; [lia|]. destruct (coef p (S d) =? 0); lia. Qed.

Lemma Degree_from_nonzero p d : Degree_from p d <> O -> coef p (Degree_from p d) <> 0.
Proof.
  induction d as [|d IH]; simpl; [congruence|].
  destruct (coef p (S d) =? 0) eqn:E; [exact IH|]. intros _. lia.
Qed.

Lemma Degree_from_above p d k : (Degree_from p d < k <= d)%nat -> coef p k = 0.
Proof.
  induction d as [|d IH]; simpl; [lia|].
  destruct (coef p (S d) =? 0) eqn:E; [|lia].
  intros Hk. destruct (decide (k = S d)) as [->|Hne]; [lia|]. apply IH. lia.
Qed.

Lemma Degree_from_unique p d m :
  (m <= d)%nat -> (m <> O -> coef p m <> 0) ->
  (forall k, (m < k <= d)%nat -> coef p k = 0) -> Degree_from p d = m.
Proof.
  induction d as [|d IH]; intros Hm Hnz Hz; simpl; [lia|].
  destruct (decide (m = S d)) as [->|Hne].
  - destruct (coef p (S d) =? 0) eqn:E; [|reflexivity]. exfalso. apply Hnz; lia.
  - rewrite Hz by lia. simpl. apply IH; [lia|exact Hnz|]. intros k Hk. apply Hz. lia.
Qed.

Lemma Degree_le_length p : (Degree p <= length p - 1)%nat.
Proof. apply Degree_from_le. Qed.

Lemma Degree_nonzero p : Degree p <> O -> coef p (Degree p) <> 0.
Proof. apply Degree_from_nonzero. Qed.

Lemma Degree_above p k : (Degree p < k)%nat -> coef p k = 0.
Proof.
  intros Hk. destruct (decide (k <= length p - 1)%nat).
  - apply (Degree_from_above p (length p - 1)). unfold Degree in Hk. lia.
  - apply coef_ge. lia.
Qed.

Lemma Degree_unique p m :
  (m <> O -> coef p m <> 0) -> (forall k, (m < k)%nat -> coef p k = 0) -> Degree p = m.
Proof.
  intros Hnz Hz. apply Degree_from_unique; [|exact Hnz|intros; apply Hz; lia].
  destruct (decide (m = O)) as [->|Hne]; [lia|].
  destruct (decide (m <= length p - 1)%nat); [assumption|].
  exfalso. apply (Hnz Hne). apply coef_ge. lia.
Qed.

Lemma Degree_le p m : (forall k, (m < k)%nat -> coef p k = 0) -> (Degree p <= m)%nat.
Proof.
  intros Hz. destruct (decide (Degree p <= m)%nat); [assumption|].
  exfalso. apply (Degree_nonzero p); [lia|]. apply Hz. lia.
Qed.

Lemma canonical_top p :
  (length p <= 1)%nat \/ coef p (length p - 1) <> 0 -> p <> [] -> canonical p.
Proof.
  intros H Hne. unfold canonical.
  assert (0 < length p)%nat by (destruct p; [congruence|simpl; lia]).
  rewrite (Degree_unique p (length p - 1)); [lia| |].
  - intros Hm. destruct H; [lia|assumption].
  - intros k Hk. apply coef_ge. lia.
Qed.

(** ** The operations over a field of positive order *)

Section Arithmetic.

Variable f : galois.Field.
Local Abbreviation o := (galois.Order f).
Hypothesis order_pos : 0 < o.

Lemma bigMod_pos x : galois.bigMod x o = Ok (x mod o).
Proof.
  unfold galois.bigMod. destruct (Z.eqb_spec o 0); [lia|].
  rewrite Z.abs_eq by lia. reflexivity.
Qed.

Lemma galois_Add_pos x y : galois.Add f x y = Ok ((x + y) mod o).
Proof. apply bigMod_pos. Qed.

Lemma galois_Mul_pos x y : galois.Mul f x y = Ok ((x * y) mod o).
Proof. apply bigMod_pos. Qed.

Lemma NewZeroPolynomial_nat (n : nat) :
  NewZeroPolynomial (Z.of_nat n) = Ok (replicate (S n) 0).
Proof.
  unfold NewZeroPolynomial. destruct (Z.ltb_spec (Z.of_nat n + 1) 0); [lia|].
  do 2 f_equal. lia.
Qed.

Lemma Add_loop_spec vs : forall i r,
  (i + length vs <= length r)%nat ->
  exists r', Add_loop f i vs r = Ok r' /\ length r' = length r /\
    forall k, coef r' k =
      if decide (i <= k < i + length vs)%nat
      then (coef r k + coef vs (k - i)) mod o else coef r k.
Proof.
  induction vs as [|v vs IH]; intros i r Hlen; simpl in *.
  - exists r. split; [reflexivity|]. split; [reflexivity|].
    intros k. case_decide; [lia|reflexivity].
  - rewrite index_lt by lia. simpl. rewrite galois_Add_pos. simpl.
    rewrite store_lt by lia. simpl.
    destruct (IH (S i) (<[i := (coef r i + v) mod o]> r)) as (r' & E & Hl & Hc).
    { rewrite length_insert. lia. }
    exists r'. split; [exact E|]. rewrite length_insert in Hl. split; [exact Hl|].
    intros k. rewrite Hc. rewrite coef_insert by lia.
    destruct (decide (k = i)) as [->|Hne].
    + rewrite decide_False by lia. rewrite decide_True by lia.
      replace (i - i)%nat with O by lia. reflexivity.
    + destruct (decide (i <= k)%nat).
      * replace (k - i)%nat with (S (k - S i)) by lia.
        repeat case_decide; try lia; reflexivity.
      * repeat case_decide; try lia; reflexivity.
Qed.

Lemma Add_loop_panic vs : forall i r,
  (i <= length r < i + length vs)%nat -> Add_loop f i vs r = Panic IndexOutOfRange.
Proof.
  induction vs as [|v vs IH]; intros i r Hlen; simpl in *; [lia|].
  destruct (decide (i < length r)%nat).
  - rewrite index_lt by lia. simpl. rewrite galois_Add_pos. simpl.
    rewrite store_lt by lia. simpl. apply IH. rewrite length_insert. lia.
  - rewrite index_ge by lia. reflexivity.
Qed.

Lemma Add_alloc p x :
  (if (Degree x <? Degree p)%nat
   then NewZeroPolynomial (Z.of_nat (Degree p))
   else NewZeroPolynomial (Z.of_nat (Degree x)))
  = Ok (replicate (S (Degree p `max` Degree x)) 0).
Proof.
  destruct (Degree x <? Degree p)%nat eqn:E; rewrite NewZeroPolynomial_nat.
  - apply Nat.ltb_lt in E. do 3 f_equal. lia.
  - apply Nat.ltb_ge in E. do 3 f_equal. lia.
Qed.

(** [Add] returns exactly when both operands fit into [max degree + 1]
    slots, and then every coefficient is the reduced sum. *)
Lemma Add_spec p x :
  (length p <= S (Degree p `max` Degree x))%nat ->
  (length x <= S (Degree p `max` Degree x))%nat ->
  Add p x f = Ok (tab o (S (Degree p `max` Degree x)) (fun k => coef p k + coef x k)).
Proof.
  intros Hp Hx. unfold Add. rewrite Add_alloc. cbn [obind].
  set (L := S (Degree p `max` Degree x)) in *.
  destruct (Add_loop_spec p 0 (replicate L 0)) as (r1 & E1 & Hl1 & Hc1).
  { rewrite length_replicate. lia. }
  rewrite E1. cbn [obind]. rewrite length_replicate in Hl1.
  destruct (Add_loop_spec x 0 r1 ltac:(lia)) as (r2 & E2 & Hl2 & Hc2).
  rewrite E2. f_equal. apply coef_ext.
  - rewrite length_tab. lia.
  - intros k Hk. rewrite Hc2, Hc1, coef_tab, coef_replicate.
    replace (k - 0)%nat with k by lia. repeat case_decide; try lia.
    + rewrite Z.add_0_l, Zplus_mod_idemp_l. reflexivity.
    + rewrite (coef_ge p) by lia. reflexivity.
    + rewrite (coef_ge x) by lia. rewrite Z.add_0_l, Z.add_0_r. reflexivity.
    + rewrite (coef_ge p), (coef_ge x) by lia. reflexivity.
Qed.

Lemma Add_panics p x :
  (S (Degree p `max` Degree x) < length p)%nat \/
  (S (Degree p `max` Degree x) < length x)%nat ->
  Add p x f = Panic IndexOutOfRange.
Proof.
  intros H. unfold Add. rewrite Add_alloc. cbn [obind].
  set (L := S (Degree p `max` Degree x)) in *.
  destruct (decide (L < length p)%nat) as [Hp|Hp].
  - rewrite Add_loop_panic; [reflexivity|]. rewrite length_replicate. lia.
  - destruct (Add_loop_spec p 0 (replicate L 0)) as (r1 & E1 & Hl1 & _).
    { rewrite length_replicate. lia. }
    rewrite E1. cbn [obind]. rewrite length_replicate in Hl1.
    apply Add_loop_panic. lia.
Qed.

Lemma reduced_slots_replicate n : reduced_slots o (replicate n 0).
Proof. intros k. rewrite coef_replicate. reflexivity. Qed.

Lemma Mul_inner_spec a i m : forall j prod,
  (i + j + length m <= length prod)%nat ->
  exists prod', Mul_inner f a i j m prod = Ok prod' /\ length prod' = length prod /\
    forall k, coef prod' k =
      if decide (i + j <= k < i + j + length m)%nat
      then (coef prod k + a * coef m (k - (i + j))) mod o else coef prod k.
Proof.
  induction m as [|b m IH]; intros j prod Hlen; simpl in *.
  - exists prod. split; [reflexivity|]. split; [reflexivity|].
    intros k. case_decide; [lia|reflexivity].
  - rewrite index_lt by lia. cbn [obind]. rewrite galois_Mul_pos. cbn [obind].
    rewrite galois_Add_pos. cbn [obind]. rewrite store_lt by lia. cbn [obind].
    rewrite Zplus_mod_idemp_r.
    destruct (IH (S j) (<[(i + j)%nat := (coef prod (i + j) + a * b) mod o]> prod))
      as (prod' & E & Hl & Hc).
    { rewrite length_insert. lia. }
    exists prod'. split; [exact E|]. rewrite length_insert in Hl. split; [exact Hl|].
    intros k. rewrite Hc. rewrite coef_insert by lia.
    destruct (decide (k = i + j)%nat) as [->|Hne].
    + rewrite decide_False by lia. rewrite decide_True by lia.
      replace (i + j - (i + j))%nat with O by lia. reflexivity.
    + destruct (decide (i + j <= k)%nat).
      * replace (k - (i + j))%nat with (S (k - (i + S j))) by lia.
        repeat case_decide; try lia; reflexivity.
      * repeat case_decide; try lia; reflexivity.
Qed.

Lemma Mul_outer_spec m : forall p i prod,
  reduced_slots o prod ->
  (p = [] \/ i + length p + length m <= S (length prod))%nat ->
  exists prod', Mul_outer f i p m prod = Ok prod' /\ length prod' = length prod /\
    reduced_slots o prod' /\
    forall k, coef prod' k =
      (coef prod k +
       sumn (length p) (fun i' =>
         if decide (i + i' <= k)%nat then coef p i' * coef m (k - (i + i')) else 0))
      mod o.
Proof.
  induction p as [|a p IH]; intros i prod Hred Hlen; cbn [Mul_outer length] in *.
  - exists prod. split; [reflexivity|]. split; [reflexivity|]. split; [exact Hred|].
    intros k. cbn [sumn]. rewrite Z.add_0_r. symmetry. apply Hred.
  - destruct Hlen as [Hlen|Hlen]; [discriminate|].
    destruct (Mul_inner_spec a i m 0 prod ltac:(lia)) as (prod1 & E1 & Hl1 & Hc1).
    rewrite E1. cbn [obind].
    assert (Hc1' : forall k, coef prod1 k =
              (coef prod k + if decide (i <= k)%nat then a * coef m (k - i) else 0) mod o).
    { intros k. rewrite Hc1. replace (i + 0)%nat with i by lia.
      repeat case_decide; try lia; try reflexivity.
      - rewrite (coef_ge m) by lia. rewrite Z.mul_0_r, Z.add_0_r. symmetry. apply Hred.
      - rewrite Z.add_0_r. symmetry. apply Hred. }
    destruct (IH (S i) prod1) as (prod' & E & Hl & Hred' & Hc).
    { intros k. rewrite Hc1'. apply Zmod_mod. }
    { right. lia. }
    exists prod'. split; [exact E|]. split; [lia|]. split; [exact Hred'|].
    intros k. rewrite Hc, Hc1'. rewrite Zplus_mod_idemp_l.
    rewrite (sumn_shift1 (length p)). f_equal.
    replace (i + 0)%nat with i by lia. rewrite coef_cons_0.
    rewrite <- Z.add_assoc. f_equal. f_equal.
    apply sumn_ext. intros i' _. rewrite coef_cons_S.
    replace (i + S i')%nat with (S i + i')%nat by lia. reflexivity.
Qed.

(** [Mul] returns when the operands fit into [Degree p + Degree m + 1]
    slots, and then every coefficient is the reduced convolution. *)
Lemma Mul_spec p m :
  (p = [] \/ length p + length m <= S (S (Degree p + Degree m)))%nat ->
  Mul p m f = Ok (tab o (S (Degree p + Degree m)) (conv p m)).
Proof.
  intros Hlen. unfold Mul. rewrite <- Nat2Z.inj_add, NewZeroPolynomial_nat. cbn [obind].
  set (L := S (Degree p + Degree m)) in *.
  destruct (Mul_outer_spec m p 0 (replicate L 0)) as (prod' & E & Hl & Hred & Hc).
  { apply reduced_slots_replicate. }
  { rewrite length_replicate. destruct Hlen; [left; assumption|right; lia]. }
  rewrite E. f_equal. rewrite length_replicate in Hl. apply coef_ext.
  - rewrite length_tab. exact Hl.
  - intros k Hk. rewrite Hc, coef_tab, coef_replicate, Z.add_0_l.
    rewrite decide_True by lia. f_equal.
Qed.

End Arithmetic.

(** ** Algebra of the convolution *)

Lemma conv_alt p m k : conv p m k = sumn (S k) (fun i => coef p i * coef m (k - i)).
Proof.
  unfold conv.
  transitivity (sumn (length p `max` S k) (cterm p m k)).
  - symmetry. apply sumn_more; [lia|]. intros i Hi. unfold cterm.
    rewrite (coef_ge p) by lia. case_decide; ring.
  - rewrite (sumn_more (S k)); [|lia|].
    + apply sumn_ext. intros i Hi. unfold cterm. rewrite decide_True by lia. reflexivity.
    + intros i Hi. unfold cterm. rewrite decide_False by lia. reflexivity.
Qed.

Lemma conv_comm p m k : conv p m k = conv m p k.
Proof.
  rewrite !conv_alt. rewrite sumn_rev. apply sumn_ext. intros i Hi.
  replace (S k - 1 - i)%nat with (k - i)%nat by lia.
  replace (k - (k - i))%nat with i by lia. ring.
Qed.

Lemma conv_const_l c m k : conv [c] m k = c * coef m k.
Proof.
  unfold conv, cterm. cbn [sumn length]. rewrite decide_True by lia.
  rewrite coef_cons_0. replace (k - 0)%nat with k by lia. ring.
Qed.

Lemma conv_const_r p c k : conv p [c] k = coef p k * c.
Proof. rewrite conv_comm, conv_const_l. ring. Qed.

Lemma conv_nil_l m k : conv [] m k = 0.
Proof. reflexivity. Qed.

(** Overwriting one slot of the right operand shifts the product by a
    multiple of the left operand. *)
Lemma conv_insert_r d q (j : nat) c k :
  (j < length q)%nat ->
  conv d (<[j := c]> q) k =
  conv d q k + (c - coef q j) * (if decide (j <= k)%nat then coef d (k - j) else 0).
Proof.
  intros Hj. rewrite (conv_comm d), (conv_comm d q). unfold conv.
  rewrite length_insert.
  transitivity (sumn (length q) (fun i =>
    cterm q d k i +
    (if decide (i = j) then
       (c - coef q j) * (if decide (j <= k)%nat then coef d (k - j) else 0)
     else 0))).
  - apply sumn_ext. intros i Hi. unfold cterm. rewrite coef_insert by lia.
    destruct (decide (i = j)) as [->|Hne]; repeat case_decide; try lia; ring.
  - rewrite sumn_add, sumn_single. rewrite decide_True by lia. reflexivity.
Qed.

(** The top coefficient of a product. *)
Lemma conv_top p m :
  conv p m (Degree p + Degree m) = coef p (Degree p) * coef m (Degree m).
Proof.
  rewrite conv_alt.
  transitivity (sumn (S (Degree p + Degree m)) (fun i =>
    if decide (i = Degree p) then coef p (Degree p) * coef m (Degree m) else 0)).
  - apply sumn_ext. intros i Hi. case_decide as E.
    + subst i. f_equal. f_equal. lia.
    + destruct (decide (i < Degree p)%nat).
      * rewrite (Degree_above m) by lia. ring.
      * rewrite (Degree_above p) by lia. ring.
  - rewrite sumn_single. rewrite decide_True by lia. reflexivity.
Qed.

(** Above the sum of the degrees the product has no term. *)
Lemma conv_above p m k : (Degree p + Degree m < k)%nat -> conv p m k = 0.
Proof.
  intros Hk. rewrite conv_alt. apply sumn_zero. intros i Hi.
  destruct (decide (i <= Degree p)%nat).
  - rewrite (Degree_above m) by lia. ring.
  - rewrite (Degree_above p) by lia. ring.
Qed.

(** ** Congruence modulo the order *)

Lemma cong_mod o a : cong o (a mod o) a.
Proof. apply Zmod_mod. Qed.

Lemma cong_eq o a b : a = b -> cong o a b.
Proof. intros ->. reflexivity. Qed.

Lemma cong_unfold o a b : cong o a b -> a mod o = b mod o.
Proof. intros H. exact H. Qed.

Lemma cong_intro o a b : a mod o = b mod o -> cong o a b.
Proof. intros H. exact H. Qed.

Lemma cong_zero o a : a mod o = 0 -> cong o a 0.
Proof. intros H. unfold cong. rewrite H, Zmod_0_l. reflexivity. Qed.

Lemma cong_zero_inv o a : cong o a 0 -> a mod o = 0.
Proof. unfold cong. rewrite Zmod_0_l. intros H. exact H. Qed.

Lemma sumn_cong o n g h :
  (forall i, (i < n)%nat -> cong o (g i) (h i)) -> cong o (sumn n g) (sumn n h).
Proof.
  induction n as [|n IH]; intros E; cbn [sumn]; [reflexivity|].
  apply cong_add; [apply IH; intros; apply E; lia|apply E; lia].
Qed.

#[local] Typeclasses Opaque cong.
#[local] Opaque cong.

(** ** Evaluation *)

Lemma sumn_scal_r n c g : sumn n (fun i => g i * c) = sumn n g * c.
Proof. induction n as [|n IH]; cbn [sumn]; [ring|]. rewrite IH. ring. Qed.

Lemma epoly_tab o L g x :
  cong o (epoly (tab o L g) x) (sumn L (fun k => g k * x ^ Z.of_nat k)).
Proof.
  unfold epoly. rewrite length_tab. apply sumn_cong. intros i Hi.
  rewrite coef_tab, decide_True by lia. rewrite cong_mod. reflexivity.
Qed.

Lemma epoly_conv p m x L :
  (length p + length m <= S L)%nat ->
  sumn L (fun k => conv p m k * x ^ Z.of_nat k) = epoly p x * epoly m x.
Proof.
  intros HL. unfold conv.
  transitivity (sumn L (fun k => sumn (length p) (fun i => cterm p m k i * x ^ Z.of_nat k))).
  { apply sumn_ext. intros k _. symmetry. apply sumn_scal_r. }
  rewrite sumn_swap. unfold epoly at 1. rewrite <- sumn_scal_r.
  apply sumn_ext. intros i Hi.
  transitivity (sumn L (fun k =>
    if decide (i <= k)%nat
    then coef p i * x ^ Z.of_nat i * (coef m (k - i) * x ^ Z.of_nat (k - i)) else 0)).
  { apply sumn_ext. intros k Hk. unfold cterm. case_decide; [|ring].
    replace (Z.of_nat k) with (Z.of_nat i + Z.of_nat (k - i)) by lia.
    rewrite Z.pow_add_r by lia. ring. }
  transitivity (coef p i * x ^ Z.of_nat i *
    sumn L (fun k =>
      if decide (i <= k)%nat then coef m (k - i) * x ^ Z.of_nat (k - i) else 0)).
  { rewrite <- sumn_scal. apply sumn_ext. intros k _. case_decide; ring. }
  f_equal. rewrite (sumn_shift L i (fun j => coef m j * x ^ Z.of_nat j)) by lia.
  unfold epoly. apply sumn_more; [lia|]. intros j Hj.
  rewrite (coef_ge m) by lia. ring.
Qed.

Lemma epoly_add p q x L :
  (length p <= L)%nat -> (length q <= L)%nat ->
  sumn L (fun k => (coef p k + coef q k) * x ^ Z.of_nat k) = epoly p x + epoly q x.
Proof.
  intros Hp Hq. unfold epoly.
  rewrite <- (sumn_more (length p) L (fun i => coef p i * x ^ Z.of_nat i));
    [|lia|intros i Hi; rewrite (coef_ge p) by lia; ring].
  rewrite <- (sumn_more (length q) L (fun i => coef q i * x ^ Z.of_nat i));
    [|lia|intros i Hi; rewrite (coef_ge q) by lia; ring].
  rewrite <- sumn_add. apply sumn_ext. intros; ring.
Qed.

Section Evaluation.

Variable f : galois.Field.
Local Abbreviation o := (galois.Order f).
Hypothesis order_pos : 0 < o.

Lemma Evaluate_loop_spec p x : forall i y,
  (i < length p)%nat ->
  exists v, Evaluate_loop p x f i y = Ok v /\
    cong o (v + coef p 0)
           (y * x ^ Z.of_nat i + sumn (S i) (fun k => coef p k * x ^ Z.of_nat k)).
Proof.
  induction i as [|i IH]; intros y Hi.
  - exists y. split; [reflexivity|]. cbn [sumn]. apply cong_eq.
    change (Z.of_nat 0) with 0. rewrite Z.pow_0_r. ring.
  - cbn [Evaluate_loop]. rewrite index_lt by lia. cbn [obind].
    rewrite (galois_Add_pos f order_pos). cbn [obind].
    rewrite (galois_Mul_pos f order_pos). cbn [obind].
    destruct (IH (((y + coef p (S i)) mod o * x) mod o) ltac:(lia)) as (v & E & Hv).
    exists v. split; [exact E|]. rewrite Hv. rewrite !cong_mod.
    apply cong_eq. cbn [sumn].
    rewrite !Nat2Z.inj_succ, !Z.pow_succ_r by lia. ring.
Qed.

(** Horner's loop computes the value of the slice, reduced. *)
Lemma Evaluate_spec p x : p <> [] -> Evaluate p x f = Ok (epoly p x mod o).
Proof.
  intros Hne. assert (0 < length p)%nat by (destruct p; [congruence|simpl; lia]).
  unfold Evaluate.
  destruct (Evaluate_loop_spec p x (length p - 1) 0 ltac:(lia)) as (v & E & Hv).
  rewrite E. cbn [obind]. rewrite index_lt by lia. cbn [obind].
  rewrite (galois_Add_pos f order_pos). f_equal. apply cong_unfold. rewrite Hv.
  apply cong_eq. unfold epoly. replace (S (length p - 1)) with (length p) by lia. ring.
Qed.

Lemma Evaluate_nil x : Evaluate [] x f = Panic IndexOutOfRange.
Proof. reflexivity. Qed.

End Evaluation.

(** ** When [Add] and [Mul] return *)

Section Totality.

Variable f : galois.Field.
Local Abbreviation o := (galois.Order f).
Hypothesis order_pos : 0 < o.

Lemma Mul_inner_panic a i m : forall j prod,
  m <> [] -> (length prod < i + j + length m)%nat ->
  Mul_inner f a i j m prod = Panic IndexOutOfRange.
Proof.
  induction m as [|b m IH]; intros j prod Hne Hlen; [congruence|].
  cbn [Mul_inner length] in *.
  destruct (decide (i + j < length prod)%nat).
  - rewrite index_lt by lia. cbn [obind]. rewrite (galois_Mul_pos f order_pos). cbn [obind].
    rewrite (galois_Add_pos f order_pos). cbn [obind]. rewrite store_lt by lia. cbn [obind].
    apply IH.
    + intros ->. simpl in Hlen. lia.
    + rewrite length_insert. lia.
  - rewrite index_ge by lia. reflexivity.
Qed.

Lemma Mul_outer_panic m : forall p i prod,
  p <> [] -> m <> [] -> (S (length prod) < i + length p + length m)%nat ->
  Mul_outer f i p m prod = Panic IndexOutOfRange.
Proof.
  induction p as [|a p IH]; intros i prod Hp Hm Hlen; [congruence|].
  cbn [Mul_outer length] in *.
  destruct (decide (length prod < i + length m)%nat) as [Hin|Hin].
  - rewrite Mul_inner_panic; [reflexivity|assumption|lia].
  - destruct (Mul_inner_spec f order_pos a i m 0 prod ltac:(lia)) as (prod1 & E1 & Hl1 & _).
    rewrite E1. cbn [obind]. apply IH; [|assumption|lia].
    intros ->. simpl in Hlen. lia.
Qed.

Lemma Mul_panics p m :
  p <> [] -> m <> [] -> (S (S (Degree p + Degree m)) < length p + length m)%nat ->
  Mul p m f = Panic IndexOutOfRange.
Proof.
  intros Hp Hm Hlen. unfold Mul.
  rewrite <- Nat2Z.inj_add, NewZeroPolynomial_nat. cbn [obind].
  apply Mul_outer_panic; [assumption..|]. rewrite length_replicate. lia.
Qed.

Lemma nonempty_length (p : list Z) : p <> [] -> (0 < length p)%nat.
Proof. destruct p; [congruence|simpl; lia]. Qed.

(** Two non-empty operands are multiplied without a panic exactly when both
    are stored canonically. *)
Lemma Mul_returns_iff p m :
  p <> [] -> m <> [] ->
  (exists s, Mul p m f = Ok s) <-> canonical p /\ canonical m.
Proof.
  intros Hp Hm. pose proof (nonempty_length p Hp). pose proof (nonempty_length m Hm).
  pose proof (Degree_le_length p). pose proof (Degree_le_length m).
  unfold canonical. split.
  - intros [s Hs].
    destruct (decide (S (S (Degree p + Degree m)) < length p + length m)%nat) as [Hlt|Hge].
    + rewrite Mul_panics in Hs by assumption. discriminate.
    + lia.
  - intros [Cp Cm]. eexists. apply (Mul_spec f order_pos). right. lia.
Qed.

(** [Add] returns exactly when neither operand has slots beyond the larger
    of the two degrees. *)
Lemma Add_returns_iff p x :
  (exists s, Add p x f = Ok s) <->
  (length p <= S (Degree p `max` Degree x))%nat /\
  (length x <= S (Degree p `max` Degree x))%nat.
Proof.
  split.
  - intros [s Hs].
    destruct (decide (S (Degree p `max` Degree x) < length p)%nat) as [H1|H1].
    { rewrite (Add_panics f order_pos) in Hs by (left; exact H1). discriminate. }
    destruct (decide (S (Degree p `max` Degree x) < length x)%nat) as [H2|H2].
    { rewrite (Add_panics f order_pos) in Hs by (right; exact H2). discriminate. }
    lia.
  - intros [H1 H2]. eexists. apply (Add_spec f order_pos); assumption.
Qed.

End Totality.

(** ** Evaluation is compatible with sum and product *)

Section Homomorphism.

Variable f : galois.Field.
Local Abbreviation o := (galois.Order f).
Hypothesis order_pos : 0 < o.

Lemma Evaluate_tab L g x :
  (0 < L)%nat ->
  Evaluate (tab o L g) x f = Ok (sumn L (fun k => g k * x ^ Z.of_nat k) mod o).
Proof.
  intros HL. rewrite (Evaluate_spec f order_pos).
  - f_equal. apply cong_unfold, epoly_tab.
  - intros E. apply (f_equal length) in E. rewrite length_tab in E. simpl in E. lia.
Qed.

Lemma Evaluate_Add_ok p q s x :
  p <> [] -> q <> [] -> Add p q f = Ok s ->
  exists a b, Evaluate p x f = Ok a /\ Evaluate q x f = Ok b /\
              Evaluate s x f = galois.Add f a b.
Proof.
  intros Hp Hq Hs.
  destruct (proj1 (Add_returns_iff f order_pos p q) (ex_intro _ s Hs)) as [H1 H2].
  rewrite (Add_spec f order_pos p q H1 H2) in Hs. injection Hs as <-.
  exists (epoly p x mod o), (epoly q x mod o).
  rewrite !(Evaluate_spec f order_pos) by assumption.
  split; [reflexivity|]. split; [reflexivity|].
  rewrite Evaluate_tab by lia. rewrite (galois_Add_pos f order_pos). f_equal.
  rewrite epoly_add by assumption. apply cong_unfold.
  rewrite !cong_mod. reflexivity.
Qed.

Lemma Evaluate_Mul_ok p q s x :
  p <> [] -> q <> [] -> Mul p q f = Ok s ->
  exists a b, Evaluate p x f = Ok a /\ Evaluate q x f = Ok b /\
              Evaluate s x f = galois.Mul f a b.
Proof.
  intros Hp Hq Hs.
  destruct (proj1 (Mul_returns_iff f order_pos p q Hp Hq) (ex_intro _ s Hs)) as [Cp Cq].
  unfold canonical in Cp, Cq.
  rewrite (Mul_spec f order_pos p q) in Hs by (right; lia). injection Hs as <-.
  exists (epoly p x mod o), (epoly q x mod o).
  rewrite !(Evaluate_spec f order_pos) by assumption.
  split; [reflexivity|]. split; [reflexivity|].
  rewrite Evaluate_tab by lia. rewrite (galois_Mul_pos f order_pos). f_equal.
  rewrite epoly_conv by lia. apply cong_unfold.
  rewrite !cong_mod. reflexivity.
Qed.

End Homomorphism.

(** ** Clone and Sub *)

Lemma Clone_loop_spec cs : forall i clone,
  (i + length cs <= length clone)%nat ->
  exists r, Clone_loop i cs clone = Ok r /\ length r = length clone /\
    forall k, coef r k =
      if decide (i <= k < i + length cs)%nat then coef cs (k - i) else coef clone k.
Proof.
  induction cs as [|c cs IH]; intros i clone Hlen; cbn [Clone_loop length] in *.
  - exists clone. split; [reflexivity|]. split; [reflexivity|].
    intros k. case_decide; [lia|reflexivity].
  - rewrite index_lt by lia. cbn [obind]. rewrite store_lt by lia. cbn [obind].
    destruct (IH (S i) (<[i := c]> clone)) as (r & E & Hl & Hc).
    { rewrite length_insert. lia. }
    exists r. split; [exact E|]. rewrite length_insert in Hl. split; [exact Hl|].
    intros k. rewrite Hc. rewrite coef_insert by lia.
    destruct (decide (k = i)) as [->|Hne].
    + rewrite decide_False by lia. rewrite decide_True by lia.
      replace (i - i)%nat with O by lia. reflexivity.
    + destruct (decide (i <= k)%nat).
      * replace (k - i)%nat with (S (k - S i)) by lia.
        repeat case_decide; try lia; reflexivity.
      * repeat case_decide; try lia; reflexivity.
Qed.

Lemma Clone_loop_panic cs : forall i clone,
  (i <= length clone < i + length cs)%nat ->
  Clone_loop i cs clone = Panic IndexOutOfRange.
Proof.
  induction cs as [|c cs IH]; intros i clone Hlen; cbn [Clone_loop length] in *; [lia|].
  destruct (decide (i < length clone)%nat).
  - rewrite index_lt by lia. cbn [obind]. rewrite store_lt by lia. cbn [obind].
    apply IH. rewrite length_insert. lia.
  - rewrite index_ge by lia. reflexivity.
Qed.

Lemma NewZeroPolynomial_Degree p :
  NewZeroPolynomial (Z.of_nat (Degree p)) = Ok (replicate (S (Degree p)) 0).
Proof.
  unfold NewZeroPolynomial. destruct (Z.ltb_spec (Z.of_nat (Degree p) + 1) 0); [lia|].
  do 2 f_equal. lia.
Qed.

(** [Clone] panics on a slice with slots beyond its degree. *)
Lemma Clone_panics p :
  (S (Degree p) < length p)%nat -> Clone p = Panic IndexOutOfRange.
Proof.
  intros H. unfold Clone. rewrite NewZeroPolynomial_Degree. cbn [obind].
  apply Clone_loop_panic. rewrite length_replicate. lia.
Qed.

(** Otherwise the clone has [Degree p + 1] slots and the coefficients of
    [p]. *)
Lemma Clone_returns p :
  (length p <= S (Degree p))%nat ->
  exists n, Clone p = Ok n /\ length n = S (Degree p) /\
            (forall k, coef n k = coef p k) /\ Degree n = Degree p.
Proof.
  intros H. unfold Clone. rewrite NewZeroPolynomial_Degree. cbn [obind].
  destruct (Clone_loop_spec p 0 (replicate (S (Degree p)) 0)) as (n & E & Hl & Hc).
  { rewrite length_replicate. lia. }
  rewrite length_replicate in Hl.
  assert (Hc' : forall k, coef n k = coef p k).
  { intros k. rewrite Hc, coef_replicate. replace (k - 0)%nat with k by lia.
    case_decide; [reflexivity|]. rewrite coef_ge by lia. reflexivity. }
  exists n. split; [exact E|]. split; [exact Hl|]. split; [exact Hc'|].
  apply Degree_unique.
  - intros Hm. rewrite Hc'. apply Degree_nonzero, Hm.
  - intros k Hk. rewrite Hc'. apply Degree_above, Hk.
Qed.

Lemma Clone_canonical p : canonical p -> Clone p = Ok p.
Proof.
  intros Cp. unfold canonical in Cp.
  destruct (Clone_returns p ltac:(lia)) as (n & E & Hl & Hc & _).
  rewrite E. f_equal. apply coef_ext; [lia|]. intros k _. apply Hc.
Qed.

Section Subtraction.

Variable f : galois.Field.
Local Abbreviation o := (galois.Order f).
Hypothesis order_pos : 0 < o.

Lemma canonical_nonempty p : canonical p -> p <> [].
Proof. unfold canonical. intros H ->. simpl in H. lia. Qed.

Lemma Degree_tab_le L g : (Degree (tab o L g) <= L - 1)%nat.
Proof. pose proof (Degree_le_length (tab o L g)) as H. rewrite length_tab in H. exact H. Qed.

(** The difference of two canonical slices of the same length. *)
Lemma Sub_spec p x :
  canonical p -> canonical x -> length x = length p ->
  Sub p x f = Ok (tab o (length p) (fun k => coef p k - coef x k)).
Proof.
  intros Cp Cx Hl. unfold canonical in Cp, Cx. unfold Sub, NewPolynomialFromCoefficients.
  assert (D1 : Degree [-1] = O) by reflexivity.
  rewrite (Mul_spec f order_pos) by (right; simpl; lia). cbn [obind].
  rewrite D1, Nat.add_0_r.
  set (nx := tab o (S (Degree x)) (conv x [-1])).
  assert (Hnx : length nx = length p) by (unfold nx; rewrite length_tab; lia).
  assert (Dnx : (Degree nx <= Degree p)%nat).
  { pose proof (Degree_le_length nx). lia. }
  assert (Hmax : (Degree p `max` Degree nx = Degree p)%nat) by lia.
  rewrite (Add_spec f order_pos) by (rewrite Hmax; lia).
  rewrite Hmax, <- Cp. f_equal. apply tab_ext. intros k Hk.
  unfold nx. rewrite coef_tab, decide_True by lia. rewrite conv_const_r.
  apply cong_unfold. rewrite cong_mod. apply cong_eq. ring.
Qed.

End Subtraction.

(** ** Long division *)

Section Division.

Variable f : galois.Field.
Local Abbreviation o := (galois.Order f).
Hypothesis order_pos : 0 < o.

Variables p d : list Z.
Local Abbreviation N := (Degree p).
Local Abbreviation D := (Degree d).
Local Abbreviation dl := (coef d (Degree d)).
Local Abbreviation inv := (Z.invmod (coef d (Degree d)) (galois.Order f)).

Hypothesis p_canonical : canonical p.
Hypothesis p_reduced : forall k, 0 <= coef p k < o.
Hypothesis d_canonical : canonical d.
Hypothesis lead_unit : Z.gcd dl o = 1.

Lemma galois_Div_unit a : galois.Div f a dl = Ok ((a * inv) mod o).
Proof.
  unfold galois.Div, galois.MultInverse, galois.bigModInverse.
  destruct (Z.eqb_spec o 0); [lia|]. rewrite Z.abs_eq by lia.
  rewrite lead_unit. cbn [Z.eqb Pos.eqb obind]. apply (bigMod_pos f order_pos).
Qed.

Lemma inv_dl : cong o (inv * dl) 1.
Proof. apply cong_intro. apply Z.invmod_coprime'. exact lead_unit. Qed.

Lemma top_nonzero X : N <> O -> (coef p N - X) mod o = 0 -> X mod o <> 0.
Proof.
  intros HN H0 HX. apply (Degree_nonzero p HN).
  rewrite <- (Z.mod_small (coef p N) o) by apply p_reduced.
  apply cong_zero_inv. replace (coef p N) with ((coef p N - X) + X) by ring.
  rewrite (cong_zero _ _ H0), (cong_zero _ _ HX). reflexivity.
Qed.

Lemma conv_zero_r q k : (forall j, coef q j = 0) -> conv d q k = 0.
Proof.
  intros Hz. rewrite conv_alt. apply sumn_zero. intros i _. rewrite Hz. ring.
Qed.

Lemma Degree_zero_all r : Degree r = O -> coef r 0 = 0 -> forall k, coef r k = 0.
Proof.
  intros Hd H0 k. destruct k as [|k]; [exact H0|]. apply Degree_above. lia.
Qed.

(** One iteration: either the [break] is taken on a zero numerator, or the
    degree of the numerator has dropped. *)
Lemma Div_body_spec q n :
  div_inv f p d q n -> (D <= Degree n)%nat ->
  exists q' n' b, Div_body p d f q n = Ok (q', n', b) /\
    (if b : bool then div_post f p d q' n'
     else div_inv f p d q' n' /\ (Degree n' < Degree n)%nat).
Proof.
  intros (Hq & Hn & I2 & I3 & I4) Hcond.
  pose proof p_canonical as Cp. pose proof d_canonical as Cd. unfold canonical in Cp, Cd.
  set (ip := Degree n) in *.
  assert (Hip : (ip <= N)%nat). { pose proof (Degree_le_length n). lia. }
  set (c := (coef n ip * inv) mod o).
  set (q' := <[(ip - D)%nat := c]> q).
  assert (Hq' : length q' = S (N - D)) by (unfold q'; rewrite length_insert; exact Hq).
  assert (Hconv : forall k, (ip <= k)%nat ->
            conv d q' k = conv d q k + c * coef d (k - (ip - D))).
  { intros k Hk. unfold q'. rewrite conv_insert_r by lia.
    rewrite (I3 (ip - D)%nat) by lia. rewrite decide_True by lia. ring. }
  assert (Hvan : forall k, (ip <= k)%nat -> (coef p k - conv d q' k) mod o = 0).
  { intros k Hk. apply cong_zero_inv. rewrite Hconv by lia.
    replace (coef p k - (conv d q k + c * coef d (k - (ip - D))))
      with ((coef p k - conv d q k) - c * coef d (k - (ip - D))) by ring.
    rewrite <- (cong_mod o (coef p k - conv d q k)). rewrite <- I2.
    destruct (decide (k = ip)) as [->|Hne].
    - replace (ip - (ip - D))%nat with D by lia. unfold c. rewrite cong_mod.
      replace (coef n ip * inv * dl) with (coef n ip * (inv * dl)) by ring.
      rewrite inv_dl. apply cong_eq. ring.
    - rewrite (Degree_above d) by lia. rewrite (Degree_above n) by (fold ip; lia).
      apply cong_eq. ring. }
  assert (Cq' : canonical q').
  { unfold canonical. rewrite Hq'. f_equal. symmetry. apply Degree_unique.
    - intros HND. unfold q'. rewrite coef_insert by lia.
      destruct (decide (ip = N)) as [E|E].
      + rewrite decide_True by lia. unfold c. intros Hc.
        assert (Hnz : coef n ip <> 0) by (apply Degree_nonzero; fold ip; lia).
        assert (Hred : coef n ip mod o = coef n ip) by (rewrite I2; apply Zmod_mod).
        apply Hnz. rewrite <- Hred. apply cong_zero_inv.
        replace (coef n ip) with (coef n ip * 1) by ring.
        rewrite <- inv_dl.
        replace (coef n ip * (inv * dl)) with (coef n ip * inv * dl) by ring.
        rewrite (cong_zero _ _ Hc). apply cong_eq. ring.
      + rewrite decide_False by lia.
        destruct I4 as [I4|I4]; [fold ip in I4; lia|].
        unfold canonical in I4. replace (N - D)%nat with (Degree q) by lia.
        apply Degree_nonzero. lia.
    - intros k Hk. apply coef_ge. lia. }
  set (dq := tab o (S N) (conv d q')).
  assert (Edq : Mul d q' f = Ok dq).
  { rewrite (Mul_spec f order_pos) by (right; unfold canonical in Cq'; lia).
    unfold dq. do 2 f_equal. unfold canonical in Cq'. lia. }
  assert (Cdq : canonical dq).
  { unfold canonical, dq. rewrite length_tab. f_equal. symmetry. apply Degree_unique.
    - intros HN. rewrite coef_tab, decide_True by lia.
      apply top_nonzero; [exact HN|]. apply Hvan. lia.
    - intros k Hk. rewrite coef_tab, decide_False by lia. reflexivity. }
  set (n' := tab o (S N) (fun k => coef p k - conv d q' k)).
  assert (En' : Sub p dq f = Ok n').
  { rewrite (Sub_spec f order_pos) by
      (try assumption; unfold dq; rewrite length_tab; lia).
    rewrite Cp. f_equal. apply tab_ext. intros k Hk.
    unfold dq. rewrite coef_tab, decide_True by lia.
    apply cong_unfold. rewrite cong_mod. reflexivity. }
  assert (Hn' : length n' = S N) by (unfold n'; apply length_tab).
  assert (I2' : forall k, coef n' k = (coef p k - conv d q' k) mod o).
  { intros k. unfold n'. rewrite coef_tab. case_decide; [reflexivity|].
    symmetry. apply Hvan. lia. }
  assert (Hvan' : forall k, (ip <= k)%nat -> coef n' k = 0).
  { intros k Hk. rewrite I2'. apply Hvan, Hk. }
  exists q', n',
    (if negb (Degree n' =? 0)%nat then false else coef n' 0 =? 0).
  split.
  - unfold Div_body. fold ip. rewrite index_lt by lia. cbn [obind].
    rewrite index_lt by lia. cbn [obind]. rewrite galois_Div_unit. cbn [obind].
    fold c. rewrite store_lt by lia. cbn [obind]. fold q'.
    rewrite Edq. cbn [obind]. rewrite En'. cbn [obind].
    destruct (negb (Degree n' =? 0)%nat); [reflexivity|].
    rewrite index_lt by lia. reflexivity.
  - destruct (Nat.eqb_spec (Degree n') 0) as [Ed|Ed]; cbn [negb].
    + destruct (Z.eqb_spec (coef n' 0) 0) as [E0|E0].
      * split; [exact Hq'|]. split; [exact Cq'|]. split; [exact Hn'|].
        split; [exact I2'|]. right. apply Degree_zero_all; assumption.
      * assert (ip <> O) by (intros E; apply E0, Hvan'; lia).
        split; [|lia]. split; [exact Hq'|]. split; [exact Hn'|]. split; [exact I2'|].
        split; [|right; exact Cq'].
        intros j Hj. unfold q'. rewrite coef_insert by lia.
        rewrite decide_False by lia. apply I3. lia.
    + assert (Hlt : (Degree n' < ip)%nat).
      { destruct (decide (Degree n' < ip)%nat); [assumption|].
        exfalso. apply (Degree_nonzero n' Ed). apply Hvan'. lia. }
      split; [|exact Hlt]. split; [exact Hq'|]. split; [exact Hn'|]. split; [exact I2'|].
      split; [|right; exact Cq'].
      intros j Hj. unfold q'. rewrite coef_insert by lia.
      rewrite decide_False by lia. apply I3. lia.
Qed.

Hypothesis deg_le : (D <= N)%nat.

Lemma Div_loop_spec : forall fuel q n,
  div_inv f p d q n -> (Degree n < fuel)%nat ->
  exists q' r, Div_loop fuel p d f q n = Some (Ok (q', r)) /\ div_post f p d q' r.
Proof.
  induction fuel as [|fuel IH]; intros q n Hinv Hfuel; [lia|].
  cbn [Div_loop].
  destruct (Nat.ltb_spec (Degree n) D) as [Hlt|Hge].
  - exists q, n. split; [reflexivity|].
    destruct Hinv as (Hq & Hn & I2 & I3 & I4).
    split; [exact Hq|]. split; [destruct I4; [lia|assumption]|].
    split; [exact Hn|]. split; [exact I2|]. left. exact Hlt.
  - destruct (Div_body_spec q n Hinv Hge) as (q' & n' & b & E & Hb).
    rewrite E. destruct b.
    + exists q', n'. split; [reflexivity|exact Hb].
    + destruct Hb as [Hinv' Hdec]. apply IH; [exact Hinv'|lia].
Qed.

(** With more fuel than the degree of the dividend, [Div] returns. *)
Lemma Div_spec fuel :
  (N < fuel)%nat ->
  exists q r, Div fuel p d f = Some (Ok (q, r)) /\ div_post f p d q r.
Proof.
  intros Hfuel. unfold Div. rewrite (Clone_canonical p p_canonical).
  replace (Z.of_nat N - Z.of_nat D) with (Z.of_nat (N - D)) by lia.
  rewrite NewZeroPolynomial_nat.
  apply Div_loop_spec; [|exact Hfuel].
  pose proof p_canonical as Cp. unfold canonical in Cp.
  split; [apply length_replicate|]. split; [exact Cp|]. split.
  - intros k. rewrite conv_zero_r by (intros; apply coef_replicate).
    rewrite Z.sub_0_r. symmetry. apply Z.mod_small, p_reduced.
  - split; [|left; reflexivity]. intros j _. apply coef_replicate.
Qed.

(** Quotient times divisor plus remainder gives back the dividend, slot by
    slot. *)
Lemma div_post_recompose q r :
  div_post f p d q r ->
  exists qd, Mul q d f = Ok qd /\ Add qd r f = Ok p.
Proof.
  intros (Hq & Cq & Hr & I2 & Hsmall).
  pose proof p_canonical as Cp. pose proof d_canonical as Cd.
  unfold canonical in Cp, Cd, Cq.
  assert (HDq : (Degree q + D = N)%nat) by lia.
  assert (HrN : N <> O -> coef r N = 0).
  { intros HN. destruct Hsmall as [Hs|Hs]; [apply Degree_above; lia|apply Hs]. }
  set (qd := tab o (S N) (conv q d)).
  assert (Eqd : Mul q d f = Ok qd).
  { rewrite (Mul_spec f order_pos) by (right; lia). unfold qd. rewrite HDq. reflexivity. }
  assert (Dqd : Degree qd = N).
  { apply Degree_unique.
    - intros HN. unfold qd. rewrite coef_tab, decide_True by lia.
      apply top_nonzero; [exact HN|]. rewrite conv_comm, <- I2. apply HrN, HN.
    - intros k Hk. unfold qd. rewrite coef_tab, decide_False by lia. reflexivity. }
  exists qd. split; [exact Eqd|].
  assert (Hlqd : length qd = S N) by (unfold qd; apply length_tab).
  assert (Dr : (Degree r <= N)%nat) by (pose proof (Degree_le_length r); lia).
  assert (Hmax : (Degree qd `max` Degree r = N)%nat) by lia.
  rewrite (Add_spec f order_pos) by (rewrite Hmax; lia).
  rewrite Hmax. f_equal. apply coef_ext; [rewrite length_tab; lia|].
  intros k Hk. rewrite length_tab in Hk. rewrite coef_tab, decide_True by lia.
  rewrite <- (Z.mod_small (coef p k) o) by apply p_reduced.
  apply cong_unfold. unfold qd. rewrite coef_tab, decide_True by lia.
  rewrite I2, !cong_mod. rewrite (conv_comm q d). apply cong_eq. ring.
Qed.

End Division.

(** ** Field elements and the zero polynomial *)

Lemma reduced_coef f p : 0 < galois.Order f -> reduced f p ->
  forall k, 0 <= coef p k < galois.Order f.
Proof.
  intros Ho Hr k. destruct (decide (k < length p)%nat) as [Hk|Hk].
  - apply (proj1 (Forall_lookup _ p) Hr k). apply lookup_coef, Hk.
  - rewrite coef_ge by lia. lia.
Qed.

Lemma zero_poly_coef p : zero_poly p <-> forall k, coef p k = 0.
Proof.
  split.
  - intros Hz k. destruct (decide (k < length p)%nat) as [Hk|Hk].
    + apply (proj1 (Forall_lookup _ p) Hz k). apply lookup_coef, Hk.
    + apply coef_ge. lia.
  - intros Hc. apply Forall_lookup. intros k c Hk.
    rewrite <- (coef_lookup p k c Hk). apply Hc.
Qed.

Lemma zero_poly_Degree p : zero_poly p -> Degree p = O.
Proof.
  intros Hz. apply Degree_unique; [congruence|].
  intros k _. apply zero_poly_coef, Hz.
Qed.

(** ** Evaluation on encoded powers *)

Section EncodedPowers.

Variable f : galois.Field.
Local Abbreviation o := (galois.Order f).
Hypothesis order_pos : 0 < o.

Context {G : Type} `{GroupElement G}.
Hypothesis laws : GroupLaws f G.

Lemma ComputePowers_loop_spec x : forall k prev,
  exists xs, ComputePowers_loop f x prev k = Ok xs /\ length xs = k /\
    forall j, (j < k)%nat -> cong o (coef xs j) (prev * x ^ Z.of_nat (S j)).
Proof.
  induction k as [|k IH]; intros prev; cbn [ComputePowers_loop].
  - exists []. split; [reflexivity|]. split; [reflexivity|]. intros j Hj. lia.
  - rewrite (galois_Mul_pos f order_pos). cbn [obind].
    destruct (IH ((prev * x) mod o)) as (xs & E & Hl & Hc).
    rewrite E. cbn [obind]. exists ((prev * x) mod o :: xs).
    split; [reflexivity|]. split; [simpl; lia|].
    intros [|j] Hj.
    + rewrite coef_cons_0, cong_mod. apply cong_eq.
      change (Z.of_nat 1) with 1. ring.
    + rewrite coef_cons_S, Hc by lia. rewrite cong_mod. apply cong_eq.
      rewrite (Nat2Z.inj_succ (S j)), Z.pow_succ_r by lia. ring.
Qed.

Lemma ComputePowers_spec x (n : nat) :
  exists xs, ComputePowers x (Z.of_nat n) f = Ok xs /\ length xs = n /\
    forall j, (j < n)%nat -> cong o (coef xs j) (x ^ Z.of_nat j).
Proof.
  unfold ComputePowers. destruct (Z.ltb_spec (Z.of_nat n) 0); [lia|].
  destruct (Z.eqb_spec (Z.of_nat n) 0) as [E0|E0].
  - exists []. split; [reflexivity|]. split; [simpl; lia|]. intros j Hj. lia.
  - destruct (ComputePowers_loop_spec x (Z.to_nat (Z.of_nat n) - 1) 1) as (xs & E & Hl & Hc).
    rewrite E. cbn [obind]. exists (1 :: xs).
    split; [reflexivity|]. split; [simpl; lia|].
    intros [|j] Hj.
    + rewrite coef_cons_0. apply cong_eq. reflexivity.
    + rewrite coef_cons_S, Hc by lia. apply cong_eq. ring.
Qed.

Lemma EvaluateOnPowers_loop_spec p : forall xs i acc,
  (i + length xs <= length p)%nat ->
  EvaluateOnPowers_loop p i (gScalarBaseMult <$> xs) (gScalarBaseMult acc)
  = Ok (gScalarBaseMult
          (acc + sumn (length xs) (fun j => coef xs j * coef p (i + j)))).
Proof.
  induction xs as [|x xs IH]; intros i acc Hlen; cbn [fmap list_fmap length] in *.
  - cbn [EvaluateOnPowers_loop sumn]. rewrite Z.add_0_r. reflexivity.
  - cbn [EvaluateOnPowers_loop]. rewrite index_lt by lia. cbn [obind].
    rewrite (law_scalar f G laws), (law_add f G laws).
    change (list_fmap Z G gScalarBaseMult xs) with (gScalarBaseMult <$> xs).
    rewrite IH by lia. do 2 f_equal.
    rewrite (sumn_shift1 (length xs)). rewrite coef_cons_0, Nat.add_0_r.
    rewrite <- Z.add_assoc. do 2 f_equal.
    apply sumn_ext. intros j _. rewrite coef_cons_S. do 2 f_equal. lia.
Qed.

Lemma EvaluateOnPowers_spec p x :
  p <> [] ->
  exists xs v,
    ComputePowers x (Z.of_nat (length p)) f = Ok xs /\
    Evaluate p x f = Ok v /\
    EvaluateOnPowers p (gScalarBaseMult <$> xs) = Ok (gScalarBaseMult v).
Proof.
  intros Hp. destruct (ComputePowers_spec x (length p)) as (xs & E & Hl & Hc).
  exists xs, (epoly p x mod o). split; [exact E|].
  split; [apply (Evaluate_spec f order_pos), Hp|].
  unfold EvaluateOnPowers. rewrite length_fmap, Hl, Nat.eqb_refl. cbn [negb].
  rewrite EvaluateOnPowers_loop_spec by lia.
  rewrite Z.add_0_l, <- (law_order f G laws).
  assert (Hsum : sumn (length xs) (fun j => coef xs j * coef p (0 + j)) mod o
                 = epoly p x mod o).
  { apply cong_unfold. unfold epoly. rewrite Hl. apply sumn_cong. intros j Hj.
    rewrite Hc by lia. apply cong_eq. cbn [Nat.add]. ring. }
  rewrite Hsum. reflexivity.
Qed.

End EncodedPowers.

(** ** The quotient by a linear factor *)

Lemma Eq_zero_true (r : list Z) :
  r <> [] -> Degree r = O -> coef r 0 = 0 -> Eq r ZeroPolynomial = Ok true.
Proof.
  intros Hne Hd H0. unfold Eq. rewrite Hd.
  change (Degree ZeroPolynomial) with O. cbn [Nat.eqb negb Eq_loop].
  rewrite index_lt by (apply nonempty_length, Hne). cbn [obind].
  rewrite H0. reflexivity.
Qed.

Lemma Eq_zero_false (r : list Z) :
  r <> [] -> Degree r <> O \/ coef r 0 <> 0 -> Eq r ZeroPolynomial = Ok false.
Proof.
  intros Hne Hnz. unfold Eq. change (Degree ZeroPolynomial) with O.
  destruct (Nat.eqb_spec (Degree r) 0) as [Hd|Hd]; [|reflexivity].
  cbn [negb Eq_loop]. rewrite index_lt by (apply nonempty_length, Hne). cbn [obind].
  change (index ZeroPolynomial 0) with (Ok (A := Z) 0). cbn [obind].
  destruct (Z.eqb_spec (coef r 0) 0) as [E|E]; [|reflexivity].
  destruct Hnz; contradiction.
Qed.

Section LinearFactor.

Variable f : galois.Field.
Local Abbreviation o := (galois.Order f).
Hypothesis order_pos : 0 < o.

Variable p : list Z.
Variable z : Z.
Local Abbreviation N := (Degree p).
Local Abbreviation y := (epoly p z mod galois.Order f).
Local Abbreviation d := [- z; 1].

Local Abbreviation shifted := (shifted_poly f p z).

Hypothesis p_canonical : canonical p.
Hypothesis p_reduced : forall k, 0 <= coef p k < o.

Lemma Add_shift : Add p (NewPolynomial [- y]) f = Ok shifted.
Proof.
  pose proof p_canonical as Cp. unfold canonical in Cp. unfold NewPolynomial.
  assert (Hmax : (Degree p `max` Degree [- y] = N)%nat).
  { pose proof (Degree_le_length [- y]) as Hd. simpl in Hd. lia. }
  rewrite (Add_spec f order_pos) by (rewrite Hmax; simpl; lia).
  rewrite Hmax. reflexivity.
Qed.

Lemma shifted_length : length shifted = S N.
Proof. apply length_tab. Qed.

Lemma shifted_canonical : canonical shifted.
Proof.
  unfold canonical. rewrite shifted_length. f_equal. symmetry. apply Degree_unique.
  - intros HN. unfold shifted_poly. rewrite coef_tab, decide_True by lia.
    rewrite (coef_ge [- y]) by (simpl; lia). rewrite Z.add_0_r.
    rewrite Z.mod_small by apply p_reduced. apply Degree_nonzero, HN.
  - intros k Hk. unfold shifted_poly. rewrite coef_tab, decide_False by lia. reflexivity.
Qed.

Lemma shifted_reduced k : 0 <= coef shifted k < o.
Proof.
  unfold shifted_poly. rewrite coef_tab. case_decide; [|lia].
  apply Z.mod_pos_bound, order_pos.
Qed.

Lemma shifted_root : cong o (epoly shifted z) 0.
Proof.
  unfold shifted_poly. rewrite epoly_tab.
  pose proof p_canonical as Cp. unfold canonical in Cp.
  rewrite epoly_add by (simpl; lia).
  unfold epoly at 2. cbn [length sumn]. rewrite coef_cons_0.
  change (Z.of_nat 0) with 0. rewrite Z.pow_0_r.
  replace (epoly p z + (0 + - y * 1)) with (epoly p z - y) by ring.
  rewrite cong_mod. apply cong_eq. ring.
Qed.

Lemma linear_root : epoly d z = 0.
Proof.
  unfold epoly. cbn [length sumn]. rewrite coef_cons_0, coef_cons_S, coef_cons_0.
  change (Z.of_nat 0) with 0. change (Z.of_nat 1) with 1.
  rewrite Z.pow_0_r, Z.pow_1_r. ring.
Qed.

(** A remainder of degree 0 of the division of [p - y] by [v - z] is
    zero: evaluate both sides at [z]. *)
Lemma remainder_vanishes q r :
  (length q <= N)%nat -> length r = S N ->
  (forall k, coef r k = (coef shifted k - conv d q k) mod o) ->
  Degree r = O -> coef r 0 = 0.
Proof.
  intros Hq Hr I2 Hd.
  assert (Hred : coef r 0 mod o = coef r 0) by (rewrite I2; apply Zmod_mod).
  rewrite <- Hred. apply cong_zero_inv.
  assert (Er : epoly r z = coef r 0).
  { unfold epoly. rewrite Hr, sumn_shift1.
    rewrite sumn_zero; [change (Z.of_nat 0) with 0; rewrite Z.pow_0_r; ring|].
    intros i _. rewrite (Degree_above r) by lia. ring. }
  rewrite <- Er. unfold epoly. rewrite Hr.
  transitivity (sumn (S N) (fun k => coef shifted k * z ^ Z.of_nat k)
                - sumn (S N) (fun k => conv d q k * z ^ Z.of_nat k)).
  { rewrite <- (Z.add_opp_r (sumn _ _)), <- (Z.mul_1_l (sumn (S N)
       (fun k => conv d q k * z ^ Z.of_nat k))), <- Z.mul_opp_l, <- sumn_scal, <- sumn_add.
    apply sumn_cong. intros k _. rewrite I2, cong_mod. apply cong_eq. ring. }
  rewrite epoly_conv by (simpl; lia). rewrite linear_root.
  replace (sumn (S N) (fun k => coef shifted k * z ^ Z.of_nat k))
    with (epoly shifted z) by (unfold epoly; rewrite shifted_length; reflexivity).
  rewrite shifted_root. apply cong_eq. ring.
Qed.

(** With [y] the value of [p] at [z], the division is exact and
    [getQuotient] returns the quotient. *)
Lemma getQuotient_spec fuel :
  (N < fuel)%nat -> exists q, kzg.getQuotient fuel p z y f = Some (Ok q).
Proof.
  intros Hfuel. unfold kzg.getQuotient. rewrite Add_shift.
  assert (Cd : canonical d) by reflexivity.
  assert (Dd : Degree d = 1%nat) by reflexivity.
  assert (Hdone : forall q r,
    Div fuel shifted (NewPolynomial d) f = Some (Ok (q, r)) ->
    (length q <= N)%nat -> length r = S N ->
    (forall k, coef r k = (coef shifted k - conv d q k) mod o) ->
    Degree r = O ->
    exists q', match Div fuel shifted (NewPolynomial d) f with
               | Some (Ok (q0, r0)) =>
                   Some (let* isZero := Eq r0 ZeroPolynomial in
                         if negb isZero then Err (ErrRestNotZero r0) else Ok q0)
               | Some (Err e) => Some (Err e)
               | Some (Panic x) => Some (Panic x)
               | None => None
               end = Some (Ok q')).
  { intros q r E Hq Hr I2 Hd. rewrite E. exists q.
    rewrite Eq_zero_true; [reflexivity| |exact Hd|].
    - intros ->. simpl in Hr. lia.
    - apply (remainder_vanishes q r Hq Hr I2 Hd). }
  pose proof shifted_canonical as Cs. pose proof Cs as Cs'. unfold canonical in Cs'.
  rewrite shifted_length in Cs'. injection Cs' as Cs'.
  destruct (decide (N = O)) as [HN|HN].
  - apply (Hdone [] shifted).
    + unfold Div, NewPolynomial. rewrite (Clone_canonical _ Cs), Dd, <- Cs', HN.
      change (NewZeroPolynomial (Z.of_nat 0 - Z.of_nat 1)) with (Ok (A := list Z) []).
      destruct fuel as [|fuel]; cbn [Div_loop]; rewrite Dd, <- Cs', HN; reflexivity.
    + simpl. lia.
    + apply shifted_length.
    + intros k. rewrite (conv_comm d []), conv_nil_l, Z.sub_0_r.
      symmetry. apply Z.mod_small, shifted_reduced.
    + lia.
  - destruct (Div_spec f order_pos shifted d Cs shifted_reduced Cd) with (fuel := fuel)
      as (q & r & E & Hpost).
    + rewrite Dd. apply Z.gcd_1_l.
    + rewrite Dd. lia.
    + lia.
    + destruct Hpost as (Hq & _ & Hr & I2 & Hsmall). rewrite Dd, <- Cs' in *.
      apply (Hdone q r E); [lia|exact Hr|exact I2|].
      destruct Hsmall as [Hs|Hs]; [lia|].
      assert (Degree r <= 0)%nat by (apply Degree_le; intros k _; apply Hs). lia.
Qed.

End LinearFactor.

(** ** Which calls can hand an error to the caller *)

Lemma no_err_Ok {A} (a : A) : no_err (Ok a).
Proof. intros e. discriminate. Qed.

Lemma no_err_Panic {A} x : no_err (Panic (A := A) x).
Proof. intros e. discriminate. Qed.

Lemma no_err_bind {A B} (m : outcome A) (k : A -> outcome B) :
  no_err m -> (forall a, no_err (k a)) -> no_err (obind m k).
Proof.
  intros Hm Hk e. destruct m as [a|e'|x]; cbn [obind].
  - apply Hk.
  - exfalso. apply (Hm e'). reflexivity.
  - discriminate.
Qed.

Lemma no_err_index {A} (l : list A) i : no_err (index l i).
Proof. unfold index. destruct (l !! i); [apply no_err_Ok|apply no_err_Panic]. Qed.

Lemma no_err_store {A} (l : list A) i v : no_err (store l i v).
Proof. unfold store. case_bool_decide; [apply no_err_Ok|apply no_err_Panic]. Qed.

Lemma no_err_bigMod x m : no_err (galois.bigMod x m).
Proof. unfold galois.bigMod. destruct (m =? 0); [apply no_err_Panic|apply no_err_Ok]. Qed.

Lemma no_err_galois_Div f x y : no_err (galois.Div f x y).
Proof.
  unfold galois.Div, galois.MultInverse, galois.bigModInverse.
  destruct (galois.Order f =? 0) eqn:E; [apply no_err_Panic|].
  destruct (Z.gcd y (Z.abs (galois.Order f)) =? 1); cbn [obind].
  - apply no_err_bigMod.
  - apply no_err_Panic.
Qed.

Lemma no_err_NewZeroPolynomial n : no_err (NewZeroPolynomial n).
Proof.
  unfold NewZeroPolynomial. destruct (n + 1 <? 0); [apply no_err_Panic|apply no_err_Ok].
Qed.

Create HintDb noerr.
#[local] Hint Resolve no_err_Ok no_err_Panic no_err_index no_err_store no_err_bigMod
  no_err_galois_Div no_err_NewZeroPolynomial : noerr.

Ltac noerr :=
  repeat first
    [ solve [auto with noerr]
    | apply no_err_bind; [|intros ?] ].

Lemma no_err_Add_loop f vs : forall i r, no_err (Add_loop f i vs r).
Proof.
  induction vs as [|v vs IH]; intros i r; cbn [Add_loop]; [noerr|].
  unfold galois.Add. noerr. all: apply IH.
Qed.

Lemma no_err_Add p x f : no_err (Add p x f).
Proof.
  unfold Add. apply no_err_bind.
  - destruct (Degree x <? Degree p)%nat; noerr.
  - intros r. apply no_err_bind; [apply no_err_Add_loop|intros r1; apply no_err_Add_loop].
Qed.

Lemma no_err_Mul_inner f a i m : forall j prod, no_err (Mul_inner f a i j m prod).
Proof.
  induction m as [|b m IH]; intros j prod; cbn [Mul_inner]; [noerr|].
  unfold galois.Add, galois.Mul. noerr. all: apply IH.
Qed.

Lemma no_err_Mul_outer f m p : forall i prod, no_err (Mul_outer f i p m prod).
Proof.
  induction p as [|a p IH]; intros i prod; cbn [Mul_outer]; [noerr|].
  apply no_err_bind; [apply no_err_Mul_inner|intros; apply IH].
Qed.

Lemma no_err_Mul p m f : no_err (Mul p m f).
Proof. unfold Mul. apply no_err_bind; [noerr|intros; apply no_err_Mul_outer]. Qed.

Lemma no_err_Sub p x f : no_err (Sub p x f).
Proof. unfold Sub. apply no_err_bind; [apply no_err_Mul|intros; apply no_err_Add]. Qed.

Lemma no_err_Clone_loop cs : forall i clone, no_err (Clone_loop i cs clone).
Proof.
  induction cs as [|c cs IH]; intros i clone; cbn [Clone_loop]; [noerr|].
  noerr. all: apply IH.
Qed.

Lemma no_err_Clone p : no_err (Clone p).
Proof. unfold Clone. apply no_err_bind; [noerr|intros; apply no_err_Clone_loop]. Qed.

#[local] Hint Resolve no_err_Add no_err_Mul no_err_Sub no_err_Clone : noerr.

Lemma no_err_Div_body p d f q n : no_err (Div_body p d f q n).
Proof.
  unfold Div_body. noerr.
  match goal with |- no_err (if ?b then _ else _) => destruct b end; noerr.
Qed.

Lemma no_err_Div_loop p d f : forall fuel q n e,
  Div_loop fuel p d f q n <> Some (Err e).
Proof.
  induction fuel as [|fuel IH]; intros q n e; cbn [Div_loop];
    destruct (Degree n <? Degree d)%nat; try discriminate.
  destruct (Div_body p d f q n) as [[[q' n'] [|]]|e'|x] eqn:E; try discriminate.
  - apply IH.
  - exfalso. apply (no_err_Div_body p d f q n e'). exact E.
Qed.

Lemma no_err_Div fuel p d f e : Div fuel p d f <> Some (Err e).
Proof.
  unfold Div. destruct (Clone p) as [n|e'|x] eqn:E; try discriminate.
  - destruct (NewZeroPolynomial _) as [q|e'|x] eqn:E'; try discriminate.
    + apply no_err_Div_loop.
    + exfalso. apply (no_err_NewZeroPolynomial _ e' E').
  - exfalso. apply (no_err_Clone p e' E).
Qed.

(** ** The remainder handed back by [Div] is never the empty slice *)

Lemma Add_loop_length f vs : forall i r r',
  Add_loop f i vs r = Ok r' -> length r' = length r.
Proof.
  induction vs as [|v vs IH]; intros i r r' H; cbn [Add_loop] in H.
  - injection H as <-. reflexivity.
  - destruct (index r i) as [c| |]; cbn [obind] in H; try discriminate.
    destruct (galois.Add f c v) as [s| |]; cbn [obind] in H; try discriminate.
    unfold store in H. case_bool_decide; cbn [obind] in H; try discriminate.
    apply IH in H. rewrite length_insert in H. exact H.
Qed.

Lemma Add_nonempty p x f s : Add p x f = Ok s -> s <> [].
Proof.
  unfold Add. rewrite Add_alloc. cbn [obind].
  destruct (Add_loop f 0 p _) as [r1| |] eqn:E1; cbn [obind]; try discriminate.
  intros E2. apply Add_loop_length in E1, E2. rewrite length_replicate in E1.
  intros ->. simpl in E2. lia.
Qed.

Lemma Sub_nonempty p x f s : Sub p x f = Ok s -> s <> [].
Proof.
  unfold Sub. destruct (Mul x _ f) as [nx| |]; cbn [obind]; try discriminate.
  apply Add_nonempty.
Qed.

Lemma Clone_loop_length cs : forall i clone r,
  Clone_loop i cs clone = Ok r -> length r = length clone.
Proof.
  induction cs as [|c cs IH]; intros i clone r H; cbn [Clone_loop] in H.
  - injection H as <-. reflexivity.
  - destruct (index clone i) as [c0| |]; cbn [obind] in H; try discriminate.
    unfold store in H. case_bool_decide; cbn [obind] in H; try discriminate.
    apply IH in H. rewrite length_insert in H. exact H.
Qed.

Lemma Clone_nonempty p n : Clone p = Ok n -> n <> [].
Proof.
  unfold Clone. rewrite NewZeroPolynomial_Degree. cbn [obind]. intros H.
  apply Clone_loop_length in H. rewrite length_replicate in H.
  intros ->. simpl in H. lia.
Qed.

Lemma Div_body_nonempty p d f q n q' n' b :
  Div_body p d f q n = Ok (q', n', b) -> n' <> [].
Proof.
  unfold Div_body.
  destruct (index n _) as [nc| |]; cbn [obind]; try discriminate.
  destruct (index d _) as [dc| |]; cbn [obind]; try discriminate.
  destruct (galois.Div f nc dc) as [c| |]; cbn [obind]; try discriminate.
  destruct (store q _ c) as [q1| |]; cbn [obind]; try discriminate.
  destruct (Mul d q1 f) as [dq| |]; cbn [obind]; try discriminate.
  destruct (Sub p dq f) as [n1| |] eqn:E; cbn [obind]; try discriminate.
  apply Sub_nonempty in E.
  destruct (negb (Degree n1 =? 0)%nat).
  - intros H. injection H as _ <- _. exact E.
  - destruct (index n1 0) as [n0| |]; cbn [obind]; try discriminate.
    intros H. injection H as _ <- _. exact E.
Qed.

Lemma Div_loop_nonempty p d f : forall fuel q n q' r,
  n <> [] -> Div_loop fuel p d f q n = Some (Ok (q', r)) -> r <> [].
Proof.
  induction fuel as [|fuel IH]; intros q n q' r Hn; cbn [Div_loop];
    destruct (Degree n <? Degree d)%nat; try discriminate;
    try (intros H; injection H as _ <-; exact Hn).
  destruct (Div_body p d f q n) as [[[q1 n1] [|]]| |] eqn:E; try discriminate.
  - intros H. injection H as _ <-. apply (Div_body_nonempty _ _ _ _ _ _ _ _ E).
  - apply IH. apply (Div_body_nonempty _ _ _ _ _ _ _ _ E).
Qed.

Lemma Div_nonempty fuel p d f q r : Div fuel p d f = Some (Ok (q, r)) -> r <> [].
Proof.
  unfold Div. destruct (Clone p) as [n| |] eqn:E; try discriminate.
  destruct (NewZeroPolynomial _) as [q0| |]; try discriminate.
  apply Div_loop_nonempty. apply (Clone_nonempty p n E).
Qed.

Lemma no_err_Eq_loop p x : forall n i, no_err (Eq_loop p x i n).
Proof.
  induction n as [|n IH]; intros i; cbn [Eq_loop]; [apply no_err_Ok|].
  apply no_err_bind; [apply no_err_index|intros a].
  apply no_err_bind; [apply no_err_index|intros b].
  destruct (negb (a =? b)); [apply no_err_Ok|apply IH].
Qed.

Lemma no_err_Eq p x : no_err (Eq p x).
Proof.
  unfold Eq. destruct (negb _); [apply no_err_Ok|apply no_err_Eq_loop].
Qed.

Lemma zero_poly_iff_Eq (r : list Z) :
  r <> [] -> (zero_poly r <-> Eq r ZeroPolynomial = Ok true).
Proof.
  intros Hne. split.
  - intros Hz. apply Eq_zero_true; [exact Hne|apply zero_poly_Degree, Hz|].
    apply zero_poly_coef, Hz.
  - intros HE. destruct (decide (Degree r = O)) as [Hd|Hd].
    + destruct (decide (coef r 0 = 0)) as [H0|H0].
      * apply zero_poly_coef. apply Degree_zero_all; assumption.
      * rewrite Eq_zero_false in HE by (try assumption; right; exact H0). discriminate.
    + rewrite Eq_zero_false in HE by (try assumption; left; exact Hd). discriminate.
Qed.

(** [getQuotient] hands an error to its caller exactly when the division
    returned a remainder that is not the zero polynomial. *)
Lemma getQuotient_error_iff fuel p x y f e :
  kzg.getQuotient fuel p x y f = Some (Err e) <->
  exists py q r,
    Add p (NewPolynomial [- y]) f = Ok py /\
    Div fuel py (NewPolynomial [- x; 1]) f = Some (Ok (q, r)) /\
    ~ zero_poly r /\ e = ErrRestNotZero r.
Proof.
  unfold kzg.getQuotient. split.
  - destruct (Add p _ f) as [py|e'|x'] eqn:EA; try discriminate.
    + destruct (Div fuel py _ f) as [[[q r]|e'|x']|] eqn:ED; try discriminate.
      * pose proof (Div_nonempty _ _ _ _ _ _ ED) as Hne.
        destruct (Eq r ZeroPolynomial) as [[|]| |] eqn:EE; cbn [obind negb];
          intros H; try discriminate.
        -- injection H as <-. exists py, q, r. repeat split; try assumption.
           intros Hz. apply (zero_poly_iff_Eq r Hne) in Hz. congruence.
        -- exfalso. apply (no_err_Eq r ZeroPolynomial _ EE).
      * intros H. exfalso. exact (no_err_Div _ _ _ _ _ ED).
    + intros _. exfalso. exact (no_err_Add _ _ _ _ EA).
  - intros (py & q & r & EA & ED & Hnz & ->). rewrite EA, ED.
    pose proof (Div_nonempty _ _ _ _ _ _ ED) as Hne.
    rewrite Eq_zero_false; [reflexivity|exact Hne|].
    destruct (decide (Degree r = O)) as [Hd|Hd]; [|left; exact Hd].
    right. intros H0. apply Hnz. apply zero_poly_coef.
    apply Degree_zero_all; assumption.
Qed.

(** * The claims *)

(** C1, as stated, fails for the zero divisor: the zero polynomial [[0]]
    has degree 0, which is at most the degree of any dividend, and [Div]
    then dereferences the missing inverse of 0 instead of returning a
    quotient and a remainder. *)
Lemma Div_by_zero_polynomial_does_not_return :
  Nat.le (Degree [0]) (Degree [1]) /\
  ~ exists fuel q r, Div fuel [1] [0] f7 = Some (Ok (q, r)).
Proof.
  split; [reflexivity|]. intros (fuel & q & r & H).
  destruct fuel as [|fuel]; vm_compute in H; discriminate.
Qed.

(** C1 (amended).  Over a field of positive order, for a dividend [p] and a
    divisor [d] that are both stored without slots beyond their degree, [p]
    holding field elements, the leading coefficient of [d] invertible modulo
    the order, and [Degree d <= Degree p]: [Div] returns a pair [(q, r)]
    (any fuel above [Degree p] is enough) such that [Add (Mul q d) r] is [p],
    and either [Degree r < Degree d] or [r] is the zero polynomial. *)
Theorem Div_quotient_remainder (f : galois.Field) (p d : list Z) (fuel : nat) :
  0 < galois.Order f ->
  canonical p -> reduced f p ->
  canonical d -> Z.gcd (coef d (Degree d)) (galois.Order f) = 1 ->
  (Degree d <= Degree p)%nat ->
  (Degree p < fuel)%nat ->
  exists q r qd,
    Div fuel p d f = Some (Ok (q, r)) /\
    Mul q d f = Ok qd /\ Add qd r f = Ok p /\
    ((Degree r < Degree d)%nat \/ zero_poly r).
Proof.
  intros Ho Cp Rp Cd Hu Hle Hfuel.
  pose proof (reduced_coef f p Ho Rp) as Rp'.
  destruct (Div_spec f Ho p d Cp Rp' Cd Hu Hle fuel Hfuel) as (q & r & E & Hpost).
  destruct (div_post_recompose f Ho p d Cp Rp' Cd Hle q r Hpost) as (qd & Eqd & Eadd).
  exists q, r, qd. split; [exact E|]. split; [exact Eqd|]. split; [exact Eadd|].
  destruct Hpost as (_ & _ & _ & _ & [Hs|Hs]); [left; exact Hs|].
  right. apply zero_poly_coef, Hs.
Qed.

Lemma Div_quotient_remainder_witness :
  exists q r qd,
    Div 3 [6; 4; 5] [1; 2] f7 = Some (Ok (q, r)) /\
    Mul q [1; 2] f7 = Ok qd /\ Add qd r f7 = Ok [6; 4; 5] /\
    (Nat.lt (Degree r) (Degree [1; 2]) \/ zero_poly r).
Proof.
  apply Div_quotient_remainder.
  - reflexivity.
  - reflexivity.
  - repeat constructor; simpl; lia.
  - reflexivity.
  - reflexivity.
  - vm_compute. lia.
  - vm_compute. lia.
Defined.

(** C2: failing input.  [[1; 0]] is the constant polynomial 1 stored with
    one zero slot beyond its degree; its value at 0 is 1.  The division of
    [p - 1] by [v - 0] is exact, but [getQuotient] never reaches it: the
    [Add] that forms [p - y] allocates one slot and then writes a slot for
    each of the two stored coefficients.  The call panics, whatever the
    fuel; it neither succeeds nor returns an error. *)
Theorem getQuotient_panics_on_trailing_zero :
  Evaluate [1; 0] 0 f7 = Ok 1 /\
  forall fuel, kzg.getQuotient fuel [1; 0] 0 1 f7 = Some (Panic IndexOutOfRange).
Proof. split; [reflexivity|]. intros fuel. reflexivity. Qed.

(** On a polynomial that holds field elements and has no slot beyond its
    degree, [getQuotient] at the value [y = Evaluate p z] returns the
    quotient: the division by [v - z] is exact. *)
Lemma getQuotient_exact (f : galois.Field) (p : list Z) (z : Z) (fuel : nat) :
  0 < galois.Order f -> canonical p -> reduced f p -> (Degree p < fuel)%nat ->
  exists y q, Evaluate p z f = Ok y /\ kzg.getQuotient fuel p z y f = Some (Ok q).
Proof.
  intros Ho Cp Rp Hfuel.
  destruct (getQuotient_spec f Ho p z Cp (reduced_coef f p Ho Rp) fuel Hfuel) as [q Hq].
  exists (epoly p z mod galois.Order f), q. split; [|exact Hq].
  apply (Evaluate_spec f Ho). apply canonical_nonempty, Cp.
Qed.

(** When [n] divides [order - 1], [RootOfUnity] returns 1 before it draws
    anything, whatever [primitive] is. *)
Lemma RootOfUnity_divides (f : galois.Field) (r : galois.Reader) (n : Z)
    (primitive : bool) :
  0 < n -> n mod 2 = 0 -> (galois.Order f - 1) mod n = 0 ->
  galois.RootOfUnity f r n primitive = Ok (Some 1, r).
Proof.
  intros Hn Heven Hdiv. unfold galois.RootOfUnity.
  rewrite Heven. cbn [Z.eqb].
  destruct (Z.eqb_spec n 0); [lia|]. rewrite Hdiv. reflexivity.
Qed.

(** When [n] does not divide [order - 1] and no primitive root is asked
    for, the first draw [x] is raised to the rounded-down quotient. *)
Lemma RootOfUnity_not_divides (f : galois.Field) (r : galois.Reader) (n x : Z) :
  0 < galois.Order f -> 0 < n -> n mod 2 = 0 -> (galois.Order f - 1) mod n <> 0 ->
  galois.RootOfUnity f (Some x :: r) n false
  = Ok (Some (x ^ ((galois.Order f - 1) / n) mod galois.Order f), r).
Proof.
  intros Ho Hn Heven Hndiv. unfold galois.RootOfUnity.
  rewrite Heven. cbn [Z.eqb].
  destruct (Z.eqb_spec n 0); [lia|].
  destruct (Z.eqb_spec ((galois.Order f - 1) mod n) 0); [contradiction|].
  cbn [galois.RootOfUnity_loop]. unfold galois.Random.
  destruct (Z.leb_spec (galois.Order f) 0); [lia|]. cbn [obind fst negb].
  unfold galois.Exp, galois.bigExp.
  destruct (Z.eqb_spec (galois.Order f) 0); [lia|].
  assert (0 <= (galois.Order f - 1) / n) by (apply Z.div_pos; lia).
  destruct (Z.ltb_spec ((galois.Order f - 1) / n) 0); [lia|].
  rewrite Z.abs_eq by lia. reflexivity.
Qed.

(** C3: failing inputs.  In the field of order 7, [n = 2] divides
    [order - 1 = 6]: a primitive square root is asked for and 1 is returned
    without a draw.  [n = 4] does not divide 6: instead of returning 1 the
    code draws [x = 3] and returns [x^(6/4) = 3], whose fourth power is 4
    modulo 7. *)
Theorem RootOfUnity_divisibility_test_inverted :
  (7 - 1) mod 2 = 0 /\
  galois.RootOfUnity f7 [Some 3] 2 true = Ok (Some 1, [Some 3]) /\
  (7 - 1) mod 4 <> 0 /\
  galois.RootOfUnity f7 [Some 3] 4 false = Ok (Some 3, []) /\
  galois.Exp f7 3 4 = Some 4.
Proof. repeat split; try reflexivity. vm_compute. discriminate. Qed.

(** The integers modulo 7 satisfy the laws over the field of order 7. *)
Lemma Z7_group_laws : @GroupLaws f7 Z Z7_group.
Proof.
  split; intros; cbn.
  - symmetry. apply Zplus_mod.
  - apply Zmult_mod_idemp_l.
  - apply Zmod_mod.
Defined.

(** C4.  For every non-empty polynomial [p] and every scalar [x], over a
    field of positive order and for any group that satisfies the laws of
    the [GroupElement] interface: [EvaluateOnPowers] of [p] on the encoded
    powers [g^(x^0), ..., g^(x^(len p - 1))] returns
    [ScalarBaseMult (Evaluate p x)]. *)
Theorem EvaluateOnPowers_hides_Evaluate (f : galois.Field) (G : Type)
    (GE : GroupElement G) (p : list Z) (x : Z) :
  0 < galois.Order f -> GroupLaws f G -> p <> [] ->
  exists xs v,
    ComputePowers x (Z.of_nat (length p)) f = Ok xs /\
    Evaluate p x f = Ok v /\
    EvaluateOnPowers p (gScalarBaseMult <$> xs) = Ok (gScalarBaseMult v).
Proof. intros Ho Hlaws Hp. apply (EvaluateOnPowers_spec f Ho Hlaws p x Hp). Qed.

Lemma EvaluateOnPowers_hides_Evaluate_witness :
  exists xs v,
    ComputePowers 3 (Z.of_nat (length [6; 5; 1])) f7 = Ok xs /\
    Evaluate [6; 5; 1] 3 f7 = Ok v /\
    @EvaluateOnPowers Z Z7_group [6; 5; 1] (@gScalarBaseMult Z Z7_group <$> xs)
      = Ok (@gScalarBaseMult Z Z7_group v).
Proof.
  apply (EvaluateOnPowers_hides_Evaluate f7 Z Z7_group).
  - reflexivity.
  - exact Z7_group_laws.
  - discriminate.
Defined.

(** C5, as stated, fails: for [x = 0] in the field of order 7,
    [MultInverse] returns a nil pointer and no error value, and [Div]
    dereferences it: a panic, not an error handed to the caller. *)
Lemma Div_by_zero_element_panics :
  galois.MultInverse f7 0 = Ok None /\
  galois.Div f7 3 0 = Panic NilDereference /\
  ~ exists e, galois.Div f7 3 0 = Err e.
Proof.
  split; [reflexivity|]. split; [reflexivity|]. intros [e H]. discriminate H.
Qed.

Lemma galois_Div_not_coprime (f : galois.Field) (x : Z) :
  galois.Order f <> 0 -> Z.gcd x (galois.Order f) <> 1 ->
  galois.MultInverse f x = Ok None /\
  forall a, galois.Div f a x = Panic NilDereference.
Proof.
  intros Ho Hg.
  assert (E : galois.MultInverse f x = Ok None).
  { unfold galois.MultInverse, galois.bigModInverse.
    destruct (Z.eqb_spec (galois.Order f) 0); [contradiction|].
    rewrite Z.gcd_abs_r. destruct (Z.eqb_spec (Z.gcd x (galois.Order f)) 1); [contradiction|].
    reflexivity. }
  split; [exact E|]. intros a. unfold galois.Div. rewrite E. reflexivity.
Qed.

(** C5 (amended).  For every element [x] that shares a nontrivial factor
    with the (non-zero) order, in particular for [x = 0] when the order is
    not 1 or -1, [MultInverse] returns nil (and no error value), and
    [Div a x] panics on the nil dereference for every [a]. *)
Theorem MultInverse_nil_and_Div_panics (f : galois.Field) (x : Z) :
  galois.Order f <> 0 ->
  Z.gcd x (galois.Order f) <> 1 \/ (x = 0 /\ Z.abs (galois.Order f) <> 1) ->
  galois.MultInverse f x = Ok None /\
  forall a, galois.Div f a x = Panic NilDereference.
Proof.
  intros Ho Hx. apply galois_Div_not_coprime; [exact Ho|].
  destruct Hx as [Hg|[-> Habs]]; [exact Hg|]. rewrite Z.gcd_0_l. exact Habs.
Qed.

Lemma MultInverse_nil_and_Div_panics_witness :
  galois.MultInverse f7 0 = Ok None /\
  forall a, galois.Div f7 a 0 = Panic NilDereference.
Proof.
  apply MultInverse_nil_and_Div_panics.
  - simpl. lia.
  - right. split; [reflexivity|]. simpl. lia.
Defined.

(** C6, as stated, fails: dividing by the zero polynomial [[0]] panics; no
    [DivisionByZeroError], nor any other error value, reaches the caller. *)
Lemma Div_zero_divisor_no_error :
  zero_poly [0] /\
  Div 1 [6; 4; 5] [0] f7 = Some (Panic NilDereference) /\
  ~ exists fuel e, Div fuel [6; 4; 5] [0] f7 = Some (Err e).
Proof.
  split; [repeat constructor|]. split; [reflexivity|].
  intros (fuel & e & H). destruct fuel as [|fuel]; vm_compute in H; discriminate.
Qed.

(** C6 (amended).  Over a field of order above 1, for every dividend [p]
    and every non-empty divisor that reduces to the zero polynomial (every
    slot is zero modulo the order; the literal zero polynomial is one) and
    whose degree as stored is at most [Degree p], [Div] (with fuel for one
    iteration) returns no quotient and no error value: it panics; for a
    dividend without slots beyond its degree the panic is the nil
    dereference of the missing inverse of the divisor's leading
    coefficient. *)
Theorem Div_zero_divisor_panics (fuel : nat) (p d : list Z) (f : galois.Field) :
  1 < galois.Order f -> d <> [] ->
  Forall (fun c => c mod galois.Order f = 0) d ->
  (Degree d <= Degree p)%nat -> (0 < fuel)%nat ->
  (exists x, Div fuel p d f = Some (Panic x)) /\
  ((length p <= S (Degree p))%nat -> Div fuel p d f = Some (Panic NilDereference)).
Proof.
  intros Ho Hd Hz Hdeg Hfuel.
  assert (Hlead : Z.gcd (coef d (Degree d)) (galois.Order f) <> 1).
  { assert (Hm : coef d (Degree d) mod galois.Order f = 0).
    { pose proof (Degree_le_length d). pose proof (nonempty_length d Hd).
      apply (proj1 (Forall_lookup _ d) Hz (Degree d)). apply lookup_coef. lia. }
    rewrite <- Z.gcd_mod_l, Hm, Z.gcd_0_l. lia. }
  assert (Hnil : (length p <= S (Degree p))%nat ->
                 Div fuel p d f = Some (Panic NilDereference)).
  { intros Hl. unfold Div.
    destruct (Clone_returns p Hl) as (n & E & Hln & _ & Hdn). rewrite E, Hdn.
    replace (Z.of_nat (Degree p) - Z.of_nat (Degree d))
      with (Z.of_nat (Degree p - Degree d)) by lia.
    rewrite NewZeroPolynomial_nat.
    destruct fuel as [|fuel]; [lia|]. cbn [Div_loop].
    destruct (Nat.ltb_spec (Degree n) (Degree d)) as [Hlt|_]; [lia|].
    unfold Div_body. rewrite index_lt by lia. cbn [obind].
    rewrite index_lt by (pose proof (Degree_le_length d);
                         pose proof (nonempty_length d Hd); lia).
    cbn [obind].
    destruct (galois_Div_not_coprime f (coef d (Degree d))) as [_ Hdiv];
      [lia|exact Hlead|].
    rewrite Hdiv. reflexivity. }
  split; [|exact Hnil].
  destruct (decide (length p <= S (Degree p))%nat) as [Hl|Hl].
  - eexists. apply Hnil, Hl.
  - unfold Div. rewrite Clone_panics by lia. eexists. reflexivity.
Qed.

Lemma Div_zero_divisor_panics_witness :
  (exists x, Div 1 [6; 4; 5] [7; 14] f7 = Some (Panic x)) /\
  (Nat.le (length [6; 4; 5]) (S (Degree [6; 4; 5])) ->
   Div 1 [6; 4; 5] [7; 14] f7 = Some (Panic NilDereference)).
Proof.
  apply Div_zero_divisor_panics.
  - reflexivity.
  - discriminate.
  - repeat constructor.
  - vm_compute. lia.
  - lia.
Defined.

(** A divisor that reduces to the zero polynomial but is stored with degree
    [Degree p + 1] is not noticed at all: the loop is not entered. *)
Example Div_zero_divisor_returns :
  Div 1 [1] [0; 7] f7 = Some (Ok ([], [1])).
Proof. reflexivity. Qed.

(** C7, as stated, fails over a composite modulus, which [NewField]
    accepts like any other: modulo 15 the product of [3v] and [5v] is
    stored as three zero slots, of degree 0 instead of 2. *)
Lemma Mul_Degree_composite_modulus :
  ~ zero_poly [0; 3] /\ ~ zero_poly [0; 5] /\
  exists s, Mul [0; 3] [0; 5] f15 = Ok s /\
            Degree s <> Nat.add (Degree [0; 3]) (Degree [0; 5]).
Proof.
  split; [|split].
  - intros H. inversion H as [|? ? _ H']. inversion H'. discriminate.
  - intros H. inversion H as [|? ? _ H']. inversion H'. discriminate.
  - exists [0; 0; 0]. split; [reflexivity|]. vm_compute. lia.
Qed.

Lemma nonzero_lead (f : galois.Field) (p : list Z) :
  0 < galois.Order f -> canonical p -> reduced f p -> ~ zero_poly p ->
  0 < coef p (Degree p) < galois.Order f.
Proof.
  intros Ho Cp Rp Hnz. pose proof (reduced_coef f p Ho Rp (Degree p)) as Hr.
  assert (coef p (Degree p) <> 0); [|lia].
  destruct (decide (Degree p = O)) as [E|E]; [|apply Degree_nonzero, E].
  intros H0. apply Hnz. apply zero_poly_coef. rewrite E in H0.
  apply Degree_zero_all; assumption.
Qed.

(** C7 (amended).  Over a field of prime order, for polynomials [p] and [q]
    that hold field elements, are stored without slots beyond their degree
    and are not the zero polynomial, [Mul] returns a product whose degree is
    [Degree p + Degree q]. *)
Theorem Mul_Degree (f : galois.Field) (p q : list Z) :
  Z.prime (galois.Order f) ->
  canonical p -> reduced f p -> ~ zero_poly p ->
  canonical q -> reduced f q -> ~ zero_poly q ->
  exists s, Mul p q f = Ok s /\ Degree s = (Degree p + Degree q)%nat.
Proof.
  intros Hprime Cp Rp Zp Cq Rq Zq.
  assert (Ho : 0 < galois.Order f) by (destruct Hprime; lia).
  exists (tab (galois.Order f) (S (Degree p + Degree q)) (conv p q)). split.
  - apply (Mul_spec f Ho). right. unfold canonical in Cp, Cq. lia.
  - apply Degree_unique.
    + intros _. rewrite coef_tab, decide_True by lia. rewrite conv_top.
      pose proof (nonzero_lead f p Ho Cp Rp Zp) as Hp.
      pose proof (nonzero_lead f q Ho Cq Rq Zq) as Hq.
      intros Hmod. apply Z.mod_divide in Hmod; [|lia].
      destruct (proj1 (Z.divide_prime_mul _ _ _ Hprime) Hmod) as [Hd|Hd];
        apply Z.mod_divide in Hd; try lia; rewrite Z.mod_small in Hd by lia; lia.
    + intros k Hk. rewrite coef_tab, decide_False by lia. reflexivity.
Qed.

Lemma Mul_Degree_witness :
  exists s, Mul [1; 1; 1] [6; 1] f7 = Ok s /\
            Degree s = Nat.add (Degree [1; 1; 1]) (Degree [6; 1]).
Proof.
  apply Mul_Degree.
  - split; [reflexivity|]. intros n Hn Hd. simpl in Hn.
    apply Z.mod_divide in Hd; [|lia].
    assert (n = 2 \/ n = 3 \/ n = 4 \/ n = 5 \/ n = 6) as Hcases by lia.
    destruct Hcases as [E | [E | [E | [E | E]]]]; subst n; discriminate Hd.
  - reflexivity.
  - repeat constructor; simpl; lia.
  - intros H. inversion H. discriminate.
  - reflexivity.
  - repeat constructor; simpl; lia.
  - intros H. inversion H. discriminate.
Defined.

(** C8: failing input.  The first operand [[1; 0]] is the constant
    polynomial 1 stored with one zero slot beyond its degree.  Both sides of
    the two equations are defined mathematically, and [Evaluate] returns on
    each operand, but [Add] and [Mul] size their result by [Degree] and then
    write one slot per stored coefficient: they panic before anything can be
    evaluated. *)
Theorem Evaluate_homomorphism_breaks_on_trailing_zero :
  Evaluate [1; 0] 3 f7 = Ok 1 /\ Evaluate [1] 3 f7 = Ok 1 /\
  galois.Add f7 1 1 = Ok 2 /\ galois.Mul f7 1 1 = Ok 1 /\
  Add [1; 0] [1] f7 = Panic IndexOutOfRange /\
  Mul [1; 0] [1] f7 = Panic IndexOutOfRange.
Proof. repeat split; reflexivity. Qed.

(** On operands that [Add] and [Mul] accept, evaluation is compatible with
    both operations. *)
Lemma Evaluate_homomorphism (f : galois.Field) (p q : list Z) (x : Z) :
  0 < galois.Order f -> p <> [] -> q <> [] ->
  (forall s, Add p q f = Ok s ->
     exists a b, Evaluate p x f = Ok a /\ Evaluate q x f = Ok b /\
                 Evaluate s x f = galois.Add f a b) /\
  (forall s, Mul p q f = Ok s ->
     exists a b, Evaluate p x f = Ok a /\ Evaluate q x f = Ok b /\
                 Evaluate s x f = galois.Mul f a b).
Proof.
  intros Ho Hp Hq. split; intros s Hs.
  - apply (Evaluate_Add_ok f Ho p q s x Hp Hq Hs).
  - apply (Evaluate_Mul_ok f Ho p q s x Hp Hq Hs).
Qed.

(** C9: failing input.  [[1; 0]] has degree 0 and two slots; the result of
    [Add [1; 0] [1]] is allocated with one slot and the loop over the first
    operand writes slot 1. *)
Theorem Add_trailing_zero_out_of_range :
  Degree [1; 0] = O /\ length [1; 0] = 2%nat /\
  NewZeroPolynomial (Z.of_nat (Degree [1; 0])) = Ok [0] /\
  Add [1; 0] [1] f7 = Panic IndexOutOfRange.
Proof. repeat split; reflexivity. Qed.

(** A divisor of degree [Degree p + 2] or more: the dividend is cloned (or
    [Clone] panics on its slots beyond the degree) and the allocation of the
    quotient panics on its negative length. *)
Lemma Div_negative_allocation_panics (fuel : nat) (p d : list Z) (f : galois.Field) :
  (Degree p + 2 <= Degree d)%nat ->
  Div fuel p d f =
  Some (Panic (if decide (length p <= S (Degree p))%nat
               then MakesliceLenOutOfRange else IndexOutOfRange)).
Proof.
  intros Hdeg. unfold Div. case_decide as Hl.
  - destruct (Clone_returns p Hl) as (n & E & _ & _ & Hd). rewrite E, Hd.
    unfold NewZeroPolynomial.
    destruct (Z.ltb_spec (Z.of_nat (Degree p) - Z.of_nat (Degree d) + 1) 0); [|lia].
    reflexivity.
  - rewrite Clone_panics by lia. reflexivity.
Qed.

(** C10.  There are a dividend and a divisor with
    [Degree d >= Degree p + 2] for which [Div] does not return a pair: the
    quotient is allocated by [NewZeroPolynomial (Degree p - Degree d)], a
    negative length, and the call panics.  More generally [Div] returns a
    pair only if [Degree d <= Degree p + 1]. *)
Theorem Div_total_only_up_to_degree_plus_one :
  (exists p d f,
     (Degree p + 2 <= Degree d)%nat /\
     NewZeroPolynomial (Z.of_nat (Degree p) - Z.of_nat (Degree d))
       = Panic MakesliceLenOutOfRange /\
     forall fuel, Div fuel p d f = Some (Panic MakesliceLenOutOfRange)) /\
  (forall fuel p d f q r,
     Div fuel p d f = Some (Ok (q, r)) -> (Degree d <= Degree p + 1)%nat).
Proof.
  split.
  - exists [1], [0; 0; 1], f7. split; [vm_compute; lia|]. split; [reflexivity|].
    intros fuel. reflexivity.
  - intros fuel p d f q r H.
    destruct (decide (Degree d <= Degree p + 1)%nat) as [Hle|Hgt]; [exact Hle|].
    rewrite (Div_negative_allocation_panics fuel p d f) in H by lia. discriminate.
Qed.

Lemma Div_total_only_up_to_degree_plus_one_witness :
  Nat.le (Degree [1; 2]) (Nat.add (Degree [6; 4; 5]) 1%nat).
Proof.
  apply (proj2 Div_total_only_up_to_degree_plus_one 3%nat [6; 4; 5] [1; 2] f7 [6; 6] [0; 0; 0]).
  reflexivity.
Defined.

(** * Further properties of the code *)

(** ** Field arithmetic *)

Lemma bigMod_nonzero x m :
  m <> 0 -> galois.bigMod x m = Ok (x mod Z.abs m) /\
            0 <= x mod Z.abs m < Z.abs m /\ (m | x mod Z.abs m - x).
Proof.
  intros Hm. unfold galois.bigMod. destruct (Z.eqb_spec m 0); [contradiction|].
  split; [reflexivity|]. split; [apply Z.mod_pos_bound; lia|].
  apply Z.divide_abs_l. exists (- (x / Z.abs m)).
  rewrite (Z.mod_eq x (Z.abs m)) by lia. ring.
Qed.

(** X1.  Over any non-zero order, [Add], [Sub] and [Mul] return, and what
    they return is the residue of the integer sum, difference and product
    in [[0, |order|)]: results are field elements whatever the operands
    are (negative, or beyond the order). *)
Theorem galois_results_are_field_elements (f : galois.Field) (x y : Z) :
  galois.Order f <> 0 ->
  exists a s m,
    galois.Add f x y = Ok a /\ galois.Sub f x y = Ok s /\ galois.Mul f x y = Ok m /\
    0 <= a < Z.abs (galois.Order f) /\ (galois.Order f | a - (x + y)) /\
    0 <= s < Z.abs (galois.Order f) /\ (galois.Order f | s - (x - y)) /\
    0 <= m < Z.abs (galois.Order f) /\ (galois.Order f | m - x * y).
Proof.
  intros Ho.
  destruct (bigMod_nonzero (x + y) _ Ho) as (Ea & Ra & Da).
  destruct (bigMod_nonzero (x - y) _ Ho) as (Es & Rs & Ds).
  destruct (bigMod_nonzero (x * y) _ Ho) as (Em & Rm & Dm).
  eexists _, _, _. repeat split; try eassumption; [apply Ra|apply Ra|..].
  - apply Rs.
  - apply Rs.
  - apply Rm.
  - apply Rm.
Qed.

Lemma galois_results_are_field_elements_witness :
  exists a s m,
    galois.Add f7 5 4 = Ok a /\ galois.Sub f7 5 4 = Ok s /\ galois.Mul f7 5 4 = Ok m /\
    0 <= a < Z.abs (galois.Order f7) /\ (galois.Order f7 | a - (5 + 4)) /\
    0 <= s < Z.abs (galois.Order f7) /\ (galois.Order f7 | s - (5 - 4)) /\
    0 <= m < Z.abs (galois.Order f7) /\ (galois.Order f7 | m - 5 * 4).
Proof. apply galois_results_are_field_elements. discriminate. Defined.

Lemma galois_MultInverse_coprime (f : galois.Field) (y : Z) :
  0 < galois.Order f -> Z.gcd y (galois.Order f) = 1 ->
  galois.MultInverse f y = Ok (Some (Z.invmod y (galois.Order f))).
Proof.
  intros Ho Hg. unfold galois.MultInverse, galois.bigModInverse.
  destruct (Z.eqb_spec (galois.Order f) 0); [lia|]. rewrite Z.abs_eq by lia.
  rewrite Hg. reflexivity.
Qed.

Lemma galois_Div_coprime (f : galois.Field) (x y : Z) :
  0 < galois.Order f -> Z.gcd y (galois.Order f) = 1 ->
  galois.Div f x y = Ok ((x * Z.invmod y (galois.Order f)) mod galois.Order f).
Proof.
  intros Ho Hg. unfold galois.Div. rewrite galois_MultInverse_coprime by assumption.
  cbn [obind]. apply (bigMod_pos f Ho).
Qed.

(** X2.  Over a positive order, [MultInverse x] returns an inverse exactly
    when [x] is coprime to the order; the inverse is a field element and
    [Mul x inverse] is 1 (reduced). *)
Theorem MultInverse_inverts (f : galois.Field) (x : Z) :
  0 < galois.Order f ->
  (Z.gcd x (galois.Order f) = 1 <-> exists i, galois.MultInverse f x = Ok (Some i)) /\
  (forall i, galois.MultInverse f x = Ok (Some i) ->
     0 <= i < galois.Order f /\ galois.Mul f x i = Ok (1 mod galois.Order f)).
Proof.
  intros Ho.
  assert (Hshape : forall i, galois.MultInverse f x = Ok (Some i) ->
            Z.gcd x (galois.Order f) = 1 /\ i = Z.invmod x (galois.Order f)).
  { intros i. unfold galois.MultInverse, galois.bigModInverse.
    destruct (Z.eqb_spec (galois.Order f) 0); [lia|]. rewrite Z.abs_eq by lia.
    destruct (Z.eqb_spec (Z.gcd x (galois.Order f)) 1); [|discriminate].
    intros H. injection H as <-. split; [assumption|reflexivity]. }
  split.
  - split.
    + intros Hg. eexists. apply galois_MultInverse_coprime; assumption.
    + intros [i Hi]. apply (Hshape i Hi).
  - intros i Hi. destruct (Hshape i Hi) as [Hg ->]. split.
    + rewrite <- Z.mod_invmod. apply Z.mod_pos_bound, Ho.
    + rewrite (galois_Mul_pos f Ho). f_equal. rewrite Z.mul_comm.
      apply Z.invmod_coprime'. exact Hg.
Qed.

Lemma MultInverse_inverts_witness :
  (Z.gcd 3 (galois.Order f7) = 1 <-> exists i, galois.MultInverse f7 3 = Ok (Some i)) /\
  (forall i, galois.MultInverse f7 3 = Ok (Some i) ->
     0 <= i < galois.Order f7 /\ galois.Mul f7 3 i = Ok (1 mod galois.Order f7)).
Proof. apply MultInverse_inverts. reflexivity. Defined.

(** X3.  Over a positive order and for a divisor [y] coprime to it, [Div]
    undoes [Mul] and [Mul] undoes [Div]: [Div (Mul x y) y] and
    [Mul (Div x y) y] are both [x], reduced. *)
Theorem Div_Mul_round_trip (f : galois.Field) (x y : Z) :
  0 < galois.Order f -> Z.gcd y (galois.Order f) = 1 ->
  exists m d,
    galois.Mul f x y = Ok m /\ galois.Div f m y = Ok (x mod galois.Order f) /\
    galois.Div f x y = Ok d /\ galois.Mul f d y = Ok (x mod galois.Order f).
Proof.
  intros Ho Hg.
  assert (Hinv : cong (galois.Order f) (Z.invmod y (galois.Order f) * y) 1).
  { apply cong_intro, Z.invmod_coprime', Hg. }
  exists ((x * y) mod galois.Order f),
         ((x * Z.invmod y (galois.Order f)) mod galois.Order f).
  split; [apply (galois_Mul_pos f Ho)|]. split.
  - rewrite galois_Div_coprime by assumption. f_equal. apply cong_unfold.
    rewrite cong_mod.
    replace (x * y * Z.invmod y (galois.Order f))
      with (x * (Z.invmod y (galois.Order f) * y)) by ring.
    rewrite Hinv. apply cong_eq. ring.
  - split; [apply galois_Div_coprime; assumption|].
    rewrite (galois_Mul_pos f Ho). f_equal. apply cong_unfold. rewrite cong_mod.
    replace (x * Z.invmod y (galois.Order f) * y)
      with (x * (Z.invmod y (galois.Order f) * y)) by ring.
    rewrite Hinv. apply cong_eq. ring.
Qed.

Lemma Div_Mul_round_trip_witness :
  exists m d,
    galois.Mul f7 5 3 = Ok m /\ galois.Div f7 m 3 = Ok (5 mod galois.Order f7) /\
    galois.Div f7 5 3 = Ok d /\ galois.Mul f7 d 3 = Ok (5 mod galois.Order f7).
Proof. apply Div_Mul_round_trip; reflexivity. Defined.

(** ** Roots of unity *)

Lemma RootOfUnity_loop_primitive (f : galois.Field) (e h : Z) :
  forall (r r' : galois.Reader) (root : option Z),
  galois.RootOfUnity_loop f e h true r = Ok (root, r') ->
  exists x rt hv,
    In (Some x) r /\ root = Some rt /\ galois.Exp f x e = Some rt /\
    galois.Exp f rt h = Some hv /\ hv <> 1 /\ (length r' < length r)%nat.
Proof.
  induction r as [|d r IH]; intros r' root; cbn [galois.RootOfUnity_loop];
    unfold galois.Random; destruct (galois.Order f <=? 0); try discriminate.
  destruct d as [x|]; try discriminate. cbn [obind fst negb].
  destruct (galois.Exp f x e) as [rt|] eqn:Ert; try discriminate.
  destruct (galois.Exp f rt h) as [hv|] eqn:Eh; try discriminate.
  destruct (Z.eqb_spec hv 1) as [E1|E1]; cbn [negb].
  - intros H. destruct (IH _ _ H) as (x' & rt' & hv' & Hin & Hr & Hx & Hh & Hne & Hlen).
    exists x', rt', hv'. repeat split; try assumption.
    + right. exact Hin.
    + simpl. lia.
  - intros H. injection H as <- <-. exists x, rt, hv. repeat split; try assumption.
    + left. reflexivity.
    + simpl. lia.
Qed.

(** X4.  Whatever [RootOfUnity] returns when a primitive root is asked for
    is either the constant 1 of the divisibility shortcut (nothing is read
    from the source), or the power [x^((order-1)/n)] of a value [x] drawn
    from the source whose own power to [n/2] is not 1; in the second case at
    least one draw has been consumed. *)
Theorem RootOfUnity_primitive_result (f : galois.Field) (r r' : galois.Reader)
    (n : Z) (root : option Z) :
  galois.RootOfUnity f r n true = Ok (root, r') ->
  ((galois.Order f - 1) mod n = 0 /\ root = Some 1 /\ r' = r) \/
  ((galois.Order f - 1) mod n <> 0 /\
   exists x rt hv,
     In (Some x) r /\ root = Some rt /\
     galois.Exp f x ((galois.Order f - 1) / n) = Some rt /\
     galois.Exp f rt (Z.shiftr n 1) = Some hv /\ hv <> 1 /\
     (length r' < length r)%nat).
Proof.
  unfold galois.RootOfUnity.
  destruct (n mod 2 =? 1); [discriminate|].
  destruct (n =? 0); [discriminate|].
  destruct (Z.eqb_spec ((galois.Order f - 1) mod n) 0) as [E|E].
  - intros H. injection H as <- <-. left. repeat split. exact E.
  - intros H. right. split; [exact E|].
    apply (RootOfUnity_loop_primitive _ _ _ _ _ _ H).
Qed.

Lemma RootOfUnity_primitive_result_witness :
  ((galois.Order f7 - 1) mod 4 = 0 /\ Some 3 = Some 1 /\ [] = [Some 1; Some 3]) \/
  ((galois.Order f7 - 1) mod 4 <> 0 /\
   exists x rt hv,
     In (Some x) [Some 1; Some 3] /\ Some 3 = Some rt /\
     galois.Exp f7 x ((galois.Order f7 - 1) / 4) = Some rt /\
     galois.Exp f7 rt (Z.shiftr 4 1) = Some hv /\ hv <> 1 /\
     (length (@nil (option Z)) < length [Some 1; Some 3])%nat).
Proof.
  apply (RootOfUnity_primitive_result f7 [Some 1; Some 3] [] 4 (Some 3)).
  reflexivity.
Defined.

(** X5.  The ways [RootOfUnity] fails.  An odd [n] is refused with an error
    before the source is read.  [n = 0] passes the parity test and panics in
    the division by [n].  For an even [n > 0] that does not divide
    [order - 1], over a positive order, an exhausted source or a failed read
    ends the call with the error of [Random]. *)
Theorem RootOfUnity_failures (f : galois.Field) (r : galois.Reader) (primitive : bool) :
  (forall n, n mod 2 = 1 -> galois.RootOfUnity f r n primitive = Err (ErrOddRoot n)) /\
  galois.RootOfUnity f r 0 primitive = Panic DivisionByZero /\
  (forall n, 0 < galois.Order f -> 0 < n -> n mod 2 = 0 ->
     (galois.Order f - 1) mod n <> 0 ->
     galois.RootOfUnity f [] n primitive = Err ErrRandInt /\
     galois.RootOfUnity f (None :: r) n primitive = Err ErrRandInt).
Proof.
  split; [|split].
  - intros n Hn. unfold galois.RootOfUnity. rewrite Hn. reflexivity.
  - reflexivity.
  - intros n Ho Hn Heven Hndiv. unfold galois.RootOfUnity. rewrite Heven. cbn [Z.eqb].
    destruct (Z.eqb_spec n 0); [lia|].
    destruct (Z.eqb_spec ((galois.Order f - 1) mod n) 0); [contradiction|].
    cbn [galois.RootOfUnity_loop]. unfold galois.Random.
    destruct (Z.leb_spec (galois.Order f) 0); [lia|]. split; reflexivity.
Qed.

(** ** Degree, Eq and slots beyond the degree *)

(** X6.  [Degree] is the highest index that holds a non-zero coefficient,
    and 0 when there is none (the zero polynomial and the empty slice
    included): it stays below the length, the slot at a non-zero degree is
    not zero, every slot above the degree is zero, and no non-zero slot lies
    above it. *)
Theorem Degree_is_highest_nonzero_index (p : list Z) :
  (Degree p <= length p - 1)%nat /\
  (Degree p <> O -> coef p (Degree p) <> 0) /\
  (forall k, (Degree p < k)%nat -> coef p k = 0) /\
  (forall m, coef p m <> 0 -> (m <= Degree p)%nat) /\
  (zero_poly p -> Degree p = O).
Proof.
  split; [apply Degree_le_length|]. split; [apply Degree_nonzero|].
  split; [apply Degree_above|]. split; [|apply zero_poly_Degree].
  intros m Hm. destruct (decide (m <= Degree p)%nat) as [H|H]; [exact H|].
  exfalso. apply Hm. apply Degree_above. lia.
Qed.

Lemma coef_app_zeros (p : list Z) (n k : nat) : coef (p ++ replicate n 0) k = coef p k.
Proof.
  unfold coef. destruct (decide (k < length p)%nat) as [Hk|Hk].
  - rewrite lookup_app_l by lia. reflexivity.
  - rewrite lookup_app_r by lia. rewrite (lookup_ge_None_2 p) by lia.
    destruct (decide (k - length p < n)%nat).
    + rewrite lookup_replicate_2 by lia. reflexivity.
    + rewrite lookup_ge_None_2; [reflexivity|]. rewrite length_replicate. lia.
Qed.

Lemma Degree_ext (p q : list Z) : (forall k, coef p k = coef q k) -> Degree p = Degree q.
Proof.
  intros H. symmetry. apply Degree_unique.
  - intros Hm. rewrite <- H. apply Degree_nonzero, Hm.
  - intros k Hk. rewrite <- H. apply Degree_above, Hk.
Qed.

Lemma Eq_loop_spec (p x : list Z) : forall n i,
  (i + n <= length p)%nat -> (i + n <= length x)%nat ->
  exists b, Eq_loop p x i n = Ok b /\
    (b = true <-> forall k, (i <= k < i + n)%nat -> coef p k = coef x k).
Proof.
  induction n as [|n IH]; intros i Hp Hx; cbn [Eq_loop].
  - exists true. split; [reflexivity|]. split; [intros _ k Hk; lia|reflexivity].
  - rewrite !index_lt by lia. cbn [obind].
    destruct (Z.eqb_spec (coef p i) (coef x i)) as [E|E]; cbn [negb].
    + destruct (IH (S i) ltac:(lia) ltac:(lia)) as (b & Hb & Hiff).
      exists b. split; [exact Hb|]. rewrite Hiff. split.
      * intros H k Hk. destruct (decide (k = i)) as [->|Hne]; [exact E|apply H; lia].
      * intros H k Hk. apply H. lia.
    + exists false. split; [reflexivity|]. split; [discriminate|].
      intros H. exfalso. apply E, H. lia.
Qed.

Lemma Eq_spec (p x : list Z) :
  p <> [] -> x <> [] ->
  exists b, Eq p x = Ok b /\ (b = true <-> forall k, coef p k = coef x k).
Proof.
  intros Hp Hx. pose proof (nonempty_length p Hp) as Lp.
  pose proof (nonempty_length x Hx) as Lx.
  pose proof (Degree_le_length p) as Dp. pose proof (Degree_le_length x) as Dx.
  unfold Eq. destruct (Nat.eqb_spec (Degree p) (Degree x)) as [E|E]; cbn [negb].
  - destruct (Eq_loop_spec p x (S (Degree p)) 0 ltac:(lia) ltac:(lia)) as (b & Hb & Hiff).
    exists b. split; [exact Hb|]. rewrite Hiff. split.
    + intros H k. destruct (decide (k <= Degree p)%nat); [apply H; lia|].
      rewrite (Degree_above p), (Degree_above x) by lia. reflexivity.
    + intros H k _. apply H.
  - exists false. split; [reflexivity|]. split; [discriminate|].
    intros H. exfalso. apply E, Degree_ext, H.
Qed.

(** X7.  On two non-empty slices [Eq] returns (it does not panic), and it
    returns true exactly when the two hold the same coefficient at every
    index, slots beyond the end counting as zero: it decides equality of
    polynomials, not of slices. *)
Theorem Eq_decides_polynomial_equality (p x : list Z) :
  p <> [] -> x <> [] ->
  exists b, Eq p x = Ok b /\ (b = true <-> forall k, coef p k = coef x k).
Proof. apply Eq_spec. Qed.

Lemma Eq_decides_polynomial_equality_witness :
  exists b, Eq [0; 0; 0] [0] = Ok b /\
            (b = true <-> forall k, coef [0; 0; 0] k = coef [0] k).
Proof. apply Eq_decides_polynomial_equality; discriminate. Defined.

(** X8.  The readers of a polynomial do not see zero slots appended beyond
    its degree: [Degree] is unchanged, [Evaluate] returns the same value and
    [Eq] finds the padded slice equal to the original. *)
Theorem trailing_zero_slots_are_invisible_to_readers
    (f : galois.Field) (p : list Z) (n : nat) (x : Z) :
  0 < galois.Order f -> p <> [] ->
  Degree (p ++ replicate n 0) = Degree p /\
  Evaluate (p ++ replicate n 0) x f = Evaluate p x f /\
  Eq (p ++ replicate n 0) p = Ok true.
Proof.
  intros Ho Hp.
  assert (Hpad : p ++ replicate n 0 <> []) by (destruct p; [congruence|discriminate]).
  split; [apply Degree_ext, coef_app_zeros|]. split.
  - rewrite !(Evaluate_spec f Ho) by assumption. do 2 f_equal.
    unfold epoly. rewrite length_app.
    rewrite (sumn_more (length p)); [|lia|].
    + apply sumn_ext. intros i _. rewrite coef_app_zeros. reflexivity.
    + intros i Hi. rewrite coef_app_zeros, (coef_ge p) by lia. ring.
  - destruct (Eq_spec (p ++ replicate n 0) p Hpad Hp)
      as (b & Hb & Hiff).
    rewrite Hb. f_equal. apply Hiff. intros k. apply coef_app_zeros.
Qed.

Lemma trailing_zero_slots_are_invisible_to_readers_witness :
  Degree ([3; 1] ++ replicate 2 0) = Degree [3; 1] /\
  Evaluate ([3; 1] ++ replicate 2 0) 5 f7 = Evaluate [3; 1] 5 f7 /\
  Eq ([3; 1] ++ replicate 2 0) [3; 1] = Ok true.
Proof.
  apply trailing_zero_slots_are_invisible_to_readers; [reflexivity|discriminate].
Defined.

(** ** Clone, Add and Mul on arbitrary slices *)

(** X9.  [Clone] allocates by the degree and copies by the length.  A
    slice no longer than its degree plus one, the empty slice included, is
    copied into a canonical slice with the same coefficients (the clone of
    the empty slice is [[0]]); on any longer slice [Clone] panics with an
    index out of range. *)
Theorem Clone_copies_up_to_the_degree (p : list Z) :
  ((length p <= S (Degree p))%nat ->
     exists n, Clone p = Ok n /\ canonical n /\ forall k, coef n k = coef p k) /\
  ((S (Degree p) < length p)%nat -> Clone p = Panic IndexOutOfRange) /\
  Clone [] = Ok [0].
Proof.
  split; [|split; [apply Clone_panics|reflexivity]].
  intros Hl. destruct (Clone_returns p Hl) as (n & E & Ln & Hc & Dn).
  exists n. split; [exact E|]. split; [|exact Hc]. unfold canonical. lia.
Qed.

Section SliceArithmetic.

Variable f : galois.Field.
Local Abbreviation o := (galois.Order f).
Hypothesis order_pos : 0 < o.

Lemma Add_symmetric p x : Add p x f = Add x p f.
Proof.
  destruct (decide ((length p <= S (Degree p `max` Degree x))%nat /\
                    (length x <= S (Degree p `max` Degree x))%nat)) as [[Hp Hx]|Hn].
  - rewrite (Add_spec f order_pos p x Hp Hx).
    rewrite (Add_spec f order_pos x p) by (rewrite Nat.max_comm; assumption).
    rewrite (Nat.max_comm (Degree x)). f_equal. apply tab_ext.
    intros k _. f_equal. ring.
  - rewrite (Add_panics f order_pos p x) by lia.
    rewrite (Add_panics f order_pos x p) by (rewrite (Nat.max_comm (Degree x)); lia).
    reflexivity.
Qed.

Lemma Mul_outer_nil_r p : forall i prod, Mul_outer f i p [] prod = Ok prod.
Proof.
  induction p as [|a p IH]; intros i prod; cbn [Mul_outer Mul_inner obind];
    [reflexivity|apply IH].
Qed.

Lemma Mul_nil_r p : Mul p [] f = Ok (replicate (S (Degree p)) 0).
Proof.
  unfold Mul. change (Degree []) with O.
  replace (Z.of_nat (Degree p) + Z.of_nat 0) with (Z.of_nat (Degree p)) by lia.
  rewrite NewZeroPolynomial_nat. cbn [obind]. apply Mul_outer_nil_r.
Qed.

Lemma Mul_nil_l m : Mul [] m f = Ok (replicate (S (Degree m)) 0).
Proof.
  unfold Mul. change (Degree []) with O.
  replace (Z.of_nat 0 + Z.of_nat (Degree m)) with (Z.of_nat (Degree m)) by lia.
  rewrite NewZeroPolynomial_nat. reflexivity.
Qed.

Lemma Mul_symmetric p m : Mul p m f = Mul m p f.
Proof.
  destruct (decide (p = [])) as [->|Hp]; [rewrite Mul_nil_l, Mul_nil_r; reflexivity|].
  destruct (decide (m = [])) as [->|Hm]; [rewrite Mul_nil_l, Mul_nil_r; reflexivity|].
  pose proof (nonempty_length p Hp) as Lp. pose proof (nonempty_length m Hm) as Lm.
  pose proof (Degree_le_length p) as Dp. pose proof (Degree_le_length m) as Dm.
  destruct (decide (length p + length m <= S (S (Degree p + Degree m)))%nat) as [Hl|Hl].
  - rewrite (Mul_spec f order_pos p m) by (right; exact Hl).
    rewrite (Mul_spec f order_pos m p) by (right; lia).
    rewrite (Nat.add_comm (Degree m)). f_equal. apply tab_ext.
    intros k _. rewrite conv_comm. reflexivity.
  - rewrite (Mul_panics f order_pos p m Hp Hm) by lia.
    rewrite (Mul_panics f order_pos m p Hm Hp) by lia. reflexivity.
Qed.

End SliceArithmetic.

(** X10.  What [Add] returns.  It returns exactly when neither operand is
    longer than the larger of the two degrees plus one, and panics with an
    index out of range otherwise; the slice returned has that length and
    holds at every index the sum of the two coefficients reduced modulo the
    order, a missing slot counting as zero. *)
Theorem Add_returns_the_coefficient_sums (f : galois.Field) (p x : list Z) :
  0 < galois.Order f ->
  ((length p <= S (Degree p `max` Degree x))%nat /\
   (length x <= S (Degree p `max` Degree x))%nat ->
     exists s, Add p x f = Ok s /\ length s = S (Degree p `max` Degree x) /\
       forall k, (k < length s)%nat ->
                 coef s k = (coef p k + coef x k) mod galois.Order f) /\
  ((S (Degree p `max` Degree x) < length p)%nat \/
   (S (Degree p `max` Degree x) < length x)%nat ->
     Add p x f = Panic IndexOutOfRange).
Proof.
  intros Ho. split; [|apply (Add_panics f Ho)].
  intros [Hp Hx]. rewrite (Add_spec f Ho p x Hp Hx).
  eexists. split; [reflexivity|]. rewrite length_tab. split; [reflexivity|].
  intros k Hk. rewrite coef_tab, decide_True by lia. reflexivity.
Qed.

Lemma Add_returns_the_coefficient_sums_witness :
  ((length [6; 4; 5]%Z <= S (Degree [6; 4; 5]%Z `max` Degree [3]%Z))%nat /\
   (length [3]%Z <= S (Degree [6; 4; 5]%Z `max` Degree [3]%Z))%nat ->
     exists s, Add [6; 4; 5]%Z [3]%Z f7 = Ok s /\
       length s = S (Degree [6; 4; 5]%Z `max` Degree [3]%Z) /\
       forall k, (k < length s)%nat ->
                 coef s k = (coef [6; 4; 5]%Z k + coef [3]%Z k) mod galois.Order f7) /\
  ((S (Degree [6; 4; 5]%Z `max` Degree [3]%Z) < length [6; 4; 5]%Z)%nat \/
   (S (Degree [6; 4; 5]%Z `max` Degree [3]%Z) < length [3]%Z)%nat ->
     Add [6; 4; 5]%Z [3]%Z f7 = Panic IndexOutOfRange).
Proof. apply Add_returns_the_coefficient_sums. reflexivity. Defined.

(** X11.  [Add] and [Mul] do not depend on the order of their operands:
    swapping receiver and argument gives the same slice, or the same panic,
    whatever the two slices are. *)
Theorem Add_and_Mul_commute (f : galois.Field) (p x : list Z) :
  0 < galois.Order f ->
  Add p x f = Add x p f /\ Mul p x f = Mul x p f.
Proof. intros Ho. split; [apply Add_symmetric|apply Mul_symmetric]; exact Ho. Qed.

Lemma Add_and_Mul_commute_witness :
  Add [1; 2; 0] [5] f7 = Add [5] [1; 2; 0] f7 /\
  Mul [1; 2; 0] [5] f7 = Mul [5] [1; 2; 0] f7.
Proof. apply Add_and_Mul_commute. reflexivity. Defined.

(** X12.  What [Mul] returns on two non-empty slices.  It returns exactly
    when both are stored canonically, and panics with an index out of range
    otherwise; the slice returned has as many slots as the sum of the two
    degrees plus one and holds at index [k] the sum of the products
    [p[i] * m[k-i]], reduced modulo the order. *)
Theorem Mul_returns_the_convolution (f : galois.Field) (p m : list Z) :
  0 < galois.Order f -> p <> [] -> m <> [] ->
  (canonical p /\ canonical m ->
     exists s, Mul p m f = Ok s /\ length s = S (Degree p + Degree m) /\
       forall k, (k < length s)%nat -> coef s k = conv p m k mod galois.Order f) /\
  (~ (canonical p /\ canonical m) -> Mul p m f = Panic IndexOutOfRange).
Proof.
  intros Ho Hp Hm.
  pose proof (nonempty_length p Hp) as Lp. pose proof (nonempty_length m Hm) as Lm.
  pose proof (Degree_le_length p) as Dp. pose proof (Degree_le_length m) as Dm.
  unfold canonical. split.
  - intros [Cp Cm]. rewrite (Mul_spec f Ho p m) by (right; lia).
    eexists. split; [reflexivity|]. rewrite length_tab. split; [reflexivity|].
    intros k Hk. rewrite coef_tab, decide_True by lia. reflexivity.
  - intros Hn. apply (Mul_panics f Ho p m Hp Hm). lia.
Qed.

Lemma Mul_returns_the_convolution_witness :
  (canonical [6; 4; 5] /\ canonical [1; 2] ->
     exists s, Mul [6; 4; 5] [1; 2] f7 = Ok s /\
       length s = S (Degree [6; 4; 5] + Degree [1; 2]) /\
       forall k, (k < length s)%nat ->
                 coef s k = conv [6; 4; 5] [1; 2] k mod galois.Order f7) /\
  (~ (canonical [6; 4; 5] /\ canonical [1; 2]) ->
     Mul [6; 4; 5] [1; 2] f7 = Panic IndexOutOfRange).
Proof. apply Mul_returns_the_convolution; [reflexivity|discriminate|discriminate]. Defined.

(** X13.  With an empty operand on either side [Mul] runs no loop body: it
    returns the freshly allocated slice of zeros, one slot more than the
    degree of the other operand, even when that operand carries trailing
    zeros on which a product with a non-empty slice panics. *)
Theorem Mul_with_empty_operand (f : galois.Field) (m : list Z) :
  Mul [] m f = Ok (replicate (S (Degree m)) 0) /\
  Mul m [] f = Ok (replicate (S (Degree m)) 0).
Proof. split; [apply Mul_nil_l|apply Mul_nil_r]. Qed.

Section Constants.

Variable f : galois.Field.
Local Abbreviation o := (galois.Order f).
Hypothesis order_pos : 0 < o.

Variable p : list Z.
Hypothesis p_canonical : canonical p.

Lemma Mul_constant_r c :
  Mul p [c] f = Ok (tab o (length p) (fun k => coef p k * c)).
Proof.
  pose proof p_canonical as Cp. unfold canonical in Cp.
  assert (D1 : Degree [c] = O) by reflexivity.
  rewrite (Mul_spec f order_pos) by (right; simpl; lia).
  rewrite D1, Nat.add_0_r, <- Cp. f_equal. apply tab_ext.
  intros k _. rewrite conv_const_r. reflexivity.
Qed.

Lemma tab_zero L g : (forall k, (k < L)%nat -> g k mod o = 0) -> tab o L g = replicate L 0.
Proof.
  intros Hz. apply coef_ext; rewrite length_tab; [rewrite length_replicate; reflexivity|].
  intros k Hk. rewrite coef_tab, decide_True, coef_replicate by lia. apply Hz, Hk.
Qed.

Lemma tab_reduced : (forall k, 0 <= coef p k < o) -> tab o (length p) (coef p) = p.
Proof.
  intros Rp. apply coef_ext; rewrite length_tab; [reflexivity|].
  intros k Hk. rewrite coef_tab, decide_True by lia. apply Z.mod_small, Rp.
Qed.

End Constants.

(** X14.  [OnePolynomial] is neutral for [Mul] on the polynomials the
    package produces: the product of a canonical slice of field elements
    with [OnePolynomial], on either side, is that slice. *)
Theorem Mul_OnePolynomial_is_identity (f : galois.Field) (p : list Z) :
  0 < galois.Order f -> canonical p -> reduced f p ->
  Mul p OnePolynomial f = Ok p /\ Mul OnePolynomial p f = Ok p.
Proof.
  intros Ho Cp Rp.
  assert (E : Mul p OnePolynomial f = Ok p).
  { unfold OnePolynomial, NewPolynomialFromCoefficients.
    rewrite (Mul_constant_r f Ho p Cp). f_equal.
    rewrite <- (tab_reduced f p (reduced_coef f p Ho Rp)) at 2.
    apply tab_ext. intros k _. f_equal. ring. }
  split; [exact E|]. rewrite (Mul_symmetric f Ho). exact E.
Qed.

Lemma Mul_OnePolynomial_is_identity_witness :
  Mul [6; 4; 5] OnePolynomial f7 = Ok [6; 4; 5] /\
  Mul OnePolynomial [6; 4; 5] f7 = Ok [6; 4; 5].
Proof.
  apply Mul_OnePolynomial_is_identity; [reflexivity|reflexivity|].
  repeat constructor; simpl; lia.
Defined.

(** X15.  The product of a canonical slice with [ZeroPolynomial] is a slice
    of zeros as long as the slice itself.  For a polynomial of degree one or
    more this result is no longer canonical: [Clone] and every further
    product with a non-empty slice panic on it. *)
Theorem Mul_ZeroPolynomial_leaves_trailing_zeros (f : galois.Field) (p : list Z) :
  0 < galois.Order f -> canonical p ->
  Mul p ZeroPolynomial f = Ok (replicate (length p) 0) /\
  ((1 < length p)%nat ->
     Clone (replicate (length p) 0) = Panic IndexOutOfRange /\
     forall m, m <> [] -> Mul (replicate (length p) 0) m f = Panic IndexOutOfRange).
Proof.
  intros Ho Cp. split.
  - unfold ZeroPolynomial, NewPolynomialFromCoefficients.
    rewrite (Mul_constant_r f Ho p Cp). f_equal. apply tab_zero.
    intros k _. rewrite Z.mul_0_r. apply Zmod_0_l.
  - intros Hl.
    assert (Dz : Degree (replicate (length p) 0) = O).
    { apply zero_poly_Degree, zero_poly_coef. intros k. apply coef_replicate. }
    split.
    + apply Clone_panics. rewrite Dz, length_replicate. exact Hl.
    + intros m Hm. pose proof (nonempty_length m Hm) as Lm.
      pose proof (Degree_le_length m) as Dm.
      apply (Mul_panics f Ho); [|exact Hm|].
      * intros E. apply (f_equal length) in E. rewrite length_replicate in E.
        simpl in E. lia.
      * rewrite Dz, length_replicate. lia.
Qed.

Lemma Mul_ZeroPolynomial_leaves_trailing_zeros_witness :
  Mul [6; 4; 5] ZeroPolynomial f7 = Ok (replicate (length [6; 4; 5]%Z) 0) /\
  ((1 < length [6; 4; 5]%Z)%nat ->
     Clone (replicate (length [6; 4; 5]%Z) 0) = Panic IndexOutOfRange /\
     forall m, m <> [] ->
       Mul (replicate (length [6; 4; 5]%Z) 0) m f7 = Panic IndexOutOfRange).
Proof. apply Mul_ZeroPolynomial_leaves_trailing_zeros; reflexivity. Defined.

(** ** Sub and the way back *)

Section Difference.

Variable f : galois.Field.
Local Abbreviation o := (galois.Order f).
Hypothesis order_pos : 0 < o.

Variables p x : list Z.
Local Abbreviation M := (Degree p `max` Degree x)%nat.

Hypothesis p_canonical : canonical p.
Hypothesis x_canonical : canonical x.
Hypothesis x_reduced : forall k, 0 <= coef x k < o.

Lemma negated_Degree : Degree (tab o (length x) (fun k => coef x k * -1)) = Degree x.
Proof.
  pose proof x_canonical as Cx. unfold canonical in Cx.
  apply Degree_unique.
  - intros HD. rewrite coef_tab, decide_True by lia.
    pose proof (Degree_nonzero x HD) as Hnz. pose proof (x_reduced (Degree x)) as Hb.
    intros E. apply Z.mod_divide in E; [|lia]. destruct E as [t Ht].
    assert (t < 0) by nia. assert (-1 < t) by nia. lia.
  - intros k Hk. rewrite coef_tab, decide_False by lia. reflexivity.
Qed.

(** The difference of two canonical slices, the subtrahend holding field
    elements. *)
Lemma Sub_difference :
  Sub p x f = Ok (tab o (S M) (fun k => coef p k - coef x k)).
Proof.
  pose proof p_canonical as Cp. pose proof x_canonical as Cx.
  unfold canonical in Cp, Cx. unfold Sub, NewPolynomialFromCoefficients.
  rewrite (Mul_constant_r f order_pos x x_canonical). cbn [obind].
  pose proof negated_Degree as Dn.
  set (nx := tab o (length x) (fun k => coef x k * -1)) in *.
  assert (Ln : length nx = length x) by apply length_tab.
  rewrite (Add_spec f order_pos) by (rewrite Dn; lia).
  rewrite Dn. f_equal. apply tab_ext. intros k Hk.
  unfold nx. rewrite coef_tab. apply cong_unfold. case_decide as Hkx.
  - rewrite cong_mod. apply cong_eq. ring.
  - rewrite (Degree_above x k) by lia. apply cong_eq. ring.
Qed.

Hypothesis p_reduced : forall k, 0 <= coef p k < o.

Lemma difference_Degree :
  Nat.max (Degree (tab o (S M) (fun k => coef p k - coef x k))) (Degree x) = M.
Proof.
  set (s := tab o (S M) (fun k => coef p k - coef x k)).
  pose proof (Degree_tab_le f (S M) (fun k => coef p k - coef x k)) as Hle.
  fold s in Hle.
  destruct (decide (Degree p <= Degree x)%nat) as [Hpx|Hpx]; [lia|].
  assert (Ds : Degree s = Degree p); [|lia].
  apply Degree_unique.
  - intros HD. unfold s. rewrite coef_tab, decide_True by lia.
    rewrite (Degree_above x (Degree p)) by lia. rewrite Z.sub_0_r.
    rewrite Z.mod_small by apply p_reduced. apply Degree_nonzero, HD.
  - intros k Hk. unfold s. rewrite coef_tab, decide_False by lia. reflexivity.
Qed.

Lemma Add_difference :
  exists r, Add (tab o (S M) (fun k => coef p k - coef x k)) x f = Ok r /\
            forall k, coef r k = coef p k.
Proof.
  pose proof p_canonical as Cp. pose proof x_canonical as Cx.
  unfold canonical in Cp, Cx. pose proof difference_Degree as Hmax.
  set (s := tab o (S M) (fun k => coef p k - coef x k)) in *.
  assert (Ls : length s = S M) by apply length_tab.
  rewrite (Add_spec f order_pos) by (rewrite Hmax; lia).
  rewrite Hmax. eexists. split; [reflexivity|].
  intros k. rewrite coef_tab. case_decide as Hk.
  - unfold s. rewrite coef_tab, decide_True by lia.
    rewrite <- (Z.mod_small (coef p k) o) at 2 by apply p_reduced.
    apply cong_unfold. rewrite cong_mod. apply cong_eq. ring.
  - symmetry. apply Degree_above. lia.
Qed.

End Difference.

(** X16.  For canonical slices of field elements [Sub] returns, with as many
    slots as the larger degree plus one and the differences of the
    coefficients reduced modulo the order in them. *)
Theorem Sub_returns_the_coefficient_differences (f : galois.Field) (p x : list Z) :
  0 < galois.Order f -> canonical p -> canonical x -> reduced f x ->
  exists s, Sub p x f = Ok s /\ length s = S (Degree p `max` Degree x) /\
    forall k, (k < length s)%nat ->
              coef s k = (coef p k - coef x k) mod galois.Order f.
Proof.
  intros Ho Cp Cx Rx.
  rewrite (Sub_difference f Ho p x Cp Cx (reduced_coef f x Ho Rx)).
  eexists. split; [reflexivity|]. rewrite length_tab. split; [reflexivity|].
  intros k Hk. rewrite coef_tab, decide_True by lia. reflexivity.
Qed.

Lemma Sub_returns_the_coefficient_differences_witness :
  exists s, Sub [0; 1] [0; 2; 3] f7 = Ok s /\
    length s = S (Degree [0; 1] `max` Degree [0; 2; 3]) /\
    forall k, (k < length s)%nat ->
              coef s k = (coef [0; 1] k - coef [0; 2; 3] k) mod galois.Order f7.
Proof.
  apply Sub_returns_the_coefficient_differences; [reflexivity..|].
  repeat constructor; simpl; lia.
Defined.

(** X17.  Adding the subtrahend back undoes [Sub]: for canonical slices of
    field elements [p] and [x], [Sub] returns a difference, [Add] of that
    difference and [x] returns, and the sum has the coefficients of [p] and
    is [Eq] to [p].  This holds although the difference itself may carry
    trailing zeros. *)
Theorem Add_undoes_Sub (f : galois.Field) (p x : list Z) :
  0 < galois.Order f -> canonical p -> reduced f p -> canonical x -> reduced f x ->
  exists s r, Sub p x f = Ok s /\ Add s x f = Ok r /\
              (forall k, coef r k = coef p k) /\ Eq r p = Ok true.
Proof.
  intros Ho Cp Rp Cx Rx.
  pose proof (reduced_coef f p Ho Rp) as Rp'. pose proof (reduced_coef f x Ho Rx) as Rx'.
  destruct (Add_difference f Ho p x Cp Cx Rp') as (r & Er & Hr).
  eexists. exists r. split; [apply (Sub_difference f Ho p x Cp Cx Rx')|].
  split; [exact Er|]. split; [exact Hr|].
  destruct (Eq_spec r p (Add_nonempty _ _ _ _ Er) (canonical_nonempty p Cp))
    as (b & Eb & Hiff).
  rewrite Eb. f_equal. apply Hiff, Hr.
Qed.

Lemma Add_undoes_Sub_witness :
  exists s r, Sub [3; 1; 2] [0; 1; 2] f7 = Ok s /\ Add s [0; 1; 2] f7 = Ok r /\
              (forall k, coef r k = coef [3; 1; 2] k) /\ Eq r [3; 1; 2] = Ok true.
Proof.
  apply Add_undoes_Sub; [reflexivity|reflexivity| |reflexivity|];
    repeat constructor; simpl; lia.
Defined.

(** X18.  A canonical slice minus itself is a slice of zeros of the same
    length, which [Eq] finds equal to [ZeroPolynomial]; no field-element
    condition is needed. *)
Theorem Sub_self_is_zero (f : galois.Field) (p : list Z) :
  0 < galois.Order f -> canonical p ->
  Sub p p f = Ok (replicate (length p) 0) /\
  Eq (replicate (length p) 0) ZeroPolynomial = Ok true.
Proof.
  intros Ho Cp. split.
  - rewrite (Sub_spec f Ho p p Cp Cp eq_refl). f_equal. apply (tab_zero f).
    intros k _. rewrite Z.sub_diag. apply Zmod_0_l.
  - apply zero_poly_iff_Eq.
    + pose proof (canonical_nonempty p Cp) as Hp. destruct p; [congruence|discriminate].
    + apply zero_poly_coef. intros k. apply coef_replicate.
Qed.

Lemma Sub_self_is_zero_witness :
  Sub [0; 1; 2] [0; 1; 2] f100 = Ok (replicate (length [0; 1; 2]%Z) 0) /\
  Eq (replicate (length [0; 1; 2]%Z) 0) ZeroPolynomial = Ok true.
Proof. apply Sub_self_is_zero; reflexivity. Defined.

(** ** Evaluation and the powers of a point *)

(** X19.  [Evaluate] on a non-empty slice returns the value of the
    polynomial: the sum of [p[i] * x^i] over all slots, reduced modulo the
    order.  On the empty slice it panics on [p[0]]. *)
Theorem Evaluate_returns_the_value (f : galois.Field) (p : list Z) (x : Z) :
  0 < galois.Order f ->
  (p <> [] -> Evaluate p x f = Ok (epoly p x mod galois.Order f)) /\
  Evaluate [] x f = Panic IndexOutOfRange.
Proof. intros Ho. split; [apply (Evaluate_spec f Ho)|reflexivity]. Qed.

Lemma Evaluate_returns_the_value_witness :
  ([0; 2; 3] <> [] -> Evaluate [0; 2; 3] 2 f10 = Ok (epoly [0; 2; 3] 2 mod galois.Order f10)) /\
  Evaluate [] 2 f10 = Panic IndexOutOfRange.
Proof. apply Evaluate_returns_the_value. reflexivity. Defined.

Section Powers.

Variable f : galois.Field.
Local Abbreviation o := (galois.Order f).
Hypothesis order_pos : 0 < o.

Variable x : Z.

Lemma ComputePowers_loop_exact : forall k prev,
  exists xs, ComputePowers_loop f x prev k = Ok xs /\ length xs = k /\
    forall j, (j < k)%nat -> coef xs j = (prev * x ^ Z.of_nat (S j)) mod o.
Proof.
  induction k as [|k IH]; intros prev; cbn [ComputePowers_loop].
  - exists []. split; [reflexivity|]. split; [reflexivity|]. intros j Hj. lia.
  - rewrite (galois_Mul_pos f order_pos). cbn [obind].
    destruct (IH ((prev * x) mod o)) as (xs & E & Hl & Hc).
    rewrite E. cbn [obind]. exists ((prev * x) mod o :: xs).
    split; [reflexivity|]. split; [simpl; lia|].
    intros [|j] Hj.
    + rewrite coef_cons_0. change (Z.of_nat 1) with 1. rewrite Z.pow_1_r. reflexivity.
    + rewrite coef_cons_S, Hc by lia. rewrite Z.mul_mod_idemp_l by lia.
      f_equal. rewrite (Nat2Z.inj_succ (S j)), Z.pow_succ_r by lia. ring.
Qed.

Lemma ComputePowers_exact (n : nat) :
  exists xs, ComputePowers x (Z.of_nat n) f = Ok xs /\ length xs = n /\
    forall j, (j < n)%nat ->
      coef xs j = if decide (j = O) then 1 else x ^ Z.of_nat j mod o.
Proof.
  unfold ComputePowers. destruct (Z.ltb_spec (Z.of_nat n) 0); [lia|].
  destruct (Z.eqb_spec (Z.of_nat n) 0) as [E0|E0].
  - exists []. split; [reflexivity|]. split; [simpl; lia|]. intros j Hj. lia.
  - destruct (ComputePowers_loop_exact (Z.to_nat (Z.of_nat n) - 1) 1) as (xs & E & Hl & Hc).
    rewrite E. cbn [obind]. exists (1 :: xs).
    split; [reflexivity|]. split; [simpl; lia|].
    intros [|j] Hj; [reflexivity|].
    rewrite coef_cons_S, Hc by lia. rewrite decide_False by lia.
    f_equal. ring.
Qed.

Lemma Exp_nonneg (y : Z) : 0 <= y -> galois.Exp f x y = Some (x ^ y mod o).
Proof.
  intros Hy. unfold galois.Exp, galois.bigExp.
  destruct (Z.eqb_spec o 0); [lia|]. destruct (Z.ltb_spec y 0); [lia|].
  rewrite Z.abs_eq by lia. reflexivity.
Qed.

Lemma ComputePowers_take (n k : nat) xs :
  (k <= n)%nat -> ComputePowers x (Z.of_nat n) f = Ok xs ->
  ComputePowers x (Z.of_nat k) f = Ok (take k xs).
Proof.
  intros Hk E. destruct (ComputePowers_exact n) as (xs' & E' & Hl & Hc).
  rewrite E in E'. injection E' as <-.
  destruct (ComputePowers_exact k) as (ys & Ey & Hly & Hcy).
  rewrite Ey. f_equal. apply coef_ext; [rewrite length_take; lia|].
  intros j Hj. rewrite Hcy by lia. unfold coef at 1.
  rewrite lookup_take_lt by lia. fold (coef xs j). rewrite Hc by lia. reflexivity.
Qed.

End Powers.

(** X20.  [ComputePowers x n] panics for a negative [n] and otherwise
    returns [n] entries: the first is the literal 1, and the entry at every
    index [j >= 1] is what [Exp x j] returns, the power [x^j] reduced modulo
    the order. *)
Theorem ComputePowers_entries_are_powers (f : galois.Field) (x n : Z) :
  0 < galois.Order f ->
  (n < 0 -> ComputePowers x n f = Panic MakesliceLenOutOfRange) /\
  (0 <= n ->
     exists xs, ComputePowers x n f = Ok xs /\ Z.of_nat (length xs) = n /\
       (0 < n -> coef xs 0 = 1) /\
       forall j, (1 <= j < length xs)%nat ->
                 galois.Exp f x (Z.of_nat j) = Some (coef xs j)).
Proof.
  intros Ho. split.
  - intros Hn. unfold ComputePowers. destruct (Z.ltb_spec n 0); [reflexivity|lia].
  - intros Hn. destruct (ComputePowers_exact f Ho x (Z.to_nat n)) as (xs & E & Hl & Hc).
    rewrite Z2Nat.id in E by lia. exists xs. split; [exact E|]. split; [lia|]. split.
    + intros Hpos. rewrite Hc by lia. reflexivity.
    + intros j Hj. rewrite (Exp_nonneg f Ho) by lia. rewrite Hc by lia.
      rewrite decide_False by lia. reflexivity.
Qed.

Lemma ComputePowers_entries_are_powers_witness :
  (4 < 0 -> ComputePowers 3 4 f7 = Panic MakesliceLenOutOfRange) /\
  (0 <= 4 ->
     exists xs, ComputePowers 3 4 f7 = Ok xs /\ Z.of_nat (length xs) = 4 /\
       (0 < 4 -> coef xs 0 = 1) /\
       forall j, (1 <= j < length xs)%nat ->
                 galois.Exp f7 3 (Z.of_nat j) = Some (coef xs j)).
Proof. apply ComputePowers_entries_are_powers. reflexivity. Defined.

(** X21.  The powers are stable under taking a prefix: the first [k]
    entries of [ComputePowers x n] are [ComputePowers x k], so a longer table
    can be cut down to the length a polynomial needs. *)
Theorem ComputePowers_prefix (f : galois.Field) (x : Z) (n k : nat) (xs : list Z) :
  0 < galois.Order f -> (k <= n)%nat ->
  ComputePowers x (Z.of_nat n) f = Ok xs ->
  ComputePowers x (Z.of_nat k) f = Ok (take k xs).
Proof. intros Ho Hk E. apply (ComputePowers_take f Ho x n k xs Hk E). Qed.

Lemma ComputePowers_prefix_witness :
  ComputePowers 3 (Z.of_nat 2) f7 = Ok (take 2 [1; 3; 2; 6]).
Proof. apply (ComputePowers_prefix f7 3 4 2); [reflexivity|lia|reflexivity]. Defined.

(** ** EvaluateOnPowers on any group *)

Section AnyGroup.

Context {G : Type} `{GroupElement G}.


End AnyGroup.


(** X23.  The way [main] commits to a polynomial: a table of [n] encoded
    powers is cut down to the first [Degree p + 1] entries.  For a canonical
    polynomial whose degree is below [n], over a group that satisfies the
    laws of the interface, [EvaluateOnPowers] on that prefix returns
    [ScalarBaseMult (Evaluate p x)]. *)
Theorem EvaluateOnPowers_on_a_prefix_of_the_table (f : galois.Field) (G : Type)
    (GE : GroupElement G) (p : list Z) (x : Z) (n : nat) (xs : list Z) :
  0 < galois.Order f -> GroupLaws f G -> canonical p -> (Degree p < n)%nat ->
  ComputePowers x (Z.of_nat n) f = Ok xs ->
  exists v, Evaluate p x f = Ok v /\
    EvaluateOnPowers p (take (Degree p + 1) (gScalarBaseMult <$> xs))
    = Ok (gScalarBaseMult v).
Proof.
  intros Ho Hlaws Cp Hn E. pose proof Cp as Cp'. unfold canonical in Cp'.
  destruct (EvaluateOnPowers_spec f Ho Hlaws p x (canonical_nonempty p Cp))
    as (ys & v & Ey & Ev & Eo).
  exists v. split; [exact Ev|].
  rewrite (ComputePowers_take f Ho x n (length p) xs ltac:(lia) E) in Ey.
  injection Ey as <-. rewrite <- fmap_take.
  replace (Degree p + 1)%nat with (length p) by lia. exact Eo.
Qed.

Lemma EvaluateOnPowers_on_a_prefix_of_the_table_witness :
  exists v, Evaluate [6; 5; 1] 3 f7 = Ok v /\
    @EvaluateOnPowers Z Z7_group [6; 5; 1]
      (take (Degree [6; 5; 1] + 1) (@gScalarBaseMult Z Z7_group <$> [1; 3; 2; 6; 4]))
    = Ok (@gScalarBaseMult Z Z7_group v).
Proof.
  apply (EvaluateOnPowers_on_a_prefix_of_the_table f7 Z Z7_group [6; 5; 1] 3 5).
  - reflexivity.
  - exact Z7_group_laws.
  - reflexivity.
  - unfold Degree; cbn; lia.
  - reflexivity.
Defined.

(** ** getQuotient for any claimed value *)

Section LinearQuotient.

Variable f : galois.Field.
Local Abbreviation o := (galois.Order f).
Hypothesis order_pos : 0 < o.

Variable p : list Z.
Variables z y : Z.
Local Abbreviation N := (Degree p).
Local Abbreviation d := [- z; 1].
Local Abbreviation sh := (tab o (S N) (fun k => coef p k + coef [- y] k)).

Hypothesis p_canonical : canonical p.
Hypothesis p_reduced : forall k, 0 <= coef p k < o.

Lemma Add_constant : Add p (NewPolynomial [- y]) f = Ok sh.
Proof.
  pose proof p_canonical as Cp. unfold canonical in Cp. unfold NewPolynomial.
  assert (Hmax : (Degree p `max` Degree [- y] = N)%nat).
  { pose proof (Degree_le_length [- y]) as Hd. simpl in Hd. lia. }
  rewrite (Add_spec f order_pos) by (rewrite Hmax; simpl; lia).
  rewrite Hmax. reflexivity.
Qed.

Lemma sh_length : length sh = S N.
Proof. apply length_tab. Qed.

Lemma sh_canonical : canonical sh.
Proof.
  unfold canonical. rewrite sh_length. f_equal. symmetry. apply Degree_unique.
  - intros HN. rewrite coef_tab, decide_True by lia.
    rewrite (coef_ge [- y]) by (simpl; lia). rewrite Z.add_0_r.
    rewrite Z.mod_small by apply p_reduced. apply Degree_nonzero, HN.
  - intros k Hk. rewrite coef_tab, decide_False by lia. reflexivity.
Qed.

Lemma sh_reduced k : 0 <= coef sh k < o.
Proof.
  rewrite coef_tab. case_decide; [|lia]. apply Z.mod_pos_bound, order_pos.
Qed.

Lemma sh_value x : cong o (epoly sh x) (epoly p x - y).
Proof.
  rewrite epoly_tab.
  pose proof p_canonical as Cp. unfold canonical in Cp.
  rewrite epoly_add by (simpl; lia).
  unfold epoly at 2. cbn [length sumn]. rewrite coef_cons_0.
  change (Z.of_nat 0) with 0. rewrite Z.pow_0_r. apply cong_eq. ring.
Qed.

Lemma linear_value x : epoly d x = x - z.
Proof.
  unfold epoly. cbn [length sumn]. rewrite coef_cons_0, coef_cons_S, coef_cons_0.
  change (Z.of_nat 0) with 0. change (Z.of_nat 1) with 1.
  rewrite Z.pow_0_r, Z.pow_1_r. ring.
Qed.

(** The division of [p - y] by [v - z] returns a quotient of [N] slots and
    a remainder of degree 0. *)
Lemma Div_linear fuel :
  (N < fuel)%nat ->
  exists q r, Div fuel sh (NewPolynomial d) f = Some (Ok (q, r)) /\
    length q = N /\ (N <> O -> canonical q) /\ length r = S N /\
    (forall k, coef r k = (coef sh k - conv d q k) mod o) /\ Degree r = O.
Proof.
  intros Hfuel.
  assert (Cd : canonical d) by reflexivity.
  assert (Dd : Degree d = 1%nat) by reflexivity.
  pose proof sh_canonical as Cs. pose proof Cs as Cs'. unfold canonical in Cs'.
  rewrite sh_length in Cs'. injection Cs' as Cs'.
  destruct (decide (N = O)) as [HN|HN].
  - assert (Ds : Degree sh = O) by lia.
    exists [], sh. split.
    { unfold Div, NewPolynomial. rewrite (Clone_canonical _ Cs), Dd, Ds.
      change (NewZeroPolynomial (Z.of_nat 0 - Z.of_nat 1)) with (Ok (A := list Z) []).
      destruct fuel as [|fuel]; cbn [Div_loop]; rewrite Dd, Ds; reflexivity. }
    split; [simpl; lia|]. split; [intros; lia|]. split; [apply sh_length|]. split; [|lia].
    intros k. rewrite (conv_comm d []), conv_nil_l, Z.sub_0_r.
    symmetry. apply Z.mod_small, sh_reduced.
  - destruct (Div_spec f order_pos sh d Cs sh_reduced Cd) with (fuel := fuel)
      as (q & r & E & Hpost).
    + rewrite Dd. apply Z.gcd_1_l.
    + rewrite Dd. lia.
    + lia.
    + destruct Hpost as (Hq & Cq & Hr & I2 & Hsmall). rewrite Dd, <- Cs' in *.
      exists q, r. split; [exact E|]. split; [lia|]. split; [intros _; exact Cq|].
      split; [exact Hr|]. split; [exact I2|].
      destruct Hsmall as [Hs|Hs]; [lia|].
      assert (Degree r <= 0)%nat by (apply Degree_le; intros k _; apply Hs). lia.
Qed.

(** The remainder is the constant [p(z) - y], reduced. *)
Lemma remainder_value q r :
  length q = N -> length r = S N ->
  (forall k, coef r k = (coef sh k - conv d q k) mod o) ->
  Degree r = O -> coef r 0 = (epoly p z - y) mod o.
Proof.
  intros Hq Hr I2 Hd.
  assert (Hred : coef r 0 mod o = coef r 0) by (rewrite I2; apply Zmod_mod).
  rewrite <- Hred. apply cong_unfold.
  assert (Er : epoly r z = coef r 0).
  { unfold epoly. rewrite Hr, sumn_shift1.
    rewrite sumn_zero; [change (Z.of_nat 0) with 0; rewrite Z.pow_0_r; ring|].
    intros i _. rewrite (Degree_above r) by lia. ring. }
  rewrite <- Er. unfold epoly. rewrite Hr.
  transitivity (sumn (S N) (fun k => coef sh k * z ^ Z.of_nat k)
                - sumn (S N) (fun k => conv d q k * z ^ Z.of_nat k)).
  { rewrite <- (Z.add_opp_r (sumn _ _)), <- (Z.mul_1_l (sumn (S N)
       (fun k => conv d q k * z ^ Z.of_nat k))), <- Z.mul_opp_l, <- sumn_scal, <- sumn_add.
    apply sumn_cong. intros k _. rewrite I2, cong_mod. apply cong_eq. ring. }
  rewrite epoly_conv by (simpl; lia). rewrite linear_value.
  replace (sumn (S N) (fun k => coef sh k * z ^ Z.of_nat k))
    with (epoly sh z) by (unfold epoly; rewrite sh_length; reflexivity).
  rewrite sh_value. apply cong_eq. unfold epoly. ring.
Qed.

(** With a zero remainder the division is exact at every point. *)
Lemma quotient_identity q r :
  length q = N -> length r = S N ->
  (forall k, coef r k = (coef sh k - conv d q k) mod o) ->
  Degree r = O -> coef r 0 = 0 ->
  forall x, cong o (epoly p x - y) ((x - z) * epoly q x).
Proof.
  intros Hq Hr I2 Hd H0 x.
  rewrite <- sh_value, <- linear_value.
  rewrite <- (epoly_conv d q x (S N)) by (simpl; lia).
  unfold epoly. rewrite sh_length. apply sumn_cong. intros k _.
  assert (Hk : cong o (coef sh k) (conv d q k)).
  { apply cong_intro. pose proof (I2 k) as Hz.
    rewrite (Degree_zero_all r Hd H0) in Hz. symmetry in Hz.
    apply Z.mod_divide in Hz; [|lia]. destruct Hz as [t Ht].
    replace (coef sh k) with (conv d q k + t * o) by lia. apply Z_mod_plus_full. }
  rewrite Hk. reflexivity.
Qed.

End LinearQuotient.

Lemma mod_sub_zero (o a b : Z) : 0 < o -> ((a - b) mod o = 0 <-> a mod o = b mod o).
Proof.
  intros Ho. split; intros H.
  - apply Z.mod_divide in H; [|lia]. destruct H as [t Ht].
    replace a with (b + t * o) by lia. apply Z_mod_plus_full.
  - rewrite Zminus_mod, H, Z.sub_diag. apply Zmod_0_l.
Qed.

(** What [getQuotient] hands back, in terms of the remainder of the
    division. *)
Lemma getQuotient_outcome (f : galois.Field) (p : list Z) (z y : Z) (fuel : nat) :
  0 < galois.Order f -> canonical p -> (forall k, 0 <= coef p k < galois.Order f) ->
  (Degree p < fuel)%nat ->
  exists q r,
    length q = Degree p /\ (Degree p <> O -> canonical q) /\
    coef r 0 = (epoly p z - y) mod galois.Order f /\
    (coef r 0 = 0 ->
       forall x, cong (galois.Order f) (epoly p x - y) ((x - z) * epoly q x)) /\
    kzg.getQuotient fuel p z y f
    = Some (if coef r 0 =? 0 then Ok q else Err (ErrRestNotZero r)).
Proof.
  intros Ho Cp Rp Hfuel.
  destruct (Div_linear f Ho p z y Rp fuel Hfuel) as (q & r & E & Hq & Cq & Hr & I2 & Hd).
  exists q, r. split; [exact Hq|]. split; [exact Cq|].
  split; [apply (remainder_value f p z y Cp q r Hq Hr I2 Hd)|].
  split; [apply (quotient_identity f Ho p z y Cp q r Hq Hr I2 Hd)|].
  assert (Hne : r <> []) by (intros ->; simpl in Hr; lia).
  unfold kzg.getQuotient. rewrite (Add_constant f Ho p y Cp), E. f_equal.
  destruct (Z.eqb_spec (coef r 0) 0) as [H0|H0].
  - rewrite (Eq_zero_true r Hne Hd H0). reflexivity.
  - rewrite (Eq_zero_false r Hne) by (right; exact H0). reflexivity.
Qed.

(** X24.  [getQuotient] accepts exactly the right value.  For a canonical
    polynomial of field elements and any point [z] and claimed value [y]:
    when [y] is congruent to what [Evaluate p z] returns, [getQuotient]
    returns a quotient with [Degree p] slots; for every other [y] it returns
    the error that carries the remainder, whose constant slot is
    [p(z) - y] reduced. *)
Theorem getQuotient_accepts_exactly_the_value (f : galois.Field) (p : list Z)
    (z y : Z) (fuel : nat) :
  0 < galois.Order f -> canonical p -> reduced f p -> (Degree p < fuel)%nat ->
  exists v, Evaluate p z f = Ok v /\
    (v = y mod galois.Order f ->
       exists q, kzg.getQuotient fuel p z y f = Some (Ok q) /\ length q = Degree p) /\
    (v <> y mod galois.Order f ->
       exists r, kzg.getQuotient fuel p z y f = Some (Err (ErrRestNotZero r)) /\
                 coef r 0 = (v - y) mod galois.Order f).
Proof.
  intros Ho Cp Rp Hfuel.
  exists (epoly p z mod galois.Order f).
  split; [apply (Evaluate_spec f Ho), canonical_nonempty, Cp|].
  destruct (getQuotient_outcome f p z y fuel Ho Cp (reduced_coef f p Ho Rp) Hfuel)
    as (q & r & Hq & _ & Hr & _ & E).
  rewrite E. split; intros Hv.
  - exists q. split; [|exact Hq].
    apply (mod_sub_zero _ _ _ Ho) in Hv. rewrite <- Hr in Hv. rewrite Hv. reflexivity.
  - exists r. split.
    + destruct (Z.eqb_spec (coef r 0) 0) as [H0|H0]; [|reflexivity].
      exfalso. apply Hv. apply (mod_sub_zero _ _ _ Ho). rewrite <- Hr. exact H0.
    + rewrite Hr. symmetry. apply Zminus_mod_idemp_l.
Qed.

Lemma getQuotient_accepts_exactly_the_value_witness :
  exists v, Evaluate [6; 4; 5] 3 f7 = Ok v /\
    (v = 2 mod galois.Order f7 ->
       exists q, kzg.getQuotient 3 [6; 4; 5] 3 2 f7 = Some (Ok q) /\
                 length q = Degree [6; 4; 5]) /\
    (v <> 2 mod galois.Order f7 ->
       exists r, kzg.getQuotient 3 [6; 4; 5] 3 2 f7 = Some (Err (ErrRestNotZero r)) /\
                 coef r 0 = (v - 2) mod galois.Order f7).
Proof.
  apply getQuotient_accepts_exactly_the_value; [reflexivity|reflexivity| |unfold Degree; cbn; lia].
  repeat constructor; simpl; lia.
Defined.

(** X25.  The quotient that [getQuotient] returns satisfies the equation the
    pairing check of [main] tests, at every point [x], the secret one
    included: for a canonical polynomial of field elements of degree one or
    more, the quotient [q] is canonical, of degree one less, and
    [Evaluate p x - y] equals [(x - z) * Evaluate q x] in the field. *)
Theorem getQuotient_quotient_equation (f : galois.Field) (p q : list Z)
    (z y x : Z) (fuel : nat) :
  0 < galois.Order f -> canonical p -> reduced f p ->
  (1 <= Degree p)%nat -> (Degree p < fuel)%nat ->
  kzg.getQuotient fuel p z y f = Some (Ok q) ->
  canonical q /\ S (Degree q) = Degree p /\
  exists a b, Evaluate p x f = Ok a /\ Evaluate q x f = Ok b /\
              galois.Sub f a y = galois.Mul f (x - z) b.
Proof.
  intros Ho Cp Rp HN Hfuel E.
  destruct (getQuotient_outcome f p z y fuel Ho Cp (reduced_coef f p Ho Rp) Hfuel)
    as (q' & r & Hq & Cq & _ & Hid & E').
  rewrite E in E'. destruct (Z.eqb_spec (coef r 0) 0) as [H0|H0]; [|discriminate].
  injection E' as ->. specialize (Cq ltac:(lia)). specialize (Hid H0 x).
  split; [exact Cq|]. pose proof Cq as Cq'. unfold canonical in Cq'. split; [lia|].
  exists (epoly p x mod galois.Order f), (epoly q' x mod galois.Order f).
  split; [apply (Evaluate_spec f Ho), canonical_nonempty, Cp|].
  split; [apply (Evaluate_spec f Ho), canonical_nonempty, Cq|].
  unfold galois.Sub, galois.Mul. rewrite !(bigMod_pos f Ho). f_equal.
  rewrite Zminus_mod_idemp_l, Z.mul_mod_idemp_r by lia.
  apply cong_unfold, Hid.
Qed.

Lemma getQuotient_quotient_equation_witness :
  canonical [5; 5] /\ S (Degree [5; 5]) = Degree [6; 4; 5] /\
  exists a b, Evaluate [6; 4; 5] 5 f7 = Ok a /\ Evaluate [5; 5] 5 f7 = Ok b /\
              galois.Sub f7 a 0 = galois.Mul f7 (5 - 3) b.
Proof.
  apply (getQuotient_quotient_equation f7 [6; 4; 5] [5; 5] 3 0 5 3);
    [reflexivity|reflexivity| |unfold Degree; cbn; lia|unfold Degree; cbn; lia|reflexivity].
  repeat constructor; simpl; lia.
Defined.

(** X26.  The constant polynomial is the edge of the scheme.  For a
    one-slot polynomial [[c]] and its own value, [getQuotient] returns the
    empty slice; the next step of [main], [EvaluateOnPowers] on the first
    [Degree q + 1] encoded powers, then reports a length mismatch of 0
    against 1, and [Evaluate] on that quotient panics. *)
Theorem getQuotient_of_a_constant_is_empty (f : galois.Field) (c z : Z)
    (fuel : nat) (G : Type) (GE : GroupElement G) (table : list G) :
  0 < galois.Order f -> 0 <= c < galois.Order f -> (0 < fuel)%nat -> table <> [] ->
  kzg.getQuotient fuel [c] z c f = Some (Ok []) /\
  EvaluateOnPowers [] (take (Degree [] + 1) table) = Err (ErrLenMismatch 0 1) /\
  Evaluate [] z f = Panic IndexOutOfRange.
Proof.
  intros Ho Hc Hfuel Ht. split; [|split; [|reflexivity]].
  - assert (Rc : forall k, 0 <= coef [c] k < galois.Order f).
    { intros [|k]; [exact Hc|]. rewrite coef_cons_S, coef_ge by (simpl; lia). lia. }
    destruct (getQuotient_outcome f [c] z c fuel Ho eq_refl Rc Hfuel)
      as (q & r & Hq & _ & Hr & _ & E).
    rewrite E. destruct q; [|discriminate Hq].
    replace (coef r 0) with 0; [reflexivity|]. rewrite Hr.
    unfold epoly. cbn [length sumn]. rewrite coef_cons_0.
    change (Z.of_nat 0) with 0. rewrite Z.pow_0_r.
    replace (0 + c * 1 - c) with 0 by ring. reflexivity.
  - unfold EvaluateOnPowers. rewrite length_take.
    change (Degree [] + 1)%nat with 1%nat.
    destruct table as [|g table]; [congruence|]. reflexivity.
Qed.

Lemma getQuotient_of_a_constant_is_empty_witness :
  kzg.getQuotient 1 [1] 5 1 f7 = Some (Ok []) /\
  @EvaluateOnPowers Z Z7_group [] (take (Degree [] + 1) [1; 3; 2])
    = Err (ErrLenMismatch 0 1) /\
  Evaluate [] 5 f7 = Panic IndexOutOfRange.
Proof.
  apply (getQuotient_of_a_constant_is_empty f7 1 5 1 Z Z7_group [1; 3; 2]);
    [reflexivity|cbn; lia|lia|discriminate].
Defined.

(** ** Field elements share and unshare their integers *)

Lemma deref_Some {A} (l : list A) (i : nat) (a : A) :
  l !! i = Some a -> FieldElement.deref l (Some i) = Ok a.
Proof. intros E. unfold FieldElement.deref. rewrite E. reflexivity. Qed.

Lemma deref_Ok_inv {A} (l : list A) (p : FieldElement.ptr) (a : A) :
  FieldElement.deref l p = Ok a -> exists i, p = Some i /\ l !! i = Some a.
Proof.
  destruct p as [i|]; [|discriminate]. unfold FieldElement.deref.
  destruct (l !! i) as [a'|] eqn:E; [|discriminate].
  intros H. injection H as <-. exists i. split; [reflexivity|exact E].
Qed.

Lemma value_Some (h : FieldElement.heap) (k c : nat) ev v :
  FieldElement.elems h !! k = Some ev -> FieldElement.x ev = Some c ->
  FieldElement.ints h !! c = Some v -> value h (Some k) = Ok v.
Proof.
  intros Ek Ex Ec. unfold value. rewrite (deref_Some _ _ _ Ek). cbn [obind].
  rewrite Ex. apply deref_Some, Ec.
Qed.

Lemma value_Ok_inv (h : FieldElement.heap) (e : FieldElement.ptr) v :
  value h e = Ok v ->
  exists k ev c, e = Some k /\ FieldElement.elems h !! k = Some ev /\
                 FieldElement.x ev = Some c /\ FieldElement.ints h !! c = Some v.
Proof.
  unfold value. intros H.
  destruct (FieldElement.deref (FieldElement.elems h) e) as [ev|?|?] eqn:Ee;
    try discriminate.
  cbn [obind] in H. destruct (deref_Ok_inv _ _ _ Ee) as (k & -> & Ek).
  destruct (deref_Ok_inv _ _ _ H) as (c & Ex & Ec).
  exists k, ev, c. repeat split; assumption.
Qed.

(** X27.  [NewFieldElement] stores the pointer it is given.  Two elements
    built from the same integer are distinct structs over one shared
    integer: both hold its value, and [SetInfinity] on the first also zeroes
    the second and the caller's integer. *)
Theorem NewFieldElement_shares_the_integer (h h1 h2 : FieldElement.heap)
    (e1 e2 : FieldElement.ptr) (c : nat) (v : Z) (f g : option galois.Field) :
  FieldElement.ints h !! c = Some v ->
  FieldElement.NewFieldElement (Some c) f h = (e1, h1) ->
  FieldElement.NewFieldElement (Some c) g h1 = (e2, h2) ->
  e1 <> e2 /\ value h2 e1 = Ok v /\ value h2 e2 = Ok v /\
  exists h3, FieldElement.SetInfinity e1 h2 = Ok h3 /\
             value h3 e1 = Ok 0 /\ value h3 e2 = Ok 0 /\
             FieldElement.ints h3 !! c = Some 0.
Proof.
  intros Ec E1 E2. unfold FieldElement.NewFieldElement in E1, E2.
  injection E1 as <- <-. cbn in E2. injection E2 as <- <-.
  set (n := length (FieldElement.elems h)).
  set (s1 := FieldElement.mkFieldElement (Some c) f).
  set (s2 := FieldElement.mkFieldElement (Some c) g).
  assert (L1 : ((FieldElement.elems h ++ [s1]) ++ [s2]) !! n = Some s1).
  { rewrite lookup_app_l by (rewrite length_app; simpl; lia).
    apply list_lookup_middle. reflexivity. }
  assert (L2 : ((FieldElement.elems h ++ [s1]) ++ [s2])
                 !! length (FieldElement.elems h ++ [s1]) = Some s2).
  { apply list_lookup_middle. reflexivity. }
  split; [rewrite length_app; simpl; intros H; injection H; lia|].
  split; [apply (value_Some _ _ c s1); [exact L1|reflexivity|exact Ec]|].
  split; [apply (value_Some _ _ c s2); [exact L2|reflexivity|exact Ec]|].
  assert (Ec0 : <[c := 0]> (FieldElement.ints h) !! c = Some 0).
  { apply list_lookup_insert_eq. apply lookup_lt_Some in Ec. exact Ec. }
  eexists. split.
  { unfold FieldElement.SetInfinity. cbn [FieldElement.elems FieldElement.ints].
    rewrite (deref_Some _ _ _ L1). cbn [obind FieldElement.x s1].
    rewrite (deref_Some _ _ _ Ec). cbn [obind]. reflexivity. }
  split; [apply (value_Some _ _ c s1); [exact L1|reflexivity|exact Ec0]|].
  split; [apply (value_Some _ _ c s2); [exact L2|reflexivity|exact Ec0]|].
  exact Ec0.
Qed.

Lemma NewFieldElement_shares_the_integer_witness :
  Some 0%nat <> Some 1%nat /\
  value (FieldElement.Heap [5]
     [FieldElement.mkFieldElement (Some 0%nat) (Some f7);
      FieldElement.mkFieldElement (Some 0%nat) (Some f7)]) (Some 0%nat) = Ok 5 /\
  value (FieldElement.Heap [5]
     [FieldElement.mkFieldElement (Some 0%nat) (Some f7);
      FieldElement.mkFieldElement (Some 0%nat) (Some f7)]) (Some 1%nat) = Ok 5 /\
  exists h3, FieldElement.SetInfinity (Some 0%nat) (FieldElement.Heap [5]
     [FieldElement.mkFieldElement (Some 0%nat) (Some f7);
      FieldElement.mkFieldElement (Some 0%nat) (Some f7)]) = Ok h3 /\
             value h3 (Some 0%nat) = Ok 0 /\ value h3 (Some 1%nat) = Ok 0 /\
             FieldElement.ints h3 !! 0%nat = Some 0.
Proof.
  apply (NewFieldElement_shares_the_integer (FieldElement.Heap [5] [])
           (FieldElement.Heap [5] [FieldElement.mkFieldElement (Some 0%nat) (Some f7)])
           _ _ _ 0%nat 5 (Some f7) (Some f7)); reflexivity.
Defined.

(** X28.  [Set] copies the value and keeps the two integers apart: after
    [e.Set(a)] both elements hold the value of [a] and no struct has
    changed; when the two elements had different integers, a later
    [SetInfinity] on [a] leaves the value of [e] alone. *)
Theorem Set_copies_the_value (h : FieldElement.heap) (ke ka i j : nat)
    (ev av : FieldElement.FieldElement) (vi vj : Z) :
  FieldElement.elems h !! ke = Some ev -> FieldElement.x ev = Some i ->
  FieldElement.elems h !! ka = Some av -> FieldElement.x av = Some j ->
  FieldElement.ints h !! i = Some vi -> FieldElement.ints h !! j = Some vj ->
  exists h', FieldElement.Set_ (Some ke) (Some ka) h = Ok h' /\
    FieldElement.elems h' = FieldElement.elems h /\
    value h' (Some ke) = Ok vj /\ value h' (Some ka) = Ok vj /\
    (i <> j ->
       exists h'', FieldElement.SetInfinity (Some ka) h' = Ok h'' /\
                   value h'' (Some ka) = Ok 0 /\ value h'' (Some ke) = Ok vj).
Proof.
  intros Ee Ei Ea Ej Evi Evj.
  pose proof (lookup_lt_Some _ _ _ Evi) as Li. pose proof (lookup_lt_Some _ _ _ Evj) as Lj.
  set (h' := FieldElement.Heap (<[i := vj]> (FieldElement.ints h)) (FieldElement.elems h)).
  assert (Hi' : FieldElement.ints h' !! i = Some vj).
  { apply list_lookup_insert_eq, Li. }
  assert (Hj' : FieldElement.ints h' !! j = Some vj).
  { destruct (decide (i = j)) as [<-|Hne]; [exact Hi'|].
    unfold h'. cbn [FieldElement.ints]. rewrite list_lookup_insert_ne by exact Hne.
    exact Evj. }
  exists h'. split.
  { unfold FieldElement.Set_. rewrite (deref_Some _ _ _ Ee), (deref_Some _ _ _ Ea).
    cbn [obind]. rewrite Ej, Ei, (deref_Some _ _ _ Evj), (deref_Some _ _ _ Evi).
    reflexivity. }
  split; [reflexivity|].
  split; [apply (value_Some h' ke i ev); assumption|].
  split; [apply (value_Some h' ka j av); assumption|].
  intros Hne.
  set (h'' := FieldElement.Heap (<[j := 0]> (FieldElement.ints h')) (FieldElement.elems h')).
  exists h''. split.
  { unfold FieldElement.SetInfinity.
    change (FieldElement.elems h') with (FieldElement.elems h).
    rewrite (deref_Some _ _ _ Ea). cbn [obind]. rewrite Ej, (deref_Some _ _ _ Hj').
    reflexivity. }
  split.
  - apply (value_Some h'' ka j av); [exact Ea|exact Ej|].
    apply list_lookup_insert_eq. apply lookup_lt_Some in Hj'. exact Hj'.
  - apply (value_Some h'' ke i ev); [exact Ee|exact Ei|].
    unfold h''. cbn [FieldElement.ints]. rewrite list_lookup_insert_ne by congruence.
    exact Hi'.
Qed.

Lemma Set_copies_the_value_witness :
  exists h',
    FieldElement.Set_ (Some 0%nat) (Some 1%nat)
      (FieldElement.Heap [5; 3]
         [FieldElement.mkFieldElement (Some 0%nat) (Some f7);
          FieldElement.mkFieldElement (Some 1%nat) (Some f7)]) = Ok h' /\
    FieldElement.elems h' =
      [FieldElement.mkFieldElement (Some 0%nat) (Some f7);
       FieldElement.mkFieldElement (Some 1%nat) (Some f7)] /\
    value h' (Some 0%nat) = Ok 3 /\ value h' (Some 1%nat) = Ok 3 /\
    (0%nat <> 1%nat ->
       exists h'', FieldElement.SetInfinity (Some 1%nat) h' = Ok h'' /\
                   value h'' (Some 1%nat) = Ok 0 /\ value h'' (Some 0%nat) = Ok 3).
Proof.
  apply (Set_copies_the_value
           (FieldElement.Heap [5; 3]
              [FieldElement.mkFieldElement (Some 0%nat) (Some f7);
               FieldElement.mkFieldElement (Some 1%nat) (Some f7)])
           0 1 0 1 (FieldElement.mkFieldElement (Some 0%nat) (Some f7))
           (FieldElement.mkFieldElement (Some 1%nat) (Some f7)) 5 3); reflexivity.
Defined.

(** Pointing one struct at a newly allocated integer: the struct reads the
    new value, every integer allocated before is untouched, and every other
    element that held a value still holds it. *)
Lemma rebind_fresh (h : FieldElement.heap) (k : nat) (ev : FieldElement.FieldElement)
    (s : Z) (fo : option galois.Field) :
  FieldElement.elems h !! k = Some ev ->
  let h' := FieldElement.Heap (FieldElement.ints h ++ [s])
              (<[k := FieldElement.mkFieldElement (Some (length (FieldElement.ints h))) fo]>
                 (FieldElement.elems h)) in
  value h' (Some k) = Ok s /\
  (forall c v, FieldElement.ints h !! c = Some v -> FieldElement.ints h' !! c = Some v) /\
  (forall e' v, e' <> Some k -> value h e' = Ok v -> value h' e' = Ok v).
Proof.
  intros Ek h'. pose proof (lookup_lt_Some _ _ _ Ek) as Lk.
  assert (Hold : forall c v, FieldElement.ints h !! c = Some v ->
                             FieldElement.ints h' !! c = Some v).
  { intros c v Ec. unfold h'. cbn [FieldElement.ints].
    rewrite lookup_app_l by (apply lookup_lt_Some in Ec; exact Ec). exact Ec. }
  split; [|split; [exact Hold|]].
  - apply (value_Some h' k (length (FieldElement.ints h))
             (FieldElement.mkFieldElement (Some (length (FieldElement.ints h))) fo)).
    + apply list_lookup_insert_eq, Lk.
    + reflexivity.
    + apply list_lookup_middle. reflexivity.
  - intros e' v Hne Hv. destruct (value_Ok_inv h e' v Hv) as (k' & ev' & c & -> & Ek' & Ex & Ec).
    apply (value_Some h' k' c ev'); [|exact Ex|apply Hold, Ec].
    unfold h'. cbn [FieldElement.elems]. rewrite list_lookup_insert_ne by congruence.
    exact Ek'.
Qed.

(** X29.  [Add] and [Mul] never write into an existing integer.  The result
    goes into a new integer and only the receiver is pointed at it: the
    receiver then holds what [Field.Add] (or [Field.Mul]) returns, every
    integer allocated before keeps its value, and so does every other
    element, those that shared the receiver's old integer included. *)
Theorem Add_and_Mul_allocate_the_result (h : FieldElement.heap) (k : nat)
    (ev : FieldElement.FieldElement) (f : galois.Field)
    (a b scalar : FieldElement.ptr) (va vb vs : Z) :
  FieldElement.elems h !! k = Some ev -> FieldElement.Field ev = Some f ->
  galois.Order f <> 0 ->
  value h a = Ok va -> value h b = Ok vb ->
  FieldElement.deref (FieldElement.ints h) scalar = Ok vs ->
  (exists h', FieldElement.Add (Some k) a b h = Ok h' /\
     galois.Add f va vb = value h' (Some k) /\
     (forall c v, FieldElement.ints h !! c = Some v -> FieldElement.ints h' !! c = Some v) /\
     (forall e' v, e' <> Some k -> value h e' = Ok v -> value h' e' = Ok v)) /\
  (exists h', FieldElement.Mul (Some k) a scalar h = Ok h' /\
     galois.Mul f va vs = value h' (Some k) /\
     (forall c v, FieldElement.ints h !! c = Some v -> FieldElement.ints h' !! c = Some v) /\
     (forall e' v, e' <> Some k -> value h e' = Ok v -> value h' e' = Ok v)).
Proof.
  intros Ek Ef Ho Ha Hb Hs.
  destruct (value_Ok_inv h a va Ha) as (ka & av & ca & -> & Eka & Exa & Eca).
  destruct (value_Ok_inv h b vb Hb) as (kb & bv & cb & -> & Ekb & Exb & Ecb).
  split.
  - destruct (rebind_fresh h k ev ((va + vb) mod Z.abs (galois.Order f)) (Some f) Ek)
      as (Hnew & Hold & Hothers).
    eexists. split.
    { unfold FieldElement.Add.
      rewrite (deref_Some _ _ _ Ek), (deref_Some _ _ _ Eka), (deref_Some _ _ _ Ekb).
      cbn [obind]. rewrite Exa, Exb, (deref_Some _ _ _ Eca), (deref_Some _ _ _ Ecb).
      cbn [obind]. rewrite Ef. unfold galois.Add, galois.bigMod.
      destruct (Z.eqb_spec (galois.Order f) 0); [contradiction|]. cbn [obind].
      reflexivity. }
    split; [|split; [exact Hold|exact Hothers]].
    rewrite Hnew. unfold galois.Add, galois.bigMod.
    destruct (Z.eqb_spec (galois.Order f) 0); [contradiction|reflexivity].
  - destruct (rebind_fresh h k ev ((va * vs) mod Z.abs (galois.Order f)) (Some f) Ek)
      as (Hnew & Hold & Hothers).
    eexists. split.
    { unfold FieldElement.Mul.
      rewrite (deref_Some _ _ _ Ek), (deref_Some _ _ _ Eka).
      cbn [obind]. rewrite Exa, (deref_Some _ _ _ Eca), Hs.
      cbn [obind]. rewrite Ef. unfold galois.Mul, galois.bigMod.
      destruct (Z.eqb_spec (galois.Order f) 0); [contradiction|]. cbn [obind].
      reflexivity. }
    split; [|split; [exact Hold|exact Hothers]].
    rewrite Hnew. unfold galois.Mul, galois.bigMod.
    destruct (Z.eqb_spec (galois.Order f) 0); [contradiction|reflexivity].
Qed.

Lemma Add_and_Mul_allocate_the_result_witness :
  (exists h', FieldElement.Add (Some 0%nat) (Some 0%nat) (Some 2%nat) shared_heap = Ok h' /\
     galois.Add f7 5 3 = value h' (Some 0%nat) /\
     (forall c v, FieldElement.ints shared_heap !! c = Some v ->
                  FieldElement.ints h' !! c = Some v) /\
     (forall e' v, e' <> Some 0%nat -> value shared_heap e' = Ok v -> value h' e' = Ok v)) /\
  (exists h', FieldElement.Mul (Some 0%nat) (Some 0%nat) (Some 1%nat) shared_heap = Ok h' /\
     galois.Mul f7 5 3 = value h' (Some 0%nat) /\
     (forall c v, FieldElement.ints shared_heap !! c = Some v ->
                  FieldElement.ints h' !! c = Some v) /\
     (forall e' v, e' <> Some 0%nat -> value shared_heap e' = Ok v -> value h' e' = Ok v)).
Proof.
  apply (Add_and_Mul_allocate_the_result shared_heap 0
           (FieldElement.mkFieldElement (Some 0%nat) (Some f7)) f7
           (Some 0%nat) (Some 2%nat) (Some 1%nat) 5 3 3);
    try reflexivity.
  discriminate.
Defined.

(** ** Division by a divisor with trailing zeros *)


